(** * Online ad auctions using Thompson sampling

    A shallow embedding of the notebook
    [Online_ad_auctions_using_Thompson_sampling.ipynb] and the properties of
    its bandit engine.

    Conventions of the embedding:
    - a Python [dict] keyed by advertiser names is a [gmap string _], a
      [dict] keyed by integers is a [gmap Z _], a Python [list] is a [list];
    - a Python [int] is a [Z];
    - a Python [float] is an exact rational [Q]: rounding is not modelled,
      and two floats are compared with [Qeq] ([==]);  the float [nan] that
      [np.mean] returns on an empty list is [None] in an [option Q];
    - a raised exception is the [Raise] branch of [result];
    - the process-wide generator behind [np.random] is an explicit state of an
      arbitrary type, threaded through every call in program order. *)

From Stdlib Require Import ZArith QArith Qabs Lqa Lia List Permutation.
From stdpp Require Import gmap strings list fin_maps.

Local Open Scope string_scope.
Local Open Scope list_scope.
Open Scope Z_scope.

(** ** Exceptions and fallible computations *)

Inductive exn : Type :=
| KeyError
| IndexError
| ValueError.

Inductive result (A : Type) : Type :=
| Ok (x : A)
| Raise (e : exn).

Arguments Ok {A} x.
Arguments Raise {A} e.

#[global] Instance result_ret : MRet result := @Ok.

#[global] Instance result_bind : MBind result := fun A B k m =>
  match m with
  | Ok x => k x
  | Raise e => Raise e
  end.

(** [for x in xs: st = body(st, x)], stopping at the first exception. *)
Fixpoint for_each {A S} (body : S -> A -> result S) (xs : list A) (st : S)
  : result S :=
  match xs with
  | [] => Ok st
  | x :: xs' => body st x ≫= for_each body xs'
  end.

(** [d[k]] on a dictionary. *)
Definition getitem {K} `{Countable K} {V} (d : gmap K V) (k : K) : result V :=
  match d !! k with
  | Some v => Ok v
  | None => Raise KeyError
  end.

(** [d[k]] where [k] may be the Python value [None], which is never a key of
    the dictionaries of the notebook. *)
Definition getitem_opt {V} (d : gmap string V) (k : option string) : result V :=
  match k with
  | Some ad => getitem d ad
  | None => Raise KeyError
  end.

(** [{k: f(k) for k in keys}]. *)
Definition dict_comp {K} `{Countable K} {V}
    (f : K -> result V) (keys : list K) : result (gmap K V) :=
  for_each (fun d k => v ← f k; Ok (<[k:=v]> d)) keys ∅.

(** [range(n)]: empty when [n <= 0]. *)
Definition range (n : Z) : list Z := map Z.of_nat (seq 0 (Z.to_nat n)).

(** [x > y] on floats. *)
Definition Qgtb (x y : Q) : bool :=
  match (x ?= y)%Q with
  | Gt => true
  | _ => false
  end.

(** ** The data cells *)

Record AuctionData : Type := {
  ads : list string;
  bid : gmap string Q;
  views : gmap string Z;
  clicks : gmap string Z;
  ctr_true : gmap string Q;
}.

(** The tables written in the notebook. *)
Definition reference : AuctionData := {|
  ads := ["crypto_magic"; "green_energy"; "infini_waves"];
  bid := {[ "crypto_magic" := 7 # 10; "green_energy" := 5 # 10;
            "infini_waves" := 4 # 10 ]};
  views := {[ "crypto_magic" := 300; "green_energy" := 140;
              "infini_waves" := 60 ]};
  clicks := {[ "crypto_magic" := 9; "green_energy" := 3;
               "infini_waves" := 2 ]};
  ctr_true := {[ "crypto_magic" := 25 # 1000; "green_energy" := 12 # 1000;
                 "infini_waves" := 55 # 1000 ]};
|}.

(** [ev_true = {ad: bid[ad]*ctr_true[ad] for ad in ads}] *)
Definition ev_true_cell (d : AuctionData) : result (gmap string Q) :=
  dict_comp (fun ad => b ← getitem (bid d) ad;
                       p ← getitem (ctr_true d) ad;
                       Ok (b * p)%Q) (ads d).

(** One iteration of the two hand-written arg-max loops of the notebook:
    [if value > val: val = value; arg = ad]. *)
Definition scan_step (value : string -> result Q)
    (st : option string * Q) (ad : string) : result (option string * Q) :=
  v ← value ad;
  if Qgtb v (snd st) then Ok (Some ad, v) else Ok st.

(** [arg = None; val = 0.0; for ad in ads: ...] *)
Definition scan (value : string -> result Q) (l : list string)
  : result (option string * Q) :=
  for_each (scan_step value) l (None, 0%Q).

(** [best]: the advertiser maximizing the true expected value. *)
Definition best_cell (d : AuctionData) (ev_true : gmap string Q)
  : result (option string) :=
  '(arg, _) ← scan (getitem ev_true) (ads d); Ok arg.

(** ** Initialization of prior distributions *)

Definition initialization (d : AuctionData)
  : result (gmap string Z * gmap string Z) :=
  a ← dict_comp (getitem (clicks d)) (ads d);
  b ← dict_comp (fun ad => v ← getitem (views d) ad;
                           c ← getitem (clicks d) ad;
                           Ok (v - c)) (ads d);
  Ok (a, b).

(** ** The random generator

    [np.random.beta(a, b)] and [np.random.binomial(1, p)] read and advance the
    process-wide generator; either may raise (NumPy rejects [a <= 0],
    [b <= 0] and [p] outside [0, 1]). *)

Class NpRandom (rng : Type) : Type := {
  random_beta : Z -> Z -> rng -> result (Q * rng);
  random_binomial1 : Q -> rng -> result (Z * rng);
}.

(** Computations that use the generator and may raise. *)
Definition M (rng A : Type) : Type := rng -> result (A * rng).

#[global] Instance M_ret {rng} : MRet (M rng) := fun A x g => Ok (x, g).

#[global] Instance M_bind {rng} : MBind (M rng) := fun A B k m g =>
  match m g with
  | Ok (x, g') => k x g'
  | Raise e => Raise e
  end.

(** A computation that leaves the generator alone. *)
Definition lift {rng A} (m : result A) : M rng A := fun g =>
  match m with
  | Ok x => Ok (x, g)
  | Raise e => Raise e
  end.

Fixpoint for_each_M {rng A S} (body : S -> A -> M rng S) (xs : list A) (st : S)
  : M rng S :=
  match xs with
  | [] => mret st
  | x :: xs' => body st x ≫= for_each_M body xs'
  end.

(** ** Thompson sampling *)

(** The local variables of [TS]; its return value is the same five objects. *)
Record TSState : Type := {
  ts_reward : list Q;
  ts_regret : list Q;
  ts_ctr_prior : gmap Z (gmap string Q);
  ts_a : gmap string Z;
  ts_b : gmap string Z;
}.

(** [{t: {} for t in range(T)}] *)
Definition empty_rows (T : Z) : gmap Z (gmap string Q) :=
  list_to_map ((fun t => (t, ∅)) <$> range T).

(** [bid[ad]*ctr_prior[t][ad]] *)
Definition estimated_value (d : AuctionData) (ctr_prior : gmap Z (gmap string Q))
    (t : Z) (ad : string) : result Q :=
  bd ← getitem (bid d) ad;
  row ← getitem ctr_prior t;
  s ← getitem row ad;
  Ok (bd * s)%Q.

(** The action selection of round [t]: the pair [(arg, val)] after the loop. *)
Definition select_action (d : AuctionData) (ctr_prior : gmap Z (gmap string Q))
    (t : Z) : result (option string * Q) :=
  scan (estimated_value d ctr_prior t) (ads d).

(** [m[arg] += 1] *)
Definition increment (m : gmap string Z) (arg : option string)
  : result (gmap string Z) :=
  match arg with
  | Some ad => v ← getitem m ad; Ok (<[ad := v + 1]> m)
  | None => Raise KeyError
  end.

(** [if click == 1: a[arg] += 1  else: b[arg] += 1] *)
Definition update (a b : gmap string Z) (arg : option string) (click : Z)
  : result (gmap string Z * gmap string Z) :=
  if click =? 1
  then a' ← increment a arg; Ok (a', b)
  else b' ← increment b arg; Ok (a, b').

Section TS.
Context {rng : Type} `{NpRandom rng}.
Variable d : AuctionData.
Variable ev_true : gmap string Q.
Variable best : option string.
Variable T : Z.

(** [ctr_prior[t][ad] = np.random.beta(a[ad], b[ad])] *)
Definition sample_step (t : Z) (a b : gmap string Z)
    (ctr_prior : gmap Z (gmap string Q)) (ad : string)
  : M rng (gmap Z (gmap string Q)) :=
  aa ← lift (getitem a ad);
  bb ← lift (getitem b ad);
  x ← random_beta aa bb;
  row ← lift (getitem ctr_prior t);
  mret (<[t := <[ad := x]> row]> ctr_prior).

(** [for ad in ads: ctr_prior[t][ad] = np.random.beta(a[ad], b[ad])] *)
Definition sample_posteriors (t : Z) (a b : gmap string Z)
    (ctr_prior : gmap Z (gmap string Q)) : M rng (gmap Z (gmap string Q)) :=
  for_each_M (sample_step t a b) (ads d) ctr_prior.

(** The body of [for t in range(T)]. *)
Definition TS_round (st : TSState) (t : Z) : M rng TSState :=
  ctr_prior ← sample_posteriors t (ts_a st) (ts_b st) (ts_ctr_prior st);
  '(arg, _) ← lift (select_action d ctr_prior t);
  p ← lift (getitem_opt (ctr_true d) arg);
  click ← random_binomial1 p;
  bd ← lift (getitem_opt (bid d) arg);
  evb ← lift (getitem_opt ev_true best);
  eva ← lift (getitem_opt ev_true arg);
  '(a, b) ← lift (update (ts_a st) (ts_b st) arg click);
  mret {| ts_reward := ts_reward st ++ [(bd * inject_Z click)%Q];
          ts_regret := ts_regret st ++ [(evb - eva)%Q];
          ts_ctr_prior := ctr_prior;
          ts_a := a;
          ts_b := b |}.

(** The locals of [TS] before the first round. *)
Definition TS_init : result TSState :=
  '(a, b) ← initialization d;
  Ok {| ts_reward := []; ts_regret := []; ts_ctr_prior := empty_rows T;
        ts_a := a; ts_b := b |}.

(** The state of [TS] after its first [n] rounds ([n] at most [T]). *)
Definition TS_upto (n : nat) : M rng TSState :=
  st ← lift TS_init;
  for_each_M TS_round (take n (range T)) st.

Definition TS : M rng TSState :=
  st ← lift TS_init;
  for_each_M TS_round (range T) st.

End TS.

(** ** Simulations *)

(** The five dictionaries filled by the replications. *)
Record AllTraces : Type := {
  all_reward : gmap Z (list Q);
  all_regret : gmap Z (list Q);
  all_ctr_prior : gmap Z (gmap Z (gmap string Q));
  all_a : gmap Z (gmap string Z);
  all_b : gmap Z (gmap string Z);
}.

Definition no_traces : AllTraces := {|
  all_reward := ∅; all_regret := ∅; all_ctr_prior := ∅;
  all_a := ∅; all_b := ∅ |}.

(** [all_reward[r],all_regret[r],all_ctr_prior[r],all_a[r],all_b[r] = tr] *)
Definition store (all : AllTraces) (r : Z) (tr : TSState) : AllTraces := {|
  all_reward := <[r := ts_reward tr]> (all_reward all);
  all_regret := <[r := ts_regret tr]> (all_regret all);
  all_ctr_prior := <[r := ts_ctr_prior tr]> (all_ctr_prior all);
  all_a := <[r := ts_a tr]> (all_a all);
  all_b := <[r := ts_b tr]> (all_b all) |}.

Section Simulation.
Context {rng : Type} `{NpRandom rng}.
Variable d : AuctionData.
Variable ev_true : gmap string Q.
Variable best : option string.
Variable T R : Z.

(** The body of [for r in range(R)]. *)
Definition simulation_step (all : AllTraces) (r : Z) : M rng AllTraces :=
  tr ← TS d ev_true best T;
  mret (store all r tr).

Definition simulation : M rng AllTraces :=
  for_each_M simulation_step (range R) no_traces.

End Simulation.

(** The dictionaries [all_*] once the traces [trs] have been stored in this
    order under the keys [0, 1, ...]. *)
Definition store_all (trs : list TSState) : AllTraces :=
  foldl (fun all rtr => store all (fst rtr) (snd rtr)) no_traces
        (zip (range (Z.of_nat (length trs))) trs).

(** ** Computation of averages over replications *)

(** [l[i]] on a list, with Python's negative indices. *)
Definition list_getitem {A} (l : list A) (i : Z) : result A :=
  let j := if i <? 0 then i + Z.of_nat (length l) else i in
  if j <? 0 then Raise IndexError
  else match l !! Z.to_nat j with
       | Some x => Ok x
       | None => Raise IndexError
       end.

(** [[f(r) for r in rs]] *)
Fixpoint list_comp {A B} (f : A -> result B) (rs : list A) : result (list B) :=
  match rs with
  | [] => Ok []
  | r :: rs' => y ← f r; ys ← list_comp f rs'; Ok (y :: ys)
  end.

Definition Qsum (l : list Q) : Q := foldr Qplus 0%Q l.

(** [np.mean(l)]; [None] is [nan]. *)
Definition np_mean (l : list Q) : option Q :=
  match l with
  | [] => None
  | _ => Some (Qsum l / inject_Z (Z.of_nat (length l)))%Q
  end.

Record Averages : Type := {
  avg_reward : list (option Q);
  avg_regret : list (option Q);
  avg_ctr_prior : gmap string (list (option Q));
  avg_a : gmap string (option Q);
  avg_b : gmap string (option Q);
}.

Section Averaging.
Variable d : AuctionData.
Variable T R : Z.
Variable all : AllTraces.

(** [avg_ctr_prior[ad].append(np.mean([all_ctr_prior[r][t][ad] ...]))] *)
Definition avg_ctr_prior_step (t : Z) (acc : gmap string (list (option Q)))
    (ad : string) : result (gmap string (list (option Q))) :=
  xs ← list_comp (fun r => tr ← getitem (all_ctr_prior all) r;
                           row ← getitem tr t;
                           getitem row ad) (range R);
  l ← getitem acc ad;
  Ok (<[ad := l ++ [np_mean xs]]> acc).

(** The body of [for t in range(T)]. *)
Definition averaging_round (av : Averages) (t : Z) : result Averages :=
  xs ← list_comp (fun r => l ← getitem (all_reward all) r; list_getitem l t)
                 (range R);
  ys ← list_comp (fun r => l ← getitem (all_regret all) r; list_getitem l t)
                 (range R);
  cp ← for_each (avg_ctr_prior_step t) (ads d) (avg_ctr_prior av);
  Ok {| avg_reward := avg_reward av ++ [np_mean xs];
        avg_regret := avg_regret av ++ [np_mean ys];
        avg_ctr_prior := cp;
        avg_a := avg_a av;
        avg_b := avg_b av |}.

(** The body of the last loop: [avg_a[ad] = ...; avg_b[ad] = ...]. *)
Definition avg_ab_step (av : Averages) (ad : string) : result Averages :=
  xs ← list_comp (fun r => m ← getitem (all_a all) r;
                           v ← getitem m ad; Ok (inject_Z v)) (range R);
  ys ← list_comp (fun r => m ← getitem (all_b all) r;
                           v ← getitem m ad; Ok (inject_Z v)) (range R);
  Ok {| avg_reward := avg_reward av;
        avg_regret := avg_regret av;
        avg_ctr_prior := avg_ctr_prior av;
        avg_a := <[ad := np_mean xs]> (avg_a av);
        avg_b := <[ad := np_mean ys]> (avg_b av) |}.

(** The averaging cell.  [avg_a] and [avg_b] start as [{ad: [] for ad in ads}]
    and every one of these placeholders is overwritten by the last loop, so
    they are built from the empty dictionary here. *)
Definition averaging : result Averages :=
  cp0 ← dict_comp (fun _ => Ok []) (ads d);
  av ← for_each averaging_round (range T)
         {| avg_reward := []; avg_regret := []; avg_ctr_prior := cp0;
            avg_a := ∅; avg_b := ∅ |};
  for_each avg_ab_step (ads d) av.

End Averaging.

(** ** The whole notebook *)

Definition notebook {rng} `{NpRandom rng} (d : AuctionData) (T R : Z)
  : M rng Averages :=
  ev_true ← lift (ev_true_cell d);
  best ← lift (best_cell d ev_true);
  all ← simulation d ev_true best T R;
  lift (averaging d T R all).

(** ** A scripted generator

    The generator state is the list of variates still to be delivered; a
    Beta draw returns the next one as it is, a Bernoulli draw with parameter
    [p] returns [1] when the next one is below [p].  The parameter checks are
    NumPy's. An exhausted script keeps delivering [1/2] and failures. *)

Definition script_beta (a b : Z) (tape : list Q) : result (Q * list Q) :=
  if (a <=? 0) || (b <=? 0) then Raise ValueError
  else match tape with
       | x :: tape' => Ok (x, tape')
       | [] => Ok (1 # 2, [])
       end.

Definition script_binomial1 (p : Q) (tape : list Q) : result (Z * list Q) :=
  if Qgtb 0 p || Qgtb p 1 then Raise ValueError
  else match tape with
       | u :: tape' => Ok (if Qgtb p u then 1 else 0, tape')
       | [] => Ok (0, [])
       end.

#[global] Instance script_random : NpRandom (list Q) := {|
  random_beta := script_beta;
  random_binomial1 := script_binomial1;
|}.

(** ** Notions used by the statements *)

(** Round [t] holds one posterior sample for every advertiser, and every
    advertiser has a bid. *)
Definition sampled (d : AuctionData) (ctr_prior : gmap Z (gmap string Q))
    (t : Z) : Prop :=
  exists row, ctr_prior !! t = Some row
    /\ forall ad, ad ∈ ads d -> is_Some (bid d !! ad) /\ is_Some (row !! ad).

(** Two advertisers [A] and [B] with bids 0.7 and 0.5, and a round 0 whose
    posterior samples are 0.03 and 0.05. *)
Definition two_arms : AuctionData := {|
  ads := ["A"; "B"];
  bid := {[ "A" := 7 # 10; "B" := 5 # 10 ]};
  views := ∅; clicks := ∅; ctr_true := ∅ |}.

Definition two_arms_samples : gmap Z (gmap string Q) :=
  {[ 0 := {[ "A" := 3 # 100; "B" := 5 # 100 ]} ]}.

(** A round 0 in which the posterior sample of advertiser [A] is 0. *)
Definition zero_sample : gmap Z (gmap string Q) :=
  {[ 0 := {[ "A" := 0%Q ]} ]}.

(** The advertiser at position [i] of the registry has an estimated value [v]
    that strictly exceeds both 0 and the estimated values of all earlier
    advertisers. *)
Definition record_setter (d : AuctionData) (ctr_prior : gmap Z (gmap string Q))
    (t : Z) (i : nat) (ad : string) (v : Q) : Prop :=
  ads d !! i = Some ad
  /\ estimated_value d ctr_prior t ad = Ok v
  /\ (0 < v)%Q
  /\ forall (j : nat) ad' v', (j < i)%nat -> ads d !! j = Some ad' ->
       estimated_value d ctr_prior t ad' = Ok v' -> (v' < v)%Q.

(** Feed a sequence of outcomes, one update after the other, to the posterior
    of advertiser [ad]. *)
Definition feed (ad : string) (outcomes : list Z)
    (ab : gmap string Z * gmap string Z)
  : result (gmap string Z * gmap string Z) :=
  for_each (fun ab o => update (fst ab) (snd ab) (Some ad) o) outcomes ab.

(** The number of successes (outcomes equal to 1) of a sequence. *)
Definition successes (outcomes : list Z) : Z :=
  Z.of_nat (count_occ Z.eq_dec outcomes 1).

(** [x] is the true expected value of the oracle advertiser [best] minus the
    true expected value of some advertiser of the registry. *)
Definition is_regret (d : AuctionData) (best : option string) (x : Q) : Prop :=
  exists b arg bb pb ba pa,
    best = Some b /\ b ∈ ads d /\ arg ∈ ads d
    /\ bid d !! b = Some bb /\ ctr_true d !! b = Some pb
    /\ bid d !! arg = Some ba /\ ctr_true d !! arg = Some pa
    /\ x = (bb * pb - ba * pa)%Q.

(** One advertiser that was displayed 10 times and never clicked. *)
Definition zero_clicks : AuctionData := {|
  ads := ["A"];
  bid := {[ "A" := 7 # 10 ]};
  views := {[ "A" := 10 ]};
  clicks := {[ "A" := 0 ]};
  ctr_true := {[ "A" := 25 # 1000 ]} |}.

(** One advertiser whose true click-through rate is 0. *)
Definition never_clicked : AuctionData := {|
  ads := ["A"];
  bid := {[ "A" := 7 # 10 ]};
  views := {[ "A" := 10 ]};
  clicks := {[ "A" := 2 ]};
  ctr_true := {[ "A" := 0%Q ]} |}.

(** One advertiser with a positive true expected value. *)
Definition lone_arm : AuctionData := {|
  ads := ["A"];
  bid := {[ "A" := 7 # 10 ]};
  views := {[ "A" := 10 ]};
  clicks := {[ "A" := 2 ]};
  ctr_true := {[ "A" := 25 # 1000 ]} |}.

(** The true expected values and the best advertiser of the notebook. *)
Definition reference_ev_true : gmap string Q :=
  {[ "crypto_magic" := ((7 # 10) * (25 # 1000))%Q;
     "green_energy" := ((5 # 10) * (12 # 1000))%Q;
     "infini_waves" := ((4 # 10) * (55 # 1000))%Q ]}.

Definition reference_best : option string := Some "infini_waves".

(** A script for two rounds on the tables of the notebook. *)
Definition reference_script : list Q :=
  [3 # 100; 5 # 100; 1 # 100; 1 # 2; 3 # 100; 1 # 100; 9 # 100; 1 # 100]%Q.

(** Every advertiser of the registry has both posterior parameters, and they
    are strictly positive. *)
Definition positive (d : AuctionData) (a b : gmap string Z) : Prop :=
  forall ad, ad ∈ ads d ->
    exists al be, a !! ad = Some al /\ b !! ad = Some be /\ 0 < al /\ 0 < be.

(** Every regret of the list is a difference of true expected values, oracle
    first, and is not negative. *)
Definition regrets_ok (d : AuctionData) (best : option string)
    (regrets : list Q) : Prop :=
  Forall (fun x => is_regret d best x /\ (0 <= x)%Q) regrets.

(** The locals of [TS] on the tables of the notebook, before round 0 of a
    horizon of 2 rounds. *)
Definition reference_start : TSState := {|
  ts_reward := []; ts_regret := [];
  ts_ctr_prior := {[ 0 := ∅; 1 := ∅ ]};
  ts_a := {[ "crypto_magic" := 9; "green_energy" := 3; "infini_waves" := 2 ]};
  ts_b := {[ "crypto_magic" := 291; "green_energy" := 137;
             "infini_waves" := 58 ]} |}.

(** The five dictionaries hold the trace [tr] under the key [r]. *)
Definition trace_at (all : AllTraces) (r : Z) (tr : TSState) : Prop :=
  all_reward all !! r = Some (ts_reward tr)
  /\ all_regret all !! r = Some (ts_regret tr)
  /\ all_ctr_prior all !! r = Some (ts_ctr_prior tr)
  /\ all_a all !! r = Some (ts_a tr)
  /\ all_b all !! r = Some (ts_b tr).

(** Two results are alike: the same exception, or values related by [R]. *)
Definition result_equiv {A} (R : A -> A -> Prop) (x y : result A) : Prop :=
  match x, y with
  | Ok u, Ok v => R u v
  | Raise e, Raise e' => e = e'
  | _, _ => False
  end.

(** Two means are the same number ([nan] only with [nan]). *)
Definition mean_equiv : option Q -> option Q -> Prop := option_Forall2 Qeq.

(** Two dictionaries have the same keys and related values. *)
Definition dict_equiv {V} (R : V -> V -> Prop) (m m' : gmap string V) : Prop :=
  forall ad, option_Forall2 R (m !! ad) (m' !! ad).

(** Two aggregated results hold the same numbers. *)
Definition averages_equiv (u v : Averages) : Prop :=
  Forall2 mean_equiv (avg_reward u) (avg_reward v)
  /\ Forall2 mean_equiv (avg_regret u) (avg_regret v)
  /\ dict_equiv (Forall2 mean_equiv) (avg_ctr_prior u) (avg_ctr_prior v)
  /\ dict_equiv mean_equiv (avg_a u) (avg_a v)
  /\ dict_equiv mean_equiv (avg_b u) (avg_b v).

(** Two traces, of one round each, to be averaged in either order. *)
Definition first_trace : TSState := {|
  ts_reward := [0 # 1]%Q; ts_regret := [16 # 1000]%Q;
  ts_ctr_prior := {[ 0 := {[ "A" := 3 # 100; "B" := 5 # 100 ]} ]};
  ts_a := {[ "A" := 9; "B" := 3 ]};
  ts_b := {[ "A" := 291; "B" := 138 ]} |}.

Definition second_trace : TSState := {|
  ts_reward := [7 # 10]%Q; ts_regret := [0 # 1]%Q;
  ts_ctr_prior := {[ 0 := {[ "A" := 4 # 100; "B" := 1 # 100 ]} ]};
  ts_a := {[ "A" := 10; "B" := 3 ]};
  ts_b := {[ "A" := 291; "B" := 137 ]} |}.

(** One posterior draw for every advertiser of [l], in this order, each from
    the generator state left by the previous one: the advertisers with their
    samples. *)
Fixpoint draw_samples {rng} `{NpRandom rng} (a b : gmap string Z)
    (l : list string) : M rng (list (string * Q)) :=
  match l with
  | [] => mret []
  | ad :: l' =>
      aa ← lift (getitem a ad);
      bb ← lift (getitem b ad);
      x ← random_beta aa bb;
      xs ← draw_samples a b l';
      mret ((ad, x) :: xs)
  end.

(** The row of a round once the samples [xs] have been written into it. *)
Definition fill_row (row : gmap string Q) (xs : list (string * Q))
  : gmap string Q :=
  foldl (fun row adx => <[fst adx := snd adx]> row) row xs.

(** ** Historical click-through rates

    The cell that computes the historical rates divides two integers, so it
    may raise [ZeroDivisionError] besides [KeyError].  The quotient of two
    integers is a float. *)

Inductive hist_result (A : Type) : Type :=
| HistOk (x : A)
| HistRaise (e : exn)
| ZeroDivisionError.

Arguments HistOk {A} x.
Arguments HistRaise {A} e.
Arguments ZeroDivisionError {A}.

(** [clicks[ad]/views[ad]] *)
Definition hist_rate (d : AuctionData) (ad : string) : hist_result Q :=
  match clicks d !! ad with
  | None => HistRaise KeyError
  | Some c =>
      match views d !! ad with
      | None => HistRaise KeyError
      | Some v =>
          if v =? 0 then ZeroDivisionError
          else HistOk (inject_Z c / inject_Z v)%Q
      end
  end.

Fixpoint ctr_hist_loop (d : AuctionData) (l : list string)
    (acc : gmap string Q) : hist_result (gmap string Q) :=
  match l with
  | [] => HistOk acc
  | ad :: l' =>
      match hist_rate d ad with
      | HistOk x => ctr_hist_loop d l' (<[ad := x]> acc)
      | HistRaise e => HistRaise e
      | ZeroDivisionError => ZeroDivisionError
      end
  end.

(** [ctr_hist = {ad:clicks[ad]/views[ad] for ad in ads}] *)
Definition ctr_hist_cell (d : AuctionData) : hist_result (gmap string Q) :=
  ctr_hist_loop d (ads d) ∅.

(** [ev_hist = {ad:bid[ad]*ctr_hist[ad] for ad in ads}] *)
Definition ev_hist_cell (d : AuctionData) (ctr_hist : gmap string Q)
  : result (gmap string Q) :=
  dict_comp (fun ad => b ← getitem (bid d) ad;
                       h ← getitem ctr_hist ad;
                       Ok (b * h)%Q) (ads d).

(** ** Notions used by the further properties *)

(** The keys of [m] are exactly the advertisers of the registry. *)
Definition keys_are_ads {V} (d : AuctionData) (m : gmap string V) : Prop :=
  forall ad, is_Some (m !! ad) <-> ad ∈ ads d.

(** The rows of [ctr_prior] once [n] rounds of a horizon [T] have run: one
    row per round of the horizon, filled with one sample per advertiser for
    the rounds already run, still empty for the others. *)
Definition rows_upto (d : AuctionData) (T : Z) (n : nat)
    (ctr_prior : gmap Z (gmap string Q)) : Prop :=
  forall t : Z,
    (0 <= t < T ->
       exists row, ctr_prior !! t = Some row
         /\ (t < Z.of_nat n -> keys_are_ads d row)
         /\ (Z.of_nat n <= t -> row = ∅))
    /\ (~ 0 <= t < T -> ctr_prior !! t = None).

(** A complete trace of [T] rounds. *)
Definition trace_ok (d : AuctionData) (T : Z) (tr : TSState) : Prop :=
  length (ts_reward tr) = Z.to_nat T
  /\ length (ts_regret tr) = Z.to_nat T
  /\ rows_upto d T (Z.to_nat T) (ts_ctr_prior tr)
  /\ keys_are_ads d (ts_a tr)
  /\ keys_are_ads d (ts_b tr).

(** The sum of the values of a dictionary of counts. *)
Definition total (m : gmap string Z) : Z :=
  map_fold (fun _ v acc => v + acc) 0 m.

(** What a trace holds at one place: the reward and the regret of round [t],
    the posterior sample of advertiser [ad] in round [t], and the final
    parameters of advertiser [ad]. *)
Definition reward_at (t : nat) (tr : TSState) : option Q := ts_reward tr !! t.

Definition regret_at (t : nat) (tr : TSState) : option Q := ts_regret tr !! t.

Definition sample_at (t : nat) (ad : string) (tr : TSState) : option Q :=
  match ts_ctr_prior tr !! Z.of_nat t with
  | Some row => row !! ad
  | None => None
  end.

Definition a_at (ad : string) (tr : TSState) : option Q :=
  match ts_a tr !! ad with
  | Some v => Some (inject_Z v)
  | None => None
  end.

Definition b_at (ad : string) (tr : TSState) : option Q :=
  match ts_b tr !! ad with
  | Some v => Some (inject_Z v)
  | None => None
  end.

(** [m] is [np.mean] of the values that the traces hold at the place [f], in
    the order of the traces. *)
Definition mean_of (f : TSState -> option Q) (trs : list TSState)
    (m : option Q) : Prop :=
  exists xs, Forall2 (fun tr x => f tr = Some x) trs xs /\ m = np_mean xs.

(** The per-round part of the aggregated result after [n] rounds of the
    averaging loop: [n] mean rewards, [n] mean regrets and, for every
    advertiser, [n] mean posterior samples, each the mean over the traces
    [trs] of the values of its round. *)
Definition rounds_averaged (d : AuctionData) (n : nat) (trs : list TSState)
    (av : Averages) : Prop :=
  length (avg_reward av) = n
  /\ length (avg_regret av) = n
  /\ (forall t m, avg_reward av !! t = Some m -> mean_of (reward_at t) trs m)
  /\ (forall t m, avg_regret av !! t = Some m -> mean_of (regret_at t) trs m)
  /\ keys_are_ads d (avg_ctr_prior av)
  /\ (forall ad l, avg_ctr_prior av !! ad = Some l ->
        length l = n
        /\ forall t m, l !! t = Some m -> mean_of (sample_at t ad) trs m).

(** The final part: for every advertiser, the means over the traces of its
    final [a] and [b]. *)
Definition finals_averaged (d : AuctionData) (trs : list TSState)
    (av : Averages) : Prop :=
  keys_are_ads d (avg_a av)
  /\ keys_are_ads d (avg_b av)
  /\ (forall ad m, avg_a av !! ad = Some m -> mean_of (a_at ad) trs m)
  /\ (forall ad m, avg_b av !! ad = Some m -> mean_of (b_at ad) trs m).

(** The keys of [m] are exactly [0 .. R-1]. *)
Definition keys_upto {V} (R : Z) (m : gmap Z V) : Prop :=
  forall r, is_Some (m !! r) <-> 0 <= r < R.

(** A mean is a number that is not negative, or [nan]. *)
Definition mean_nonneg (m : option Q) : Prop :=
  match m with
  | Some x => (0 <= x)%Q
  | None => True
  end.

(** The number of rewards that are not zero. *)
Definition nonzero_rewards (rewards : list Q) : Z :=
  Z.of_nat (length (List.filter (fun r => negb (Qeq_bool r 0)) rewards)).

(** NumPy's check of the parameters of a Beta draw: the draw is made exactly
    when both parameters are strictly positive, and [ValueError] is raised
    otherwise. *)
Definition beta_checked {rng} `{NpRandom rng} : Prop :=
  (forall a b (g : rng), a <= 0 \/ b <= 0 ->
     random_beta a b g = Raise ValueError)
  /\ (forall a b (g : rng), 0 < a -> 0 < b ->
        exists x g', random_beta a b g = Ok (x, g')).

(** A Bernoulli draw returns 0 or 1. *)
Definition bernoulli_draws {rng} `{NpRandom rng} : Prop :=
  forall p (g : rng) click g',
    random_binomial1 p g = Ok (click, g') -> click = 0 \/ click = 1.

(** A Beta draw that is made returns a strictly positive sample. *)
Definition beta_positive {rng} `{NpRandom rng} : Prop :=
  forall a b (g : rng) x g', random_beta a b g = Ok (x, g') -> (0 < x)%Q.

(** A Bernoulli draw with a parameter in [0, 1] is made. *)
Definition binomial_total {rng} `{NpRandom rng} : Prop :=
  forall p (g : rng), (0 <= p)%Q -> (p <= 1)%Q ->
    exists click g', random_binomial1 p g = Ok (click, g').

(** Every sample of a row is strictly positive. *)
Definition row_positive (row : gmap string Q) : Prop :=
  forall ad x, row !! ad = Some x -> (0 < x)%Q.

(** The tables are complete and in range: every advertiser of the registry
    has a strictly positive bid, a true click-through rate in [0, 1], at
    least one historical click and at least one historical view without a
    click. *)
Definition well_formed (d : AuctionData) : Prop :=
  forall ad, ad ∈ ads d ->
    exists bd p c v,
      bid d !! ad = Some bd /\ ctr_true d !! ad = Some p
      /\ clicks d !! ad = Some c /\ views d !! ad = Some v
      /\ (0 < bd)%Q /\ (0 <= p)%Q /\ (p <= 1)%Q /\ 0 < c < v.

(** A generator without state: every Beta draw returns 1/2 and every
    Bernoulli draw returns 0, under NumPy's parameter checks. *)
Definition steady_beta (a b : Z) (g : unit) : result (Q * unit) :=
  if (a <=? 0) || (b <=? 0) then Raise ValueError else Ok (1 # 2, g).

Definition steady_binomial1 (p : Q) (g : unit) : result (Z * unit) :=
  if Qgtb 0 p || Qgtb p 1 then Raise ValueError else Ok (0, g).

#[global] Instance steady_random : NpRandom unit := {|
  random_beta := steady_beta;
  random_binomial1 := steady_binomial1;
|}.

(** ** The sentiment notebook

    The cells of [Sentiment_Analysis_using_NLP.ipynb] that are written in the
    notebook itself: the count of the reviews, the feature extractor and the
    split into a training and a test set.  The corpus, the word list and the
    classifier belong to NLTK. *)

Module Sentiment.

(** The pair [(p, n)] after
    [for (d,c) in documents: if c == 'pos': p += 1  else: n += 1]. *)
Definition count_reviews {D} (documents : list (D * string)) : Z * Z :=
  foldl (fun pn dc => if decide (snd dc = "pos")
                      then (fst pn + 1, snd pn)
                      else (fst pn, snd pn + 1))
        (0, 0) documents.

(** ['contains({})'.format(word)] *)
Definition feature_name (word : string) : string :=
  "contains(" +:+ word +:+ ")".

(** [document_features(document)], the global [word_features] being a
    parameter; a word is in [set(document)] when it is in the list. *)
Definition document_features (word_features document : list string)
  : gmap string bool :=
  foldl (fun features word =>
           <[feature_name word := bool_decide (word ∈ document)]> features)
        ∅ word_features.

(** [[(document_features(d), c) for (d,c) in documents]] *)
Definition featuresets (word_features : list string)
    (documents : list (list string * string))
  : list (gmap string bool * string) :=
  map (fun dc => (document_features word_features (fst dc), snd dc)) documents.

(** The position at which a slice bound [x] cuts a list: a negative bound
    counts from the end, and any bound is clipped to the list. *)
Definition slice_bound {A} (l : list A) (x : Z) : nat :=
  Z.to_nat (if x <? 0 then Z.max 0 (Z.of_nat (length l) + x)
            else Z.min x (Z.of_nat (length l))).

(** [l[x:]] and [l[:x]] *)
Definition slice_from {A} (l : list A) (x : Z) : list A :=
  drop (slice_bound l x) l.

Definition slice_to {A} (l : list A) (x : Z) : list A :=
  take (slice_bound l x) l.

(** [train_set, test_set = featuresets[x:], featuresets[:x]] *)
Definition split_sets {A} (x : Z) (fs : list A) : list A * list A :=
  (slice_from fs x, slice_to fs x).

End Sentiment.

(** * Properties *)

(** ** Exceptions, loops and dictionaries *)

Lemma bind_Ok {A B} (m : result A) (k : A -> result B) (y : B) :
  m ≫= k = Ok y <-> exists x, m = Ok x /\ k x = Ok y.
Proof.
  destruct m as [x|e]; simpl; split.
  - intros Hk. exists x. auto.
  - intros (x' & Hx & Hk). congruence.
  - discriminate.
  - intros (x' & Hx & _). discriminate.
Qed.

Lemma M_bind_Ok {rng A B} (m : M rng A) (k : A -> M rng B) g y g' :
  (m ≫= k) g = Ok (y, g') <-> exists x g1, m g = Ok (x, g1) /\ k x g1 = Ok (y, g').
Proof.
  unfold mbind, M_bind. destruct (m g) as [[x g1]|e]; split.
  - intros Hk. exists x, g1. auto.
  - intros (x' & g2 & Hx & Hk). congruence.
  - discriminate.
  - intros (x' & g2 & Hx & _). discriminate.
Qed.

Lemma M_bind_assoc {rng A B C} (m : M rng A) (k : A -> M rng B)
    (h : B -> M rng C) g :
  ((m ≫= k) ≫= h) g = (m ≫= fun x => k x ≫= h) g.
Proof. unfold mbind, M_bind. by destruct (m g) as [[x g1]|e]. Qed.

Lemma M_bind_ext {rng A B} (m : M rng A) (k k' : A -> M rng B) g :
  (forall x g1, k x g1 = k' x g1) -> (m ≫= k) g = (m ≫= k') g.
Proof. intros Hk. unfold mbind, M_bind. by destruct (m g) as [[x g1]|e]. Qed.

Lemma M_bind_mret {rng A} (m : M rng A) g : (m ≫= mret) g = m g.
Proof. unfold mbind, M_bind. by destruct (m g) as [[x g1]|e]. Qed.

Lemma lift_Ok {rng A} (m : result A) (g : rng) x g' :
  lift m g = Ok (x, g') <-> m = Ok x /\ g' = g.
Proof.
  unfold lift. destruct m; split; intros Hm.
  - split; congruence.
  - destruct Hm; congruence.
  - discriminate.
  - destruct Hm; discriminate.
Qed.

Lemma getitem_Ok {K} `{Countable K} {V} (m : gmap K V) k v :
  getitem m k = Ok v <-> m !! k = Some v.
Proof.
  unfold getitem. destruct (m !! k); split; intros Hm; congruence.
Qed.

Lemma getitem_opt_Ok {V} (m : gmap string V) arg v :
  getitem_opt m arg = Ok v <-> exists ad, arg = Some ad /\ m !! ad = Some v.
Proof.
  destruct arg as [ad|]; simpl; split.
  - intros Hm. exists ad. split; [done|]. by apply getitem_Ok.
  - intros (ad' & [= <-] & Hm). by apply getitem_Ok.
  - discriminate.
  - intros (ad' & Hn & _). discriminate.
Qed.

Lemma for_each_app {A S} (body : S -> A -> result S) xs ys st :
  for_each body (xs ++ ys) st = for_each body xs st ≫= for_each body ys.
Proof.
  revert st. induction xs as [|x xs IH]; intros st; simpl; [done|].
  destruct (body st x); simpl; auto.
Qed.

Lemma for_each_M_app {rng A S} (body : S -> A -> M rng S) xs ys st g :
  for_each_M body (xs ++ ys) st g
  = (for_each_M body xs st ≫= for_each_M body ys) g.
Proof.
  revert st g. induction xs as [|x xs IH]; intros st g; simpl; [done|].
  unfold mbind, M_bind in *. destruct (body st x g) as [[st1 g1]|e]; auto.
Qed.

(** A loop invariant carries over a loop that does not raise. *)
Lemma for_each_invariant {A S} (body : S -> A -> result S) (P : S -> Prop) xs :
  (forall st x st', x ∈ xs -> P st -> body st x = Ok st' -> P st') ->
  forall st st', P st -> for_each body xs st = Ok st' -> P st'.
Proof.
  induction xs as [|x xs IH]; intros Hstep st st' Hst Hrun; simpl in Hrun.
  - by injection Hrun as <-.
  - apply bind_Ok in Hrun. destruct Hrun as (st1 & Hx & Hrun).
    eapply IH; [|eapply Hstep; [|exact Hst|exact Hx]|exact Hrun].
    + intros st2 y st2' Hy. apply Hstep. by right.
    + by left.
Qed.

Lemma for_each_M_invariant {rng A S} (body : S -> A -> M rng S)
    (P : S -> Prop) xs :
  (forall st x g st' g', x ∈ xs -> P st -> body st x g = Ok (st', g') -> P st') ->
  forall st g st' g', P st -> for_each_M body xs st g = Ok (st', g') -> P st'.
Proof.
  induction xs as [|x xs IH]; intros Hstep st g st' g' Hst Hrun; simpl in Hrun.
  - by injection Hrun as <- _.
  - apply M_bind_Ok in Hrun. destruct Hrun as (st1 & g1 & Hx & Hrun).
    eapply IH; [|eapply Hstep; [|exact Hst|exact Hx]|exact Hrun].
    + intros st2 y g2 st2' g2' Hy. apply Hstep. by right.
    + by left.
Qed.

(** What a dictionary comprehension builds, starting from [acc]. *)
Lemma dict_loop_lookup {K} `{Countable K} {V} (f : K -> result V) keys :
  forall acc m : gmap K V,
  for_each (fun d k => v ← f k; Ok (<[k:=v]> d)) keys acc = Ok m ->
  forall k, (k ∈ keys -> exists v, f k = Ok v /\ m !! k = Some v)
         /\ (k ∉ keys -> m !! k = acc !! k).
Proof.
  induction keys as [|k0 keys IH]; intros acc m Hrun k; simpl in Hrun.
  - injection Hrun as <-. split; [|done]. intros Hk. by apply elem_of_nil in Hk.
  - apply bind_Ok in Hrun. destruct Hrun as (acc1 & Hk0 & Hrun).
    apply bind_Ok in Hk0. destruct Hk0 as (v0 & Hf & [= <-]).
    destruct (IH _ _ Hrun k) as [Hin Hout].
    destruct (decide (k ∈ keys)) as [Hk|Hk].
    + split; [auto|]. intros Hn. exfalso. apply Hn. by right.
    + split.
      * intros [->|Hk']%elem_of_cons; [|done].
        exists v0. split; [done|]. rewrite (Hout Hk). apply lookup_insert_eq.
      * intros Hn. rewrite (Hout Hk). apply lookup_insert_ne.
        intros ->. apply Hn. by left.
Qed.

Lemma dict_comp_lookup {K} `{Countable K} {V} (f : K -> result V) keys m k :
  dict_comp f keys = Ok m -> k ∈ keys -> exists v, f k = Ok v /\ m !! k = Some v.
Proof.
  intros Hrun Hk. by apply (dict_loop_lookup f keys ∅ m Hrun k).
Qed.

Lemma dict_comp_total {K} `{Countable K} {V} (f : K -> result V) keys :
  (forall k, k ∈ keys -> exists v, f k = Ok v) ->
  exists m, dict_comp f keys = Ok m.
Proof.
  unfold dict_comp. generalize (∅ : gmap K V).
  induction keys as [|k keys IH]; intros acc Hf; simpl.
  - by exists acc.
  - destruct (Hf k) as [v Hv]; [by left|]. rewrite Hv. simpl.
    apply IH. intros k' Hk'. apply Hf. by right.
Qed.

(** ** Initialization *)

Lemma initialization_lookup d a b ad :
  initialization d = Ok (a, b) -> ad ∈ ads d ->
  exists c v, clicks d !! ad = Some c /\ views d !! ad = Some v
              /\ a !! ad = Some c /\ b !! ad = Some (v - c).
Proof.
  unfold initialization. intros Hrun Had.
  apply bind_Ok in Hrun. destruct Hrun as (a' & Ha & Hrun).
  apply bind_Ok in Hrun. destruct Hrun as (b' & Hb & [= <- <-]).
  destruct (dict_comp_lookup _ _ _ _ Ha Had) as (c & Hc & Hac).
  destruct (dict_comp_lookup _ _ _ _ Hb Had) as (x & Hx & Hbx).
  apply getitem_Ok in Hc.
  apply bind_Ok in Hx. destruct Hx as (v & Hv & Hx).
  apply bind_Ok in Hx. destruct Hx as (c' & Hc' & [= <-]).
  apply getitem_Ok in Hv, Hc'. assert (c' = c) as -> by congruence.
  exists c, v. by rewrite Hac, Hbx.
Qed.

Lemma initialization_total d :
  (forall ad, ad ∈ ads d -> is_Some (clicks d !! ad) /\ is_Some (views d !! ad)) ->
  exists a b, initialization d = Ok (a, b).
Proof.
  intros Hkeys. unfold initialization.
  destruct (dict_comp_total (getitem (clicks d)) (ads d)) as [a Ha].
  { intros ad Had. destruct (Hkeys ad Had) as [[c Hc] _].
    exists c. by apply getitem_Ok. }
  destruct (dict_comp_total
    (fun ad => v ← getitem (views d) ad; c ← getitem (clicks d) ad; Ok (v - c))
    (ads d)) as [b Hb].
  { intros ad Had. destruct (Hkeys ad Had) as [[c Hc] [v Hv]].
    exists (v - c). unfold getitem. by rewrite Hv, Hc. }
  exists a, b. by rewrite Ha, Hb.
Qed.

(** C1 (as the code has it): with the historical counts present for every
    advertiser, [initialization] returns, for every advertiser, [a] equal to
    its historical clicks and [b] equal to its historical views minus its
    historical clicks, with no pseudo-count added; on the tables of the
    notebook this is [a = 9] and [b = 291] for [crypto_magic]. *)
Theorem initialization_counts (d : AuctionData)
    (Hkeys : forall ad, ad ∈ ads d ->
               is_Some (clicks d !! ad) /\ is_Some (views d !! ad)) :
  exists a b, initialization d = Ok (a, b)
    /\ (forall ad c v, ad ∈ ads d -> clicks d !! ad = Some c ->
          views d !! ad = Some v ->
          a !! ad = Some c /\ b !! ad = Some (v - c))
    /\ (d = reference ->
          a !! "crypto_magic" = Some 9 /\ b !! "crypto_magic" = Some 291).
Proof.
  destruct (initialization_total d Hkeys) as (a & b & Hinit).
  exists a, b. split; [done|]. split.
  - intros ad c v Had Hc Hv.
    destruct (initialization_lookup _ _ _ _ Hinit Had) as (c' & v' & ? & ? & ? & ?).
    split; congruence.
  - intros ->.
    destruct (initialization_lookup _ _ _ "crypto_magic" Hinit)
      as (c' & v' & Hc & Hv & Ha & Hb).
    { simpl. by left. }
    vm_compute in Hc, Hv. injection Hc as <-. injection Hv as <-. done.
Qed.

Lemma initialization_counts_witness :
  exists a b, initialization reference = Ok (a, b)
    /\ (forall ad c v, ad ∈ ads reference -> clicks reference !! ad = Some c ->
          views reference !! ad = Some v ->
          a !! ad = Some c /\ b !! ad = Some (v - c))
    /\ (reference = reference ->
          a !! "crypto_magic" = Some 9 /\ b !! "crypto_magic" = Some 291).
Proof.
  apply (initialization_counts reference).
  intros ad Had. simpl in Had.
  apply elem_of_cons in Had as [->|Had];
    [|apply elem_of_cons in Had as [->|Had];
       [|apply elem_of_cons in Had as [->|Had];
          [|by apply elem_of_nil in Had]]];
    split; eexists; vm_compute; reflexivity.
Defined.

(** C1 as stated fails: on the tables of the notebook the initialized
    posterior of [crypto_magic] is [a = 9], [b = 291], not 10 and 292. *)
Lemma initialization_reference_no_pseudo_count :
  exists a b, initialization reference = Ok (a, b)
    /\ a !! "crypto_magic" = Some 9 /\ b !! "crypto_magic" = Some 291
    /\ a !! "crypto_magic" <> Some (9 + 1)
    /\ b !! "crypto_magic" <> Some (300 - 9 + 1).
Proof.
  eexists _, _. split; [vm_compute; reflexivity|].
  repeat split; vm_compute; congruence.
Qed.

(** ** The arg-max loops *)

Lemma Qgtb_true x y : Qgtb x y = true <-> (y < x)%Q.
Proof.
  unfold Qgtb. rewrite Qgt_alt. destruct (x ?= y)%Q; split; congruence.
Qed.

Lemma Qgtb_false x y : Qgtb x y = false <-> (x <= y)%Q.
Proof.
  unfold Qgtb. rewrite Qle_alt.
  destruct (x ?= y)%Q; split; intros Hc; congruence.
Qed.

(** The state of an arg-max loop after the list [l], started from
    [(arg0, val0)]: either nothing beat [val0], or the result is the first
    position of [l] holding the largest value. *)
Lemma scan_loop_spec (value : string -> result Q) l :
  forall arg0 val0 arg val,
  for_each (scan_step value) l (arg0, val0) = Ok (arg, val) ->
  (forall ad v, ad ∈ l -> value ad = Ok v -> (v <= val)%Q)
  /\ ((arg = arg0 /\ val = val0)
      \/ (exists (i : nat) ad, l !! i = Some ad /\ arg = Some ad
            /\ value ad = Ok val /\ (val0 < val)%Q
            /\ forall (j : nat) ad' v', (j < i)%nat -> l !! j = Some ad' ->
                 value ad' = Ok v' -> (v' < val)%Q)).
Proof.
  induction l as [|x l IH]; intros arg0 val0 arg val Hrun; simpl in Hrun.
  - injection Hrun as <- <-. split; [|by left].
    intros ad v Had. by apply elem_of_nil in Had.
  - apply bind_Ok in Hrun. destruct Hrun as ([arg1 val1] & Hx & Hrun).
    unfold scan_step in Hx. apply bind_Ok in Hx.
    destruct Hx as (vx & Hvx & Hx). simpl in Hx.
    destruct (IH _ _ _ _ Hrun) as [Hmax Hcase].
    destruct (Qgtb vx val0) eqn:Hcmp; injection Hx as <- <-.
    + apply Qgtb_true in Hcmp.
      assert (Hle : (vx <= val)%Q).
      { destruct Hcase as [[_ ->]|(i & ad & _ & _ & _ & Hlt & _)];
          [apply Qle_refl | by apply Qlt_le_weak]. }
      split.
      * intros ad v [->|Had]%elem_of_cons Hv; [congruence | eauto].
      * right. destruct Hcase as [[-> ->]|(i & ad & Hi & -> & Hv & Hlt & Hbefore)].
        -- exists 0%nat, x. repeat split; auto. intros j ad' v' Hj. lia.
        -- exists (S i), ad. repeat split; auto.
           { by apply Qlt_trans with vx. }
           intros [|j] ad' v' Hj Hl Hv'; simpl in Hl.
           ++ injection Hl as <-. congruence.
           ++ eapply Hbefore; eauto. lia.
    + apply Qgtb_false in Hcmp. split.
      * intros ad v [->|Had]%elem_of_cons Hv; [|eauto].
        assert (v = vx) as -> by congruence.
        apply Qle_trans with val0; [done|].
        destruct Hcase as [[_ ->]|(i & ad & _ & _ & _ & Hlt & _)];
          [apply Qle_refl | by apply Qlt_le_weak].
      * destruct Hcase as [?|(i & ad & Hi & -> & Hv & Hlt & Hbefore)]; [by left|].
        right. exists (S i), ad. repeat split; auto.
        intros [|j] ad' v' Hj Hl Hv'; simpl in Hl.
        -- injection Hl as <-. assert (v' = vx) as -> by congruence.
           by apply Qle_lt_trans with val0.
        -- eapply Hbefore; eauto. lia.
Qed.

Lemma scan_total (value : string -> result Q) l :
  (forall ad, ad ∈ l -> exists v, value ad = Ok v) ->
  exists res, scan value l = Ok res.
Proof.
  unfold scan. generalize (None : option string, 0%Q).
  induction l as [|x l IH]; intros st Hval; simpl.
  - by exists st.
  - destruct (Hval x) as [v Hv]; [by left|].
    assert (Hx : scan_step value st x
                 = Ok (if Qgtb v st.2 then (Some x, v) else st)).
    { unfold scan_step. rewrite Hv. simpl. by destruct (Qgtb v st.2). }
    rewrite Hx. simpl. apply IH. intros ad Had. apply Hval. by right.
Qed.

(** The result of a whole arg-max loop. *)
Lemma scan_spec (value : string -> result Q) l arg val :
  scan value l = Ok (arg, val) ->
  (forall ad v, ad ∈ l -> value ad = Ok v -> (v <= val)%Q)
  /\ match arg with
     | None => val = 0%Q
     | Some ad =>
         exists i : nat, l !! i = Some ad /\ value ad = Ok val /\ (0 < val)%Q
           /\ forall (j : nat) ad' v', (j < i)%nat -> l !! j = Some ad' ->
                value ad' = Ok v' -> (v' < val)%Q
     end.
Proof.
  intros Hrun. destruct (scan_loop_spec _ _ _ _ _ _ Hrun) as [Hmax Hcase].
  split; [done|].
  destruct Hcase as [[-> ->]|(i & ad & Hi & -> & Hv & Hlt & Hbefore)]; [done|].
  exists i. auto.
Qed.

Lemma scan_Some_elem (value : string -> result Q) l ad val :
  scan value l = Ok (Some ad, val) -> ad ∈ l /\ value ad = Ok val.
Proof.
  intros Hrun. destruct (scan_spec _ _ _ _ Hrun) as [_ (i & Hi & Hv & _)].
  split; [|done]. apply list_elem_of_lookup. eauto.
Qed.

Lemma estimated_value_total d ctr_prior t ad :
  sampled d ctr_prior t -> ad ∈ ads d ->
  exists bd row s, bid d !! ad = Some bd /\ ctr_prior !! t = Some row
    /\ row !! ad = Some s
    /\ estimated_value d ctr_prior t ad = Ok (bd * s)%Q.
Proof.
  intros (row & Hrow & Hkeys) Had.
  destruct (Hkeys ad Had) as [[bd Hbd] [s Hs]].
  exists bd, row, s. repeat split; auto.
  unfold estimated_value, getitem.
  rewrite Hbd. simpl. rewrite Hrow. simpl. by rewrite Hs.
Qed.

(** ** Action selection *)

Lemma select_action_total d ctr_prior t :
  sampled d ctr_prior t -> exists res, select_action d ctr_prior t = Ok res.
Proof.
  intros Hs. apply scan_total. intros ad Had.
  destruct (estimated_value_total _ _ _ _ Hs Had) as (bd & row & s & _ & _ & _ & Hv).
  eauto.
Qed.

Lemma select_action_None_round `{NpRandom rng} d ev_true best st t
    (g g1 : rng) ctr_prior val :
  sample_posteriors d t (ts_a st) (ts_b st) (ts_ctr_prior st) g
    = Ok (ctr_prior, g1) ->
  select_action d ctr_prior t = Ok (None, val) ->
  TS_round d ev_true best st t g = Raise KeyError.
Proof.
  intros Hsample Hsel. unfold TS_round, mbind, M_bind.
  rewrite Hsample. unfold lift. by rewrite Hsel.
Qed.

(** When round [t] holds one posterior sample per advertiser and at least one
    product [bid * sample] is strictly positive, the selection returns an
    advertiser of the registry whose product is the largest; for A (bid 0.7,
    sample 0.03) and B (bid 0.5, sample 0.05) it returns B, with value
    0.025. *)
Lemma select_action_argmax :
  (forall d ctr_prior t,
     sampled d ctr_prior t ->
     (exists ad v, ad ∈ ads d /\ estimated_value d ctr_prior t ad = Ok v
                   /\ (0 < v)%Q) ->
     exists arg val,
       select_action d ctr_prior t = Ok (Some arg, val)
       /\ arg ∈ ads d
       /\ estimated_value d ctr_prior t arg = Ok val
       /\ forall ad v, ad ∈ ads d -> estimated_value d ctr_prior t ad = Ok v ->
            (v <= val)%Q)
  /\ select_action two_arms two_arms_samples 0 = Ok (Some "B", 25 # 1000).
Proof.
  split; [|vm_compute; reflexivity].
  intros d ctr_prior t Hs (ad0 & v0 & Had0 & Hv0 & Hpos).
  destruct (select_action_total _ _ _ Hs) as [[arg val] Hsel].
  destruct (scan_spec _ _ _ _ Hsel) as [Hmax Harg].
  destruct arg as [arg|].
  - exists arg, val. destruct (scan_Some_elem _ _ _ _ Hsel) as [Hin Hval]. auto.
  - exfalso. subst val. specialize (Hmax _ _ Had0 Hv0).
    apply (Qlt_irrefl 0). by apply Qlt_le_trans with v0.
Qed.

Lemma select_action_argmax_witness :
  exists arg val,
    select_action two_arms two_arms_samples 0 = Ok (Some arg, val)
    /\ arg ∈ ads two_arms
    /\ estimated_value two_arms two_arms_samples 0 arg = Ok val
    /\ forall ad v, ad ∈ ads two_arms ->
         estimated_value two_arms two_arms_samples 0 ad = Ok v -> (v <= val)%Q.
Proof.
  apply (proj1 select_action_argmax two_arms two_arms_samples 0).
  - exists {[ "A" := 3 # 100; "B" := 5 # 100 ]}%Q. split; [reflexivity|].
    intros ad Had. simpl in Had.
    apply elem_of_cons in Had as [->|Had];
      [|apply elem_of_cons in Had as [->|Had];
         [|by apply elem_of_nil in Had]];
      split; eexists; vm_compute; reflexivity.
  - exists "A", (21 # 1000)%Q. split; [by left|]. split; vm_compute; reflexivity.
Defined.

(** C3: the selection is meant to return the advertiser maximizing
    [bid * sample] for every non-empty registry and every vector of samples.
    The code misses the case where no product exceeds the initial threshold
    0.0: on the registry of the single advertiser A (bid 0.7) with the
    posterior sample 0, where A maximizes the product, the loop leaves
    [arg = None], and a run whose first posterior draw is 0 raises
    [KeyError]. *)
Theorem select_action_zero_sample :
  ads lone_arm = ["A"]
  /\ estimated_value lone_arm zero_sample 0 "A" = Ok ((7 # 10) * 0)%Q
  /\ select_action lone_arm zero_sample 0 = Ok (None, 0%Q)
  /\ TS lone_arm {[ "A" := ((7 # 10) * (25 # 1000))%Q ]} (Some "A") 1
        [0; 1 # 2]%Q = Raise KeyError.
Proof.
  repeat split; vm_compute; reflexivity.
Qed.

(** C10 (as the code has it): with one posterior sample per advertiser, the
    selection returns the LAST position of the registry whose product
    [bid * sample] strictly exceeds both 0 and the products of all earlier
    positions; this is the earliest advertiser attaining the largest product
    (ties go to the earliest), and it carries that product as [val].  When
    every product is at most 0 the selection yields [None], and then the
    round raises [KeyError]. *)
Theorem select_action_last_record_setter :
  (forall d ctr_prior t,
     sampled d ctr_prior t ->
     exists arg val,
       select_action d ctr_prior t = Ok (arg, val)
       /\ (forall ad v, ad ∈ ads d ->
             estimated_value d ctr_prior t ad = Ok v -> (v <= val)%Q)
       /\ match arg with
          | Some ad =>
              exists i : nat,
                record_setter d ctr_prior t i ad val
                /\ forall (i' : nat) ad' v', (i < i')%nat ->
                     ~ record_setter d ctr_prior t i' ad' v'
          | None =>
              val = 0%Q
              /\ forall ad v, ad ∈ ads d ->
                   estimated_value d ctr_prior t ad = Ok v -> (v <= 0)%Q
          end)
  /\ (forall rng (G : NpRandom rng) d ev_true best st t (g g1 : rng)
             ctr_prior val,
        sample_posteriors d t (ts_a st) (ts_b st) (ts_ctr_prior st) g
          = Ok (ctr_prior, g1) ->
        select_action d ctr_prior t = Ok (None, val) ->
        TS_round d ev_true best st t g = Raise KeyError).
Proof.
  split; [|intros; by eapply select_action_None_round].
  intros d ctr_prior t Hs.
  destruct (select_action_total _ _ _ Hs) as [[arg val] Hsel].
  exists arg, val. split; [done|].
  destruct (scan_spec _ _ _ _ Hsel) as [Hmax Harg].
  split; [done|]. destruct arg as [ad|].
  - destruct Harg as (i & Hi & Hv & Hpos & Hbefore).
    exists i. split; [by repeat split|].
    intros i' ad' v' Hlt (Hi' & Hv' & _ & Hbefore').
    assert (Hin : ad' ∈ ads d) by (apply list_elem_of_lookup; eauto).
    specialize (Hmax _ _ Hin Hv'). specialize (Hbefore' _ _ _ Hlt Hi Hv).
    apply (Qlt_irrefl val). by apply Qlt_le_trans with v'.
  - subst val. auto.
Qed.

Lemma select_action_last_record_setter_witness :
  exists arg val,
    select_action two_arms two_arms_samples 0 = Ok (arg, val)
    /\ (forall ad v, ad ∈ ads two_arms ->
          estimated_value two_arms two_arms_samples 0 ad = Ok v -> (v <= val)%Q)
    /\ match arg with
       | Some ad =>
           exists i : nat,
             record_setter two_arms two_arms_samples 0 i ad val
             /\ forall (i' : nat) ad' v', (i < i')%nat ->
                  ~ record_setter two_arms two_arms_samples 0 i' ad' v'
       | None =>
           val = 0%Q
           /\ forall ad v, ad ∈ ads two_arms ->
                estimated_value two_arms two_arms_samples 0 ad = Ok v ->
                (v <= 0)%Q
       end.
Proof.
  apply (proj1 select_action_last_record_setter two_arms two_arms_samples 0).
  exists {[ "A" := 3 # 100; "B" := 5 # 100 ]}%Q. split; [reflexivity|].
  intros ad Had. simpl in Had.
  apply elem_of_cons in Had as [->|Had];
    [|apply elem_of_cons in Had as [->|Had];
       [|by apply elem_of_nil in Had]];
    split; eexists; vm_compute; reflexivity.
Defined.

(** C10 as stated fails: in the two-advertiser example, A is the earliest
    position whose product exceeds 0 and every earlier product, yet the
    selection returns B. *)
Lemma select_action_not_earliest_record_setter :
  record_setter two_arms two_arms_samples 0 0 "A" (21 # 1000)
  /\ select_action two_arms two_arms_samples 0 = Ok (Some "B", 25 # 1000)
  /\ record_setter two_arms two_arms_samples 0 1 "B" (25 # 1000).
Proof.
  split; [|split].
  - repeat split; try (vm_compute; reflexivity). intros j ad' v' Hj. lia.
  - vm_compute; reflexivity.
  - repeat split; try (vm_compute; reflexivity).
    intros [|j] ad' v' Hj Hl Hv; [|lia].
    injection Hl as <-. vm_compute in Hv. injection Hv as <-. reflexivity.
Qed.

(** ** Posterior update *)

Lemma increment_Ok (m : gmap string Z) ad m' :
  increment m (Some ad) = Ok m'
  <-> exists v, m !! ad = Some v /\ m' = <[ad := v + 1]> m.
Proof.
  unfold increment, getitem. destruct (m !! ad) as [v|]; simpl; split.
  - intros [= <-]. eauto.
  - intros (v' & [= <-] & ->). done.
  - discriminate.
  - intros (v' & Hv & _). discriminate.
Qed.

Lemma update_Ok a b ad click a' b' :
  update a b (Some ad) click = Ok (a', b')
  <-> (click = 1 /\ b' = b /\ exists v, a !! ad = Some v /\ a' = <[ad := v + 1]> a)
      \/ (click <> 1 /\ a' = a
          /\ exists v, b !! ad = Some v /\ b' = <[ad := v + 1]> b).
Proof.
  unfold update. destruct (Z.eqb_spec click 1) as [->|Hne]; split.
  - intros Hrun. apply bind_Ok in Hrun. destruct Hrun as (m & Hm & [= <- <-]).
    apply increment_Ok in Hm. left. auto.
  - intros [(_ & -> & Hv)|(Hne & _)]; [|done].
    apply increment_Ok in Hv. by rewrite Hv.
  - intros Hrun. apply bind_Ok in Hrun. destruct Hrun as (m & Hm & [= <- <-]).
    apply increment_Ok in Hm. right. auto.
  - intros [(Heq & _)|(_ & -> & Hv)]; [done|].
    apply increment_Ok in Hv. by rewrite Hv.
Qed.

Lemma update_other a b ad click a' b' ad' :
  update a b (Some ad) click = Ok (a', b') -> ad' <> ad ->
  a' !! ad' = a !! ad' /\ b' !! ad' = b !! ad'.
Proof.
  intros Hup Hne. apply update_Ok in Hup.
  destruct Hup as [(_ & -> & v & _ & ->)|(_ & -> & v & _ & ->)];
    split; try done; by apply lookup_insert_ne.
Qed.

Lemma update_monotone a b ad o a' b' k x :
  update a b (Some ad) o = Ok (a', b') ->
  (a !! k = Some x -> exists x', a' !! k = Some x' /\ x <= x')
  /\ (b !! k = Some x -> exists x', b' !! k = Some x' /\ x <= x').
Proof.
  intros Hup. apply update_Ok in Hup.
  destruct Hup as [(_ & -> & v & Hv & ->)|(_ & -> & v & Hv & ->)]; split;
    intros Hk; try (exists x; split; [done|lia]);
    (destruct (decide (k = ad)) as [->|Hne];
     [rewrite lookup_insert_eq; exists (v + 1);
      split; [done|]; assert (x = v) by congruence; lia
     |rewrite lookup_insert_ne by done; exists x; split; [done|lia]]).
Qed.

(** ** One round *)

Section Round.
Context {rng : Type} `{NpRandom rng}.
Variable d : AuctionData.
Variable ev_true : gmap string Q.
Variable best : option string.

(** A round that does not raise went through the five steps, in this order,
    on the same advertiser and the same outcome; and conversely. *)
Lemma TS_round_Ok st t (g : rng) st' g' :
  TS_round d ev_true best st t g = Ok (st', g')
  <-> exists ctr_prior g1 arg val p click bd evb eva a b,
        sample_posteriors d t (ts_a st) (ts_b st) (ts_ctr_prior st) g
          = Ok (ctr_prior, g1)
        /\ select_action d ctr_prior t = Ok (Some arg, val)
        /\ ctr_true d !! arg = Some p
        /\ random_binomial1 p g1 = Ok (click, g')
        /\ bid d !! arg = Some bd
        /\ getitem_opt ev_true best = Ok evb
        /\ ev_true !! arg = Some eva
        /\ update (ts_a st) (ts_b st) (Some arg) click = Ok (a, b)
        /\ st' = {| ts_reward := ts_reward st ++ [(bd * inject_Z click)%Q];
                    ts_regret := ts_regret st ++ [(evb - eva)%Q];
                    ts_ctr_prior := ctr_prior;
                    ts_a := a;
                    ts_b := b |}.
Proof.
  unfold TS_round. split.
  - intros Hrun.
    apply M_bind_Ok in Hrun. destruct Hrun as (ctr_prior & g1 & Hsample & Hrun).
    apply M_bind_Ok in Hrun. destruct Hrun as ([arg val] & g2 & Hsel & Hrun).
    apply lift_Ok in Hsel. destruct Hsel as [Hsel ->].
    apply M_bind_Ok in Hrun. destruct Hrun as (p & g2 & Hp & Hrun).
    apply lift_Ok in Hp. destruct Hp as [Hp ->].
    apply getitem_opt_Ok in Hp. destruct Hp as (ad & -> & Hp).
    apply M_bind_Ok in Hrun. destruct Hrun as (click & g2 & Hclick & Hrun).
    apply M_bind_Ok in Hrun. destruct Hrun as (bd & g3 & Hbd & Hrun).
    apply lift_Ok in Hbd. destruct Hbd as [Hbd ->]. apply getitem_Ok in Hbd.
    apply M_bind_Ok in Hrun. destruct Hrun as (evb & g3 & Hevb & Hrun).
    apply lift_Ok in Hevb. destruct Hevb as [Hevb ->].
    apply M_bind_Ok in Hrun. destruct Hrun as (eva & g3 & Heva & Hrun).
    apply lift_Ok in Heva. destruct Heva as [Heva ->]. apply getitem_Ok in Heva.
    apply M_bind_Ok in Hrun. destruct Hrun as ([a b] & g3 & Hup & Hrun).
    apply lift_Ok in Hup. destruct Hup as [Hup ->].
    injection Hrun as <- <-.
    exists ctr_prior, g1, ad, val, p, click, bd, evb, eva, a, b.
    repeat split; auto.
  - intros (ctr_prior & g1 & arg & val & p & click & bd & evb & eva & a & b
            & Hsample & Hsel & Hp & Hclick & Hbd & Hevb & Heva & Hup & ->).
    unfold mbind, M_bind. rewrite Hsample. unfold lift. rewrite Hsel.
    simpl. unfold getitem. rewrite Hp, Hclick, Hbd, Hevb, Heva.
    simpl in Hup. by rewrite Hup.
Qed.

(** The sampling loop fills row [t] and leaves the other rows alone. *)
Lemma sample_posteriors_rows t a b l :
  forall ctr_prior (g : rng) ctr_prior' g',
  for_each_M (sample_step t a b) l ctr_prior g = Ok (ctr_prior', g') ->
  (forall t', t' <> t -> ctr_prior' !! t' = ctr_prior !! t')
  /\ (forall row, ctr_prior !! t = Some row ->
        exists row', ctr_prior' !! t = Some row'
          /\ (forall ad, ad ∈ l -> is_Some (row' !! ad))
          /\ (forall ad, ad ∉ l -> row' !! ad = row !! ad)).
Proof.
  induction l as [|x l IH]; intros ctr_prior g ctr_prior' g' Hrun; simpl in Hrun.
  - injection Hrun as <- <-. split; [done|]. intros row Hrow.
    exists row. repeat split; auto. intros ad Had. by apply elem_of_nil in Had.
  - apply M_bind_Ok in Hrun. destruct Hrun as (cp1 & g1 & Hx & Hrun).
    unfold sample_step in Hx.
    apply M_bind_Ok in Hx. destruct Hx as (aa & g2 & Haa & Hx).
    apply lift_Ok in Haa. destruct Haa as [Haa ->].
    apply M_bind_Ok in Hx. destruct Hx as (bb & g2 & Hbb & Hx).
    apply lift_Ok in Hbb. destruct Hbb as [Hbb ->].
    apply M_bind_Ok in Hx. destruct Hx as (s & g2 & Hs & Hx).
    apply M_bind_Ok in Hx. destruct Hx as (row & g3 & Hrow & Hx).
    apply lift_Ok in Hrow. destruct Hrow as [Hrow ->]. apply getitem_Ok in Hrow.
    injection Hx as <- <-.
    destruct (IH _ _ _ _ Hrun) as [Hother Ht]. split.
    + intros t' Hne. rewrite (Hother t' Hne). by apply lookup_insert_ne.
    + intros row0 Hrow0. assert (row0 = row) as -> by congruence.
      destruct (Ht (<[x:=s]> row)) as (row' & Hrow' & Hin & Hout);
        [apply lookup_insert_eq|].
      exists row'. repeat split; auto.
      * intros ad [->|Had]%elem_of_cons; [|auto].
        destruct (decide (x ∈ l)) as [Hx|Hx]; [auto|].
        rewrite (Hout _ Hx), lookup_insert_eq. eauto.
      * intros ad Had. rewrite Hout by (intros Hx; apply Had; by right).
        apply lookup_insert_ne. intros ->. apply Had. by left.
Qed.

(** The sampling loop is one draw per advertiser, in registry order, written
    into row [t]. *)
Lemma sample_posteriors_draws t a b l :
  forall ctr_prior (g : rng) ctr_prior' g',
  for_each_M (sample_step t a b) l ctr_prior g = Ok (ctr_prior', g') ->
  exists xs, draw_samples a b l g = Ok (xs, g')
    /\ xs.*1 = l
    /\ forall row, ctr_prior !! t = Some row ->
         ctr_prior' !! t = Some (fill_row row xs).
Proof.
  induction l as [|x l IH]; intros ctr_prior g ctr_prior' g' Hrun; simpl in Hrun.
  - injection Hrun as <- <-. exists []. repeat split; auto.
  - apply M_bind_Ok in Hrun. destruct Hrun as (cp1 & g1 & Hx & Hrun).
    unfold sample_step in Hx.
    apply M_bind_Ok in Hx. destruct Hx as (aa & g2 & Haa & Hx).
    apply lift_Ok in Haa. destruct Haa as [Haa ->].
    apply M_bind_Ok in Hx. destruct Hx as (bb & g2 & Hbb & Hx).
    apply lift_Ok in Hbb. destruct Hbb as [Hbb ->].
    apply M_bind_Ok in Hx. destruct Hx as (s & g2 & Hs & Hx).
    apply M_bind_Ok in Hx. destruct Hx as (row & g3 & Hrow & Hx).
    apply lift_Ok in Hrow. destruct Hrow as [Hrow ->]. apply getitem_Ok in Hrow.
    injection Hx as <- <-.
    destruct (IH _ _ _ _ Hrun) as (xs & Hdraw & Hfst & Hfill).
    exists ((x, s) :: xs). split; [|split].
    + simpl. unfold mbind, M_bind, lift. by rewrite Haa, Hbb, Hs, Hdraw.
    + rewrite fmap_cons. simpl. by f_equal.
    + intros row0 Hrow0. assert (row0 = row) as -> by congruence.
      simpl. apply Hfill. apply lookup_insert_eq.
Qed.

End Round.

(** ** Feeding outcomes to the posterior *)

Lemma successes_cons o outcomes :
  successes (o :: outcomes)
  = (if decide (o = 1) then 1 else 0) + successes outcomes.
Proof.
  unfold successes. simpl. destruct (Z.eq_dec o 1) as [->|Hne].
  - rewrite decide_True by done. lia.
  - rewrite decide_False by done. lia.
Qed.

Lemma successes_bounds outcomes :
  0 <= successes outcomes <= Z.of_nat (length outcomes).
Proof.
  induction outcomes as [|o outcomes IH]; [done|].
  rewrite successes_cons. simpl length. case_decide; lia.
Qed.

Lemma feed_spec ad outcomes :
  forall a0 b0 al be,
  a0 !! ad = Some al -> b0 !! ad = Some be ->
  exists a b, feed ad outcomes (a0, b0) = Ok (a, b)
    /\ a !! ad = Some (al + successes outcomes)
    /\ b !! ad
       = Some (be + (Z.of_nat (length outcomes) - successes outcomes))
    /\ forall ad', ad' <> ad -> a !! ad' = a0 !! ad' /\ b !! ad' = b0 !! ad'.
Proof.
  unfold feed.
  induction outcomes as [|o outcomes IH]; intros a0 b0 al be Ha Hb.
  - exists a0, b0. simpl. split; [done|].
    split; [by rewrite Ha, Z.add_0_r|]. split; [by rewrite Hb, Z.add_0_r|done].
  - rewrite successes_cons. simpl for_each. simpl length.
    destruct (decide (o = 1)) as [->|Hne].
    + assert (Hup : update a0 b0 (Some ad) 1 = Ok (<[ad := al + 1]> a0, b0)).
      { apply update_Ok. left. eauto. }
      simpl fst. simpl snd. rewrite Hup. simpl.
      destruct (IH (<[ad := al + 1]> a0) b0 (al + 1) be) as (a & b & Hrun & Haa & Hbb & Ho);
        [apply lookup_insert_eq | done |].
      exists a, b. split; [done|]. split; [rewrite Haa; f_equal; lia|].
      split; [rewrite Hbb; f_equal; lia|].
      intros ad' Hne. destruct (Ho ad' Hne) as [-> ->].
      split; [by apply lookup_insert_ne|done].
    + assert (Hup : update a0 b0 (Some ad) o = Ok (a0, <[ad := be + 1]> b0)).
      { apply update_Ok. right. eauto. }
      simpl fst. simpl snd. rewrite Hup. simpl.
      destruct (IH a0 (<[ad := be + 1]> b0) al (be + 1)) as (a & b & Hrun & Haa & Hbb & Ho);
        [done | apply lookup_insert_eq |].
      exists a, b. split; [done|]. split; [rewrite Haa; f_equal; lia|].
      split; [rewrite Hbb; f_equal; lia|].
      intros ad' Hne'. destruct (Ho ad' Hne') as [-> ->].
      split; [done|by apply lookup_insert_ne].
Qed.

(** C4: starting from the initialized posterior of an advertiser, feeding [m]
    outcomes with [n] successes through [update] ends with
    [a = initial a + n] and [b = initial b + (m - n)], the other advertisers
    untouched; a single update adds one to [a] on outcome 1 and one to [b]
    on any other outcome, and it is a function of the state and the outcome
    alone, so neither parameter ever decreases. *)
Theorem update_round_trip :
  (forall d a0 b0 ad outcomes,
     initialization d = Ok (a0, b0) -> ad ∈ ads d ->
     exists al be a b,
       a0 !! ad = Some al /\ b0 !! ad = Some be
       /\ feed ad outcomes (a0, b0) = Ok (a, b)
       /\ a !! ad = Some (al + successes outcomes)
       /\ b !! ad
          = Some (be + (Z.of_nat (length outcomes) - successes outcomes))
       /\ 0 <= successes outcomes <= Z.of_nat (length outcomes)
       /\ forall ad', ad' <> ad -> a !! ad' = a0 !! ad' /\ b !! ad' = b0 !! ad')
  /\ (forall a b ad al be,
        a !! ad = Some al -> b !! ad = Some be ->
        update a b (Some ad) 1 = Ok (<[ad := al + 1]> a, b)
        /\ forall o, o <> 1 ->
             update a b (Some ad) o = Ok (a, <[ad := be + 1]> b))
  /\ (forall a b ad o a' b' k x,
        update a b (Some ad) o = Ok (a', b') ->
        (a !! k = Some x -> exists x', a' !! k = Some x' /\ x <= x')
        /\ (b !! k = Some x -> exists x', b' !! k = Some x' /\ x <= x')).
Proof.
  split; [|split]; [| |by apply update_monotone].
  - intros d a0 b0 ad outcomes Hinit Had.
    destruct (initialization_lookup _ _ _ _ Hinit Had) as (c & v & _ & _ & Ha & Hb).
    destruct (feed_spec ad outcomes a0 b0 _ _ Ha Hb) as (a & b & Hrun & Haa & Hbb & Ho).
    exists c, (v - c), a, b.
    split; [done|]. split; [done|]. split; [done|]. split; [done|].
    split; [done|]. split; [apply successes_bounds|done].
  - intros a b ad al be Ha Hb. split.
    + apply update_Ok. left. eauto.
    + intros o Ho. apply update_Ok. right. eauto.
Qed.

Lemma update_round_trip_witness :
  exists a b,
    initialization reference
    = Ok (clicks reference,
          {[ "crypto_magic" := 291; "green_energy" := 137;
             "infini_waves" := 58 ]})
    /\ feed "green_energy" [0; 1; 0; 0; 1]
         (clicks reference,
          {[ "crypto_magic" := 291; "green_energy" := 137;
             "infini_waves" := 58 ]})
       = Ok (a, b)
    /\ a !! "green_energy" = Some (3 + 2)
    /\ b !! "green_energy" = Some (137 + (5 - 2)).
Proof.
  destruct (proj1 update_round_trip reference (clicks reference)
              {[ "crypto_magic" := 291; "green_energy" := 137;
                 "infini_waves" := 58 ]}
              "green_energy" [0; 1; 0; 0; 1])
    as (al & be & a & b & Ha & Hb & Hrun & Haa & Hbb & _).
  - vm_compute. reflexivity.
  - simpl. right. by left.
  - vm_compute in Ha, Hb. injection Ha as <-. injection Hb as <-.
    exists a, b. split; [vm_compute; reflexivity|]. split; [exact Hrun|].
    split; [exact Haa | exact Hbb].
Defined.

(** ** Invariants of a replication *)

Section Replication.
Context {rng : Type} `{NpRandom rng}.
Variable d : AuctionData.
Variable ev_true : gmap string Q.
Variable best : option string.
Variable T : Z.

Lemma TS_init_positive st :
  (forall ad, ad ∈ ads d ->
     exists c v, clicks d !! ad = Some c /\ views d !! ad = Some v /\ 0 < c < v) ->
  TS_init d T = Ok st -> positive d (ts_a st) (ts_b st).
Proof.
  intros Hcounts Hinit ad Had. unfold TS_init in Hinit.
  apply bind_Ok in Hinit. destruct Hinit as ([a b] & Hinit & [= <-]). simpl.
  destruct (initialization_lookup _ _ _ _ Hinit Had) as (c & v & Hc & Hv & Ha & Hb).
  destruct (Hcounts ad Had) as (c' & v' & Hc' & Hv' & Hpos).
  exists c, (v - c). repeat split; auto.
  - assert (c = c') by congruence. lia.
  - assert (c = c') by congruence. assert (v = v') by congruence. lia.
Qed.

Lemma TS_round_positive st t (g : rng) st' g' :
  positive d (ts_a st) (ts_b st) ->
  TS_round d ev_true best st t g = Ok (st', g') ->
  positive d (ts_a st') (ts_b st').
Proof.
  intros Hpos Hrun ad Had. apply TS_round_Ok in Hrun.
  destruct Hrun as (ctr_prior & g1 & arg & val & p & click & bd & evb & eva
                    & a & b & _ & _ & _ & _ & _ & _ & _ & Hup & ->). simpl.
  destruct (Hpos ad Had) as (al & be & Ha & Hb & Hal & Hbe).
  apply update_Ok in Hup.
  destruct (decide (ad = arg)) as [->|Hne].
  - destruct Hup as [(_ & -> & v & Hv & ->)|(_ & -> & v & Hv & ->)].
    + exists (al + 1), be. rewrite lookup_insert_eq.
      repeat split; auto; [congruence|lia].
    + exists al, (be + 1). rewrite lookup_insert_eq.
      repeat split; auto; [congruence|lia].
  - destruct Hup as [(_ & -> & v & Hv & ->)|(_ & -> & v & Hv & ->)];
      exists al, be; rewrite lookup_insert_ne by done; auto.
Qed.

Lemma TS_loop_positive ts st (g : rng) st' g' :
  positive d (ts_a st) (ts_b st) ->
  for_each_M (TS_round d ev_true best) ts st g = Ok (st', g') ->
  positive d (ts_a st') (ts_b st').
Proof.
  apply (for_each_M_invariant _ (fun st => positive d (ts_a st) (ts_b st))).
  intros st1 t g1 st2 g2 _. apply TS_round_positive.
Qed.

Lemma regret_of_round arg val ctr_prior t evb eva :
  ev_true_cell d = Ok ev_true ->
  best_cell d ev_true = Ok best ->
  select_action d ctr_prior t = Ok (Some arg, val) ->
  getitem_opt ev_true best = Ok evb ->
  ev_true !! arg = Some eva ->
  is_regret d best (evb - eva)%Q /\ (0 <= evb - eva)%Q.
Proof.
  intros Hev Hbest Hsel Hevb Heva.
  apply getitem_opt_Ok in Hevb. destruct Hevb as (b & -> & Hevb).
  unfold best_cell in Hbest. apply bind_Ok in Hbest.
  destruct Hbest as ([arg0 val0] & Hscan & [= ->]).
  destruct (scan_Some_elem _ _ _ _ Hscan) as [Hb Hvb].
  destruct (scan_spec _ _ _ _ Hscan) as [Hmax _].
  destruct (scan_Some_elem _ _ _ _ Hsel) as [Harg _].
  apply getitem_Ok in Hvb. assert (val0 = evb) as -> by congruence.
  split.
  - destruct (dict_comp_lookup _ _ _ _ Hev Hb) as (vb & Hfb & Hlb).
    destruct (dict_comp_lookup _ _ _ _ Hev Harg) as (va & Hfa & Hla).
    apply bind_Ok in Hfb. destruct Hfb as (bb & Hbb & Hfb).
    apply bind_Ok in Hfb. destruct Hfb as (pb & Hpb & [= <-]).
    apply bind_Ok in Hfa. destruct Hfa as (ba & Hba & Hfa).
    apply bind_Ok in Hfa. destruct Hfa as (pa & Hpa & [= <-]).
    apply getitem_Ok in Hbb, Hpb, Hba, Hpa.
    exists b, arg, bb, pb, ba, pa. repeat split; auto. congruence.
  - assert (Hle : (eva <= evb)%Q).
    { apply (Hmax arg); [done|]. by apply getitem_Ok. }
    lra.
Qed.

Lemma TS_round_regrets st t (g : rng) st' g' :
  ev_true_cell d = Ok ev_true ->
  best_cell d ev_true = Ok best ->
  regrets_ok d best (ts_regret st) ->
  TS_round d ev_true best st t g = Ok (st', g') ->
  regrets_ok d best (ts_regret st').
Proof.
  intros Hev Hbest Hok Hrun. apply TS_round_Ok in Hrun.
  destruct Hrun as (ctr_prior & g1 & arg & val & p & click & bd & evb & eva
                    & a & b & _ & Hsel & _ & _ & _ & Hevb & Heva & _ & ->).
  unfold regrets_ok. simpl. apply Forall_app. split; [done|].
  apply Forall_singleton. by eapply regret_of_round.
Qed.

Lemma TS_upto_regrets n (g : rng) st g' :
  ev_true_cell d = Ok ev_true ->
  best_cell d ev_true = Ok best ->
  TS_upto d ev_true best T n g = Ok (st, g') ->
  regrets_ok d best (ts_regret st).
Proof.
  intros Hev Hbest Hrun. unfold TS_upto in Hrun.
  apply M_bind_Ok in Hrun. destruct Hrun as (st0 & g0 & Hinit & Hrun).
  apply lift_Ok in Hinit. destruct Hinit as [Hinit ->].
  revert Hrun.
  apply (for_each_M_invariant _ (fun st => regrets_ok d best (ts_regret st))).
  - intros st1 t g1 st2 g2 _. by apply TS_round_regrets.
  - unfold TS_init in Hinit. apply bind_Ok in Hinit.
    destruct Hinit as ([a b] & _ & [= <-]). by apply Forall_nil.
Qed.

Lemma TS_upto_all (g : rng) :
  TS d ev_true best T g = TS_upto d ev_true best T (Z.to_nat T) g.
Proof.
  unfold TS, TS_upto. rewrite take_ge; [done|].
  unfold range. by rewrite length_map, length_seq.
Qed.

Lemma TS_upto_positive n (g : rng) st g' :
  (forall ad, ad ∈ ads d ->
     exists c v, clicks d !! ad = Some c /\ views d !! ad = Some v /\ 0 < c < v) ->
  TS_upto d ev_true best T n g = Ok (st, g') -> positive d (ts_a st) (ts_b st).
Proof.
  intros Hcounts Hrun. unfold TS_upto in Hrun.
  apply M_bind_Ok in Hrun. destruct Hrun as (st0 & g0 & Hinit & Hrun).
  apply lift_Ok in Hinit. destruct Hinit as [Hinit ->].
  eapply TS_loop_positive; [|exact Hrun]. by apply TS_init_positive.
Qed.

(** Whatever the driver stored under a key is what one call of [TS]
    returned. *)
Lemma simulation_stored R (g : rng) all g' r :
  simulation d ev_true best T R g = Ok (all, g') ->
  (all_reward all !! r = None /\ all_regret all !! r = None
   /\ all_ctr_prior all !! r = None /\ all_a all !! r = None
   /\ all_b all !! r = None)
  \/ exists g1 st g2,
       TS d ev_true best T g1 = Ok (st, g2)
       /\ all_reward all !! r = Some (ts_reward st)
       /\ all_regret all !! r = Some (ts_regret st)
       /\ all_ctr_prior all !! r = Some (ts_ctr_prior st)
       /\ all_a all !! r = Some (ts_a st)
       /\ all_b all !! r = Some (ts_b st).
Proof.
  unfold simulation. intros Hrun. revert r. pattern all.
  eapply for_each_M_invariant; [| |exact Hrun].
  - intros all0 r0 g0 all1 g1 _ IH Hstep r. unfold simulation_step in Hstep.
    apply M_bind_Ok in Hstep. destruct Hstep as (tr & g2 & Htr & [= <- <-]).
    destruct (decide (r = r0)) as [->|Hne].
    + right. exists g0, tr, g2. simpl. rewrite !lookup_insert_eq.
      repeat split; auto.
    + simpl. rewrite !lookup_insert_ne by done. apply IH.
  - intros r. left. simpl. rewrite !lookup_empty. repeat split; auto.
Qed.

End Replication.

(** C2: with [ev_true] and [best] as the notebook computes them, every regret
    recorded by a replication, after any number of its rounds, is the true
    expected value of the oracle advertiser [best] minus the true expected
    value of an advertiser of the registry, and it is greater than or equal
    to 0; so is every regret of every replication that the driver stores. *)
Theorem regret_nonnegative {rng} `{NpRandom rng} (d : AuctionData)
    (ev_true : gmap string Q) (best : option string) (T : Z)
    (Hev : ev_true_cell d = Ok ev_true)
    (Hbest : best_cell d ev_true = Ok best) :
  (forall n (g : rng) st g',
     TS_upto d ev_true best T n g = Ok (st, g') ->
     regrets_ok d best (ts_regret st))
  /\ (forall R (g : rng) all g' r regrets,
        simulation d ev_true best T R g = Ok (all, g') ->
        all_regret all !! r = Some regrets ->
        regrets_ok d best regrets).
Proof.
  split.
  - intros n g st g'. by apply TS_upto_regrets.
  - intros R g all g' r regrets Hrun Hr.
    destruct (simulation_stored _ _ _ _ _ _ _ _ r Hrun)
      as [(_ & Hnone & _)|(g1 & st & g2 & Hts & _ & Hreg & _)]; [congruence|].
    assert (regrets = ts_regret st) as -> by congruence.
    rewrite TS_upto_all in Hts. by eapply TS_upto_regrets.
Qed.

Lemma regret_nonnegative_witness :
  exists all g',
    simulation reference reference_ev_true reference_best 2 1 reference_script
    = Ok (all, g')
    /\ forall r regrets, all_regret all !! r = Some regrets ->
         regrets_ok reference reference_best regrets.
Proof.
  eexists _, _. split; [vm_compute; reflexivity|].
  assert (Hev : ev_true_cell reference = Ok reference_ev_true)
    by (vm_compute; reflexivity).
  assert (Hbest : best_cell reference reference_ev_true = Ok reference_best)
    by (vm_compute; reflexivity).
  intros r regrets.
  eapply (proj2 (regret_nonnegative reference reference_ev_true reference_best
                   2 Hev Hbest) 1 reference_script).
  vm_compute. reflexivity.
Defined.

(** C5 (as the code has it): when every advertiser has at least one
    historical click and at least one historical view without a click, both
    posterior parameters of every advertiser are strictly positive after any
    number of rounds of any replication, and so are the final parameters that
    the driver stores. *)
Theorem posterior_positive {rng} `{NpRandom rng} (d : AuctionData)
    (ev_true : gmap string Q) (best : option string) (T : Z)
    (Hcounts : forall ad, ad ∈ ads d ->
       exists c v, clicks d !! ad = Some c /\ views d !! ad = Some v
                   /\ 0 < c < v) :
  (forall n (g : rng) st g',
     TS_upto d ev_true best T n g = Ok (st, g') ->
     positive d (ts_a st) (ts_b st))
  /\ (forall R (g : rng) all g' r a b,
        simulation d ev_true best T R g = Ok (all, g') ->
        all_a all !! r = Some a -> all_b all !! r = Some b ->
        positive d a b).
Proof.
  split.
  - intros n g st g'. by apply TS_upto_positive.
  - intros R g all g' r a b Hrun Ha Hb.
    destruct (simulation_stored _ _ _ _ _ _ _ _ r Hrun)
      as [(_ & _ & _ & Hnone & _)|(g1 & st & g2 & Hts & _ & _ & _ & Ha' & Hb')];
      [congruence|].
    assert (a = ts_a st) as -> by congruence.
    assert (b = ts_b st) as -> by congruence.
    rewrite TS_upto_all in Hts. by eapply TS_upto_positive.
Qed.

Lemma posterior_positive_witness :
  exists st g',
    TS_upto reference reference_ev_true reference_best 2 2 reference_script
    = Ok (st, g')
    /\ positive reference (ts_a st) (ts_b st).
Proof.
  eexists _, _. split; [vm_compute; reflexivity|].
  refine (proj1 (posterior_positive reference reference_ev_true reference_best
                   2 _) 2%nat reference_script _ _ _).
  - intros ad Had. simpl in Had.
    apply elem_of_cons in Had as [->|Had];
      [|apply elem_of_cons in Had as [->|Had];
         [|apply elem_of_cons in Had as [->|Had];
            [|by apply elem_of_nil in Had]]];
      eexists _, _; (split; [vm_compute; reflexivity|]);
      (split; [vm_compute; reflexivity|]); lia.
  - vm_compute. reflexivity.
Defined.

(** C5 as stated fails: an advertiser without any historical click starts
    with [a = 0]. *)
Lemma zero_clicks_not_positive :
  exists st,
    TS_upto zero_clicks ∅ None 5 0 ([] : list Q) = Ok (st, [])
    /\ ts_a st !! "A" = Some 0
    /\ ~ positive zero_clicks (ts_a st) (ts_b st).
Proof.
  eexists. split; [vm_compute; reflexivity|]. split; [vm_compute; reflexivity|].
  intros Hpos. destruct (Hpos "A") as (al & be & Ha & _ & Hal & _).
  - simpl. by left.
  - vm_compute in Ha. injection Ha as <-. lia.
Qed.

(** ** The sequence of rounds *)

Lemma range_lookup T (n : nat) :
  (n < Z.to_nat T)%nat -> range T !! n = Some (Z.of_nat n).
Proof.
  intros Hn. unfold range. rewrite list_lookup_fmap, lookup_seq_lt by done.
  done.
Qed.

Lemma range_length T : length (range T) = Z.to_nat T.
Proof. unfold range. by rewrite length_map, length_seq. Qed.

Lemma range_elem T r : r ∈ range T <-> 0 <= r < T.
Proof.
  unfold range. rewrite list_elem_of_fmap. split.
  - intros (n & -> & Hn). apply elem_of_seq in Hn. lia.
  - intros Hr. exists (Z.to_nat r). split; [lia|]. apply elem_of_seq. lia.
Qed.

Lemma range_nonpositive T : T <= 0 -> range T = [].
Proof. intros HT. unfold range. by replace (Z.to_nat T) with 0%nat by lia. Qed.

Section Rounds.
Context {rng : Type} `{NpRandom rng}.
Variable d : AuctionData.
Variable ev_true : gmap string Q.
Variable best : option string.
Variable T : Z.

(** Round [n] runs on the state left by the first [n] rounds. *)
Lemma TS_upto_S (n : nat) (g : rng) :
  (n < Z.to_nat T)%nat ->
  TS_upto d ev_true best T (S n) g
  = (TS_upto d ev_true best T n
       ≫= fun st => TS_round d ev_true best st (Z.of_nat n)) g.
Proof.
  intros Hn. unfold TS_upto.
  rewrite (take_S_r _ _ _ (range_lookup T n Hn)), M_bind_assoc.
  apply M_bind_ext. intros st0 g0.
  rewrite for_each_M_app. apply M_bind_ext. intros st1 g1.
  simpl. apply M_bind_mret.
Qed.

(** Every round appends exactly one reward and one regret. *)
Lemma TS_loop_lengths ts :
  forall st (g : rng) st' g',
  for_each_M (TS_round d ev_true best) ts st g = Ok (st', g') ->
  length (ts_reward st') = (length (ts_reward st) + length ts)%nat
  /\ length (ts_regret st') = (length (ts_regret st) + length ts)%nat.
Proof.
  induction ts as [|t ts IH]; intros st g st' g' Hrun; simpl in Hrun.
  - injection Hrun as <- <-. simpl. lia.
  - apply M_bind_Ok in Hrun. destruct Hrun as (st1 & g1 & Hround & Hrun).
    destruct (IH _ _ _ _ Hrun) as [-> ->]. apply TS_round_Ok in Hround.
    destruct Hround as (ctr_prior & g2 & arg & val & p & click & bd & evb & eva
                        & a & b & _ & _ & _ & _ & _ & _ & _ & _ & ->).
    simpl. rewrite !length_app. simpl. lia.
Qed.

Lemma TS_upto_lengths (n : nat) (g : rng) st g' :
  (n <= Z.to_nat T)%nat ->
  TS_upto d ev_true best T n g = Ok (st, g') ->
  length (ts_reward st) = n /\ length (ts_regret st) = n.
Proof.
  intros Hn Hrun. unfold TS_upto in Hrun.
  apply M_bind_Ok in Hrun. destruct Hrun as (st0 & g0 & Hinit & Hrun).
  apply lift_Ok in Hinit. destruct Hinit as [Hinit ->].
  destruct (TS_loop_lengths _ _ _ _ _ Hrun) as [-> ->].
  unfold TS_init in Hinit. apply bind_Ok in Hinit.
  destruct Hinit as ([a b] & _ & [= <-]). simpl.
  rewrite length_take, range_length. lia.
Qed.

End Rounds.

(** The estimated value of an advertiser is its bid times its sample of the
    round. *)
Lemma estimated_value_Ok d ctr_prior t ad v :
  estimated_value d ctr_prior t ad = Ok v
  <-> exists bd row s, bid d !! ad = Some bd /\ ctr_prior !! t = Some row
        /\ row !! ad = Some s /\ v = (bd * s)%Q.
Proof.
  unfold estimated_value. split.
  - intros Hrun. apply bind_Ok in Hrun. destruct Hrun as (bd & Hbd & Hrun).
    apply bind_Ok in Hrun. destruct Hrun as (row & Hrow & Hrun).
    apply bind_Ok in Hrun. destruct Hrun as (s & Hs & [= <-]).
    apply getitem_Ok in Hbd, Hrow, Hs. exists bd, row, s. auto.
  - intros (bd & row & s & Hbd & Hrow & Hs & ->).
    apply getitem_Ok in Hbd, Hrow, Hs. rewrite Hbd. simpl. rewrite Hrow. simpl.
    by rewrite Hs.
Qed.

(** The advertiser selected in a round is in the registry, and its product
    [bid * sample], read in row [t], is positive and the largest. *)
Lemma select_action_Some d ctr_prior t arg val :
  select_action d ctr_prior t = Ok (Some arg, val) ->
  arg ∈ ads d
  /\ exists bd row s,
       bid d !! arg = Some bd /\ ctr_prior !! t = Some row
       /\ row !! arg = Some s /\ val = (bd * s)%Q /\ (0 < val)%Q
       /\ forall ad bd' s', ad ∈ ads d -> bid d !! ad = Some bd' ->
            row !! ad = Some s' -> (bd' * s' <= val)%Q.
Proof.
  intros Hsel. destruct (scan_Some_elem _ _ _ _ Hsel) as [Hin Hval].
  destruct (scan_spec _ _ _ _ Hsel) as [Hmax (i & _ & _ & Hpos & _)].
  split; [done|]. apply estimated_value_Ok in Hval.
  destruct Hval as (bd & row & s & Hbd & Hrow & Hs & ->).
  exists bd, row, s. repeat split; auto.
  intros ad bd' s' Had Hbd' Hs'. apply (Hmax ad); [done|].
  apply estimated_value_Ok. exists bd', row, s'. auto.
Qed.

(** What a completed round has done to the locals of [TS]: the reward and the
    regret appended, and the posterior count incremented, all for the
    advertiser selected in this round and the click drawn for it. *)
Lemma TS_round_effect `{NpRandom rng} d ev_true best st t (g : rng) st' g' :
  TS_round d ev_true best st t g = Ok (st', g') ->
  exists g1 arg val p click bd bst evb eva,
    sample_posteriors d t (ts_a st) (ts_b st) (ts_ctr_prior st) g
      = Ok (ts_ctr_prior st', g1)
    /\ select_action d (ts_ctr_prior st') t = Ok (Some arg, val)
    /\ ctr_true d !! arg = Some p
    /\ random_binomial1 p g1 = Ok (click, g')
    /\ bid d !! arg = Some bd
    /\ ts_reward st' = ts_reward st ++ [(bd * inject_Z click)%Q]
    /\ best = Some bst
    /\ ev_true !! bst = Some evb
    /\ ev_true !! arg = Some eva
    /\ ts_regret st' = ts_regret st ++ [(evb - eva)%Q]
    /\ ((click = 1
         /\ (exists v, ts_a st !! arg = Some v
               /\ ts_a st' = <[arg := v + 1]> (ts_a st))
         /\ ts_b st' = ts_b st)
        \/ (click <> 1
            /\ (exists v, ts_b st !! arg = Some v
                  /\ ts_b st' = <[arg := v + 1]> (ts_b st))
            /\ ts_a st' = ts_a st)).
Proof.
  intros Hrun. apply TS_round_Ok in Hrun.
  destruct Hrun as (ctr_prior & g1 & arg & val & p & click & bd & evb & eva
                    & a & b & Hsample & Hsel & Hp & Hclick & Hbd & Hevb & Heva
                    & Hup & ->).
  apply getitem_opt_Ok in Hevb. destruct Hevb as (bst & -> & Hevb).
  exists g1, arg, val, p, click, bd, bst, evb, eva. simpl.
  do 10 (split; [done|]).
  apply update_Ok in Hup.
  destruct Hup as [(Hc & -> & v & Hv & ->)|(Hc & -> & v & Hv & ->)].
  - left. split; [done|]. split; [|done]. by exists v.
  - right. split; [done|]. split; [|done]. by exists v.
Qed.

(** C6: a round that completes has, in this order, (1) drawn one posterior
    sample for every advertiser, in registry order and each from the
    generator state left by the previous draw, into row [t], leaving the
    other rows alone,
    (2) selected an advertiser from that row, (3) drawn the click from the
    generator state left by the sampling, with the true click-through rate of
    the selected advertiser, (4) appended the reward [bid * click] and the
    regret, (5) updated the posterior with the same advertiser and the same
    click, leaving every other advertiser untouched; and any such five steps
    make a round.  Step (5) adds exactly 1 to [a] of the selected advertiser
    when the click is 1, and exactly 1 to [b] of the selected advertiser
    otherwise, and changes nothing else in [a] and [b]; the advertiser of
    step (2) is in the registry and its product [bid * sample], read in row
    [t], is positive and the largest of the registry; the regret of step (4)
    is the true expected value of [best] minus that of the selected
    advertiser.  Round [n] runs on the state left by rounds [0 .. n-1], the
    whole run is the [T] rounds in increasing order, and after [n] rounds
    exactly [n] rewards and [n] regrets are recorded. *)
Theorem TS_round_steps :
  (forall rng (G : NpRandom rng) d ev_true best st t (g : rng) st' g',
     TS_round d ev_true best st t g = Ok (st', g')
     <-> exists ctr_prior g1 arg val p click bd evb eva a b,
           sample_posteriors d t (ts_a st) (ts_b st) (ts_ctr_prior st) g
             = Ok (ctr_prior, g1)
           /\ select_action d ctr_prior t = Ok (Some arg, val)
           /\ ctr_true d !! arg = Some p
           /\ random_binomial1 p g1 = Ok (click, g')
           /\ bid d !! arg = Some bd
           /\ getitem_opt ev_true best = Ok evb
           /\ ev_true !! arg = Some eva
           /\ update (ts_a st) (ts_b st) (Some arg) click = Ok (a, b)
           /\ st' = {| ts_reward := ts_reward st ++ [(bd * inject_Z click)%Q];
                       ts_regret := ts_regret st ++ [(evb - eva)%Q];
                       ts_ctr_prior := ctr_prior;
                       ts_a := a;
                       ts_b := b |})
  /\ (forall rng (G : NpRandom rng) d ev_true best st t (g : rng) st' g',
        TS_round d ev_true best st t g = Ok (st', g') ->
        exists g1 arg val p click bd bst evb eva,
          sample_posteriors d t (ts_a st) (ts_b st) (ts_ctr_prior st) g
            = Ok (ts_ctr_prior st', g1)
          /\ select_action d (ts_ctr_prior st') t = Ok (Some arg, val)
          /\ ctr_true d !! arg = Some p
          /\ random_binomial1 p g1 = Ok (click, g')
          /\ bid d !! arg = Some bd
          /\ ts_reward st' = ts_reward st ++ [(bd * inject_Z click)%Q]
          /\ best = Some bst
          /\ ev_true !! bst = Some evb
          /\ ev_true !! arg = Some eva
          /\ ts_regret st' = ts_regret st ++ [(evb - eva)%Q]
          /\ ((click = 1
               /\ (exists v, ts_a st !! arg = Some v
                     /\ ts_a st' = <[arg := v + 1]> (ts_a st))
               /\ ts_b st' = ts_b st)
              \/ (click <> 1
                  /\ (exists v, ts_b st !! arg = Some v
                        /\ ts_b st' = <[arg := v + 1]> (ts_b st))
                  /\ ts_a st' = ts_a st)))
  /\ (forall a b arg click a' b',
        update a b (Some arg) click = Ok (a', b')
        <-> (click = 1 /\ b' = b
             /\ exists v, a !! arg = Some v /\ a' = <[arg := v + 1]> a)
            \/ (click <> 1 /\ a' = a
                /\ exists v, b !! arg = Some v /\ b' = <[arg := v + 1]> b))
  /\ (forall d ctr_prior t arg val,
        select_action d ctr_prior t = Ok (Some arg, val) ->
        arg ∈ ads d
        /\ exists bd row s,
             bid d !! arg = Some bd /\ ctr_prior !! t = Some row
             /\ row !! arg = Some s /\ val = (bd * s)%Q /\ (0 < val)%Q
             /\ forall ad bd' s', ad ∈ ads d -> bid d !! ad = Some bd' ->
                  row !! ad = Some s' -> (bd' * s' <= val)%Q)
  /\ (forall rng (G : NpRandom rng) d t a b ctr_prior (g : rng) ctr_prior' g',
        sample_posteriors d t a b ctr_prior g = Ok (ctr_prior', g') ->
        (forall t', t' <> t -> ctr_prior' !! t' = ctr_prior !! t')
        /\ (forall row, ctr_prior !! t = Some row ->
              exists row', ctr_prior' !! t = Some row'
                /\ (forall ad, ad ∈ ads d -> is_Some (row' !! ad))
                /\ (forall ad, ad ∉ ads d -> row' !! ad = row !! ad)))
  /\ (forall rng (G : NpRandom rng) d t a b ctr_prior (g : rng) ctr_prior' g',
        sample_posteriors d t a b ctr_prior g = Ok (ctr_prior', g') ->
        exists xs, draw_samples a b (ads d) g = Ok (xs, g')
          /\ xs.*1 = ads d
          /\ forall row, ctr_prior !! t = Some row ->
               ctr_prior' !! t = Some (fill_row row xs))
  /\ (forall a b arg click a' b' ad,
        update a b (Some arg) click = Ok (a', b') -> ad <> arg ->
        a' !! ad = a !! ad /\ b' !! ad = b !! ad)
  /\ (forall rng (G : NpRandom rng) d ev_true best T (n : nat) (g : rng),
        (n < Z.to_nat T)%nat ->
        TS_upto d ev_true best T (S n) g
        = (TS_upto d ev_true best T n
             ≫= fun st => TS_round d ev_true best st (Z.of_nat n)) g)
  /\ (forall rng (G : NpRandom rng) d ev_true best T (g : rng),
        TS d ev_true best T g = TS_upto d ev_true best T (Z.to_nat T) g)
  /\ (forall rng (G : NpRandom rng) d ev_true best T (n : nat) (g : rng) st g',
        (n <= Z.to_nat T)%nat ->
        TS_upto d ev_true best T n g = Ok (st, g') ->
        length (ts_reward st) = n /\ length (ts_regret st) = n).
Proof.
  split; [intros; apply TS_round_Ok|].
  split; [intros rng G d ev_true best st t g st' g' Hrun;
          by apply (TS_round_effect d ev_true best st t g st' g')|].
  split; [intros; apply update_Ok|].
  split; [intros; by apply select_action_Some|].
  split; [intros rng G d t a b cp g cp' g' Hrun;
          by apply (sample_posteriors_rows t a b (ads d) cp g cp' g')|].
  split; [intros rng G d t a b cp g cp' g' Hrun;
          by apply (sample_posteriors_draws t a b (ads d) cp g cp' g')|].
  split; [intros; by eapply update_other|].
  split; [intros; by apply TS_upto_S|].
  split; [intros; apply TS_upto_all|].
  intros. by eapply TS_upto_lengths.
Qed.

Lemma TS_round_steps_witness :
  (exists st' g',
     TS_round reference reference_ev_true reference_best reference_start 0
       reference_script = Ok (st', g')
     /\ (exists ctr_prior g1 arg val p click bd evb eva a b,
           sample_posteriors reference 0 (ts_a reference_start)
             (ts_b reference_start) (ts_ctr_prior reference_start)
             reference_script = Ok (ctr_prior, g1)
           /\ select_action reference ctr_prior 0 = Ok (Some arg, val)
           /\ ctr_true reference !! arg = Some p
           /\ random_binomial1 p g1 = Ok (click, g')
           /\ bid reference !! arg = Some bd
           /\ getitem_opt reference_ev_true reference_best = Ok evb
           /\ reference_ev_true !! arg = Some eva
           /\ update (ts_a reference_start) (ts_b reference_start) (Some arg)
                click = Ok (a, b)
           /\ st' = {| ts_reward :=
                         ts_reward reference_start ++ [(bd * inject_Z click)%Q];
                       ts_regret :=
                         ts_regret reference_start ++ [(evb - eva)%Q];
                       ts_ctr_prior := ctr_prior;
                       ts_a := a;
                       ts_b := b |})
     /\ (exists g1 arg val p click bd bst evb eva,
           sample_posteriors reference 0 (ts_a reference_start)
             (ts_b reference_start) (ts_ctr_prior reference_start)
             reference_script = Ok (ts_ctr_prior st', g1)
           /\ select_action reference (ts_ctr_prior st') 0 = Ok (Some arg, val)
           /\ ctr_true reference !! arg = Some p
           /\ random_binomial1 p g1 = Ok (click, g')
           /\ bid reference !! arg = Some bd
           /\ ts_reward st'
              = ts_reward reference_start ++ [(bd * inject_Z click)%Q]
           /\ reference_best = Some bst
           /\ reference_ev_true !! bst = Some evb
           /\ reference_ev_true !! arg = Some eva
           /\ ts_regret st' = ts_regret reference_start ++ [(evb - eva)%Q]
           /\ ((click = 1
                /\ (exists v, ts_a reference_start !! arg = Some v
                      /\ ts_a st' = <[arg := v + 1]> (ts_a reference_start))
                /\ ts_b st' = ts_b reference_start)
               \/ (click <> 1
                   /\ (exists v, ts_b reference_start !! arg = Some v
                         /\ ts_b st' = <[arg := v + 1]> (ts_b reference_start))
                   /\ ts_a st' = ts_a reference_start)))
     /\ select_action reference (ts_ctr_prior st') 0
        = Ok (Some "green_energy", ((5 # 10) * (5 # 100))%Q)
     /\ ts_reward st' = [((5 # 10) * inject_Z 0)%Q]
     /\ ts_a st' = ts_a reference_start
     /\ ts_b reference_start !! "green_energy" = Some 137
     /\ ts_b st' = <["green_energy" := 138]> (ts_b reference_start))
  /\ (exists st' g',
        TS_round reference reference_ev_true reference_best reference_start 0
          [3 # 100; 5 # 100; 1 # 100; 1 # 1000]%Q = Ok (st', g')
        /\ (exists g1 arg val p click bd bst evb eva,
              sample_posteriors reference 0 (ts_a reference_start)
                (ts_b reference_start) (ts_ctr_prior reference_start)
                [3 # 100; 5 # 100; 1 # 100; 1 # 1000]%Q
              = Ok (ts_ctr_prior st', g1)
              /\ select_action reference (ts_ctr_prior st') 0
                 = Ok (Some arg, val)
              /\ ctr_true reference !! arg = Some p
              /\ random_binomial1 p g1 = Ok (click, g')
              /\ bid reference !! arg = Some bd
              /\ ts_reward st'
                 = ts_reward reference_start ++ [(bd * inject_Z click)%Q]
              /\ reference_best = Some bst
              /\ reference_ev_true !! bst = Some evb
              /\ reference_ev_true !! arg = Some eva
              /\ ts_regret st' = ts_regret reference_start ++ [(evb - eva)%Q]
              /\ ((click = 1
                   /\ (exists v, ts_a reference_start !! arg = Some v
                         /\ ts_a st'
                            = <[arg := v + 1]> (ts_a reference_start))
                   /\ ts_b st' = ts_b reference_start)
                  \/ (click <> 1
                      /\ (exists v, ts_b reference_start !! arg = Some v
                            /\ ts_b st'
                               = <[arg := v + 1]> (ts_b reference_start))
                      /\ ts_a st' = ts_a reference_start)))
        /\ select_action reference (ts_ctr_prior st') 0
           = Ok (Some "green_energy", ((5 # 10) * (5 # 100))%Q)
        /\ ts_reward st' = [((5 # 10) * inject_Z 1)%Q]
        /\ ts_a reference_start !! "green_energy" = Some 3
        /\ ts_a st' = <["green_energy" := 4]> (ts_a reference_start)
        /\ ts_b st' = ts_b reference_start).
Proof.
  split.
  - eexists _, _. split; [vm_compute; reflexivity|].
    split.
    { apply (proj1 (proj1 TS_round_steps (list Q) script_random reference
                      reference_ev_true reference_best reference_start 0
                      reference_script _ _)).
      vm_compute. reflexivity. }
    split.
    { apply (proj1 (proj2 TS_round_steps) (list Q) script_random reference
               reference_ev_true reference_best reference_start 0
               reference_script).
      vm_compute. reflexivity. }
    repeat split; vm_compute; reflexivity.
  - eexists _, _. split; [vm_compute; reflexivity|].
    split.
    { apply (proj1 (proj2 TS_round_steps) (list Q) script_random reference
               reference_ev_true reference_best reference_start 0
               [3 # 100; 5 # 100; 1 # 100; 1 # 1000]%Q).
      vm_compute. reflexivity. }
    repeat split; vm_compute; reflexivity.
Defined.

(** ** Non-positive horizon or replication count *)

Section Degenerate.
Context {rng : Type} `{NpRandom rng}.
Variable d : AuctionData.
Variable ev_true : gmap string Q.
Variable best : option string.

Lemma TS_nonpositive_horizon T a0 b0 (g : rng) :
  T <= 0 -> initialization d = Ok (a0, b0) ->
  TS d ev_true best T g
  = Ok ({| ts_reward := []; ts_regret := []; ts_ctr_prior := ∅;
           ts_a := a0; ts_b := b0 |}, g).
Proof.
  intros HT Hinit. unfold TS, TS_init, empty_rows, mbind at 1, M_bind, lift.
  rewrite Hinit, (range_nonpositive T HT). done.
Qed.

Lemma simulation_constant T st0 rs :
  (forall g : rng, TS d ev_true best T g = Ok (st0, g)) ->
  forall all (g : rng),
  exists all',
    for_each_M (simulation_step d ev_true best T) rs all g = Ok (all', g)
    /\ forall r, r ∈ rs \/ trace_at all r st0 -> trace_at all' r st0.
Proof.
  intros Hts. induction rs as [|r0 rs IH]; intros all g; simpl.
  - exists all. split; [done|]. intros r [Hr|Hr]; [|done].
    by apply elem_of_nil in Hr.
  - unfold mbind, M_bind, simulation_step at 1. unfold mbind, M_bind.
    rewrite Hts. simpl.
    destruct (IH (store all r0 st0) g) as (all' & Hrun & Hat).
    exists all'. split; [done|]. intros r Hr. apply Hat.
    destruct (decide (r = r0)) as [->|Hne].
    + right. unfold trace_at. simpl. rewrite !lookup_insert_eq. done.
    + destruct Hr as [[->|Hr]%elem_of_cons|Hr]; [done|by left|].
      right. unfold trace_at in *. simpl. by rewrite !lookup_insert_ne.
Qed.

End Degenerate.

(** C7 (as the code has it): a non-positive [T] or [R] raises no error.
    With [R <= 0] the driver runs no replication and returns five empty
    dictionaries; with [T <= 0] every replication returns at once the empty
    reward and regret lists, no posterior sample and the initial posterior, and
    the driver stores that under every key [0 .. R-1].  In both cases the
    generator is left as it was. *)
Theorem nonpositive_horizon_runs :
  (forall rng (G : NpRandom rng) d ev_true best T R (g : rng),
     R <= 0 -> simulation d ev_true best T R g = Ok (no_traces, g))
  /\ (forall rng (G : NpRandom rng) d ev_true best T R (g : rng) a0 b0,
        T <= 0 -> initialization d = Ok (a0, b0) ->
        TS d ev_true best T g
        = Ok ({| ts_reward := []; ts_regret := []; ts_ctr_prior := ∅;
                 ts_a := a0; ts_b := b0 |}, g)
        /\ exists all,
             simulation d ev_true best T R g = Ok (all, g)
             /\ forall r, 0 <= r < R ->
                  trace_at all r {| ts_reward := []; ts_regret := [];
                                    ts_ctr_prior := ∅;
                                    ts_a := a0; ts_b := b0 |}).
Proof.
  split.
  - intros rng G d ev_true best T R g HR. unfold simulation.
    by rewrite (range_nonpositive R HR).
  - intros rng G d ev_true best T R g a0 b0 HT Hinit.
    split; [by apply TS_nonpositive_horizon|].
    destruct (simulation_constant d ev_true best T _ (range R)
                (fun g => TS_nonpositive_horizon d ev_true best T a0 b0 g HT Hinit)
                no_traces g) as (all & Hrun & Hat).
    exists all. split; [done|]. intros r Hr. apply Hat. left.
    by apply range_elem.
Qed.

Lemma nonpositive_horizon_runs_witness :
  simulation reference reference_ev_true reference_best 5 (-1) reference_script
  = Ok (no_traces, reference_script)
  /\ exists all,
       simulation reference reference_ev_true reference_best 0 3
         reference_script = Ok (all, reference_script)
       /\ forall r, 0 <= r < 3 ->
            trace_at all r {| ts_reward := []; ts_regret := [];
                              ts_ctr_prior := ∅;
                              ts_a := ts_a reference_start;
                              ts_b := ts_b reference_start |}.
Proof.
  split.
  - apply (proj1 nonpositive_horizon_runs). lia.
  - apply (proj2 nonpositive_horizon_runs (list Q) script_random reference
             reference_ev_true reference_best 0 3 reference_script
             (ts_a reference_start) (ts_b reference_start)).
    + lia.
    + vm_compute. reflexivity.
Defined.

(** C7 as stated fails: the whole notebook runs to its end, without any
    error, with a horizon of 0 rounds, with 0 replications, and with both
    negative. *)
Lemma nonpositive_horizon_no_error :
  (exists av g, notebook reference 0 2 reference_script = Ok (av, g))
  /\ (exists av g, notebook reference 2 0 reference_script = Ok (av, g))
  /\ (exists av g, notebook reference (-3) (-3) reference_script = Ok (av, g)).
Proof.
  repeat split; eexists _, _; vm_compute; reflexivity.
Qed.

(** ** A single advertiser, a single round *)

(** With a registry of exactly one advertiser whose true expected value
    [bid * ctr_true] is strictly positive, a run of [T = 1] round in which the
    posterior draw [x] gives [bid * x > 0] completes, selects that advertiser,
    and records the regret 0 (and the reward [bid * click]). *)
Lemma single_arm_round {rng} `{NpRandom rng} (d : AuctionData)
    (ad : string) (c v : Z) (bd p : Q) (g : rng) (x : Q) (g1 : rng)
    (click : Z) (g2 : rng)
    (Hads : ads d = [ad])
    (Hc : clicks d !! ad = Some c)
    (Hv : views d !! ad = Some v)
    (Hbd : bid d !! ad = Some bd)
    (Hp : ctr_true d !! ad = Some p)
    (Hev : (0 < bd * p)%Q)
    (Hbeta : random_beta c (v - c) g = Ok (x, g1))
    (Hx : (0 < bd * x)%Q)
    (Hclick : random_binomial1 p g1 = Ok (click, g2)) :
  exists ev_true st,
    ev_true_cell d = Ok ev_true
    /\ best_cell d ev_true = Ok (Some ad)
    /\ TS d ev_true (Some ad) 1 g = Ok (st, g2)
    /\ select_action d (ts_ctr_prior st) 0 = Ok (Some ad, (bd * x)%Q)
    /\ (exists r, ts_regret st = [r] /\ (r == 0)%Q)
    /\ ts_reward st = [(bd * inject_Z click)%Q].
Proof.
  set (a0 := <[ad := c]> (∅ : gmap string Z)).
  set (b0 := <[ad := v - c]> (∅ : gmap string Z)).
  set (cp0 := <[0 := (∅ : gmap string Q)]> (∅ : gmap Z (gmap string Q))).
  set (cp1 := <[0 := <[ad := x]> (∅ : gmap string Q)]> cp0).
  set (ev := <[ad := (bd * p)%Q]> (∅ : gmap string Q)).
  assert (Hcell : ev_true_cell d = Ok ev).
  { unfold ev_true_cell, dict_comp. rewrite Hads. simpl. unfold getitem.
    rewrite Hbd. simpl. by rewrite Hp. }
  assert (Hbest : best_cell d ev = Ok (Some ad)).
  { unfold best_cell, scan. rewrite Hads. simpl. unfold scan_step, getitem, ev.
    rewrite lookup_insert_eq. simpl.
    by rewrite (proj2 (Qgtb_true (bd * p) 0) Hev). }
  assert (Hinit : initialization d = Ok (a0, b0)).
  { unfold initialization, dict_comp. rewrite Hads. simpl. unfold getitem.
    rewrite Hc. simpl. by rewrite Hv. }
  assert (Hsample : sample_posteriors d 0 a0 b0 cp0 g = Ok (cp1, g1)).
  { unfold sample_posteriors. rewrite Hads. simpl.
    unfold sample_step, mbind, M_bind, lift, getitem, a0, b0, cp0.
    rewrite !lookup_insert_eq, Hbeta. done. }
  assert (Hsel : select_action d cp1 0 = Ok (Some ad, (bd * x)%Q)).
  { unfold select_action, scan. rewrite Hads. simpl.
    unfold scan_step, estimated_value, getitem, cp1.
    rewrite Hbd. simpl. rewrite lookup_insert_eq. simpl.
    rewrite lookup_insert_eq. simpl.
    by rewrite (proj2 (Qgtb_true (bd * x) 0) Hx). }
  assert (Hup : exists a b, update a0 b0 (Some ad) click = Ok (a, b)).
  { destruct (decide (click = 1)) as [Hone|Hone].
    - exists (<[ad := c + 1]> a0), b0. apply update_Ok. left.
      repeat split; auto. exists c. split; [apply lookup_insert_eq|done].
    - exists a0, (<[ad := v - c + 1]> b0). apply update_Ok. right.
      repeat split; auto. exists (v - c). split; [apply lookup_insert_eq|done]. }
  destruct Hup as (a & b & Hup).
  exists ev.
  exists {| ts_reward := [(bd * inject_Z click)%Q];
            ts_regret := [(bd * p - bd * p)%Q];
            ts_ctr_prior := cp1; ts_a := a; ts_b := b |}.
  split; [done|]. split; [done|]. split; [|split; [done|split; [|done]]].
  - unfold TS, TS_init. rewrite Hinit. change (range 1) with [0].
    unfold mbind at 1, M_bind. simpl.
    apply M_bind_Ok. eexists _, g2. split; [|reflexivity].
    apply TS_round_Ok.
    exists cp1, g1, ad, (bd * x)%Q, p, click, bd, (bd * p)%Q, (bd * p)%Q, a, b.
    simpl. unfold getitem, ev. rewrite lookup_insert_eq.
    repeat split; auto.
  - eexists. split; [reflexivity|]. unfold Qminus. apply Qplus_opp_r.
Qed.

Lemma single_arm_round_witness :
  exists ev_true st,
    ev_true_cell lone_arm = Ok ev_true
    /\ best_cell lone_arm ev_true = Ok (Some "A")
    /\ TS lone_arm ev_true (Some "A") 1 [1 # 2; 1 # 2]%Q = Ok (st, [])
    /\ select_action lone_arm (ts_ctr_prior st) 0
       = Ok (Some "A", ((7 # 10) * (1 # 2))%Q)
    /\ (exists r, ts_regret st = [r] /\ (r == 0)%Q)
    /\ ts_reward st = [((7 # 10) * inject_Z 0)%Q].
Proof.
  apply (single_arm_round lone_arm "A" 2 10 (7 # 10) (25 # 1000)
           [1 # 2; 1 # 2]%Q (1 # 2) [(1 # 2)%Q] 0 []);
    vm_compute; reflexivity.
Defined.

(** C9: a run of one round with a single advertiser is meant to select it
    and to record the regret 0.  The arg-max loops miss the case where no
    value exceeds their initial threshold 0.0: with a single advertiser whose
    true click-through rate is 0 the oracle [best] is [None], and the only
    round raises [KeyError] before any regret is recorded; and with an
    advertiser whose posterior sample is 0 no advertiser is selected and the
    round raises [KeyError] as well. *)
Theorem single_arm_round_raises :
  (exists ev_true,
     ev_true_cell never_clicked = Ok ev_true
     /\ best_cell never_clicked ev_true = Ok None
     /\ TS never_clicked ev_true None 1 [1 # 2; 1 # 2]%Q = Raise KeyError)
  /\ (exists ev_true,
        ev_true_cell lone_arm = Ok ev_true
        /\ best_cell lone_arm ev_true = Ok (Some "A")
        /\ TS lone_arm ev_true (Some "A") 1 [0; 1 # 2]%Q = Raise KeyError).
Proof.
  split; eexists; (split; [vm_compute; reflexivity|]);
    split; vm_compute; reflexivity.
Qed.

(** ** Averages over replications *)

(** *** Results alike *)

Lemma result_equiv_bind {A B} (R : A -> A -> Prop) (R' : B -> B -> Prop)
    (m m' : result A) (k k' : A -> result B) :
  result_equiv R m m' ->
  (forall x x', R x x' -> result_equiv R' (k x) (k' x')) ->
  result_equiv R' (m ≫= k) (m' ≫= k').
Proof.
  intros Hm Hk. destruct m as [x|e], m' as [x'|e']; simpl in *.
  - by apply Hk.
  - done.
  - done.
  - exact Hm.
Qed.

Lemma result_equiv_for_each {A S} (R : S -> S -> Prop)
    (body body' : S -> A -> result S) xs :
  (forall st st' x, R st st' -> result_equiv R (body st x) (body' st' x)) ->
  forall st st', R st st' ->
    result_equiv R (for_each body xs st) (for_each body' xs st').
Proof.
  intros Hbody. induction xs as [|x xs IH]; intros st st' Hst; simpl; [done|].
  apply result_equiv_bind with R; auto.
Qed.

Lemma result_equiv_getitem {V} (R : V -> V -> Prop) (m m' : gmap string V) ad :
  dict_equiv R m m' -> result_equiv R (getitem m ad) (getitem m' ad).
Proof.
  intros Hm. unfold getitem. by destruct (Hm ad).
Qed.

Lemma dict_equiv_insert {V} (R : V -> V -> Prop) (m m' : gmap string V) ad x x' :
  dict_equiv R m m' -> R x x' -> dict_equiv R (<[ad := x]> m) (<[ad := x']> m').
Proof.
  intros Hm Hx ad'. destruct (decide (ad = ad')) as [->|Hne].
  - rewrite !lookup_insert_eq. by constructor.
  - rewrite !lookup_insert_ne by done. apply Hm.
Qed.

Lemma dict_equiv_refl {V} (R : V -> V -> Prop) (m : gmap string V) :
  (forall x, R x x) -> dict_equiv R m m.
Proof.
  intros HR ad. destruct (m !! ad); by constructor.
Qed.

(** *** Sums and means of a permuted list *)

Lemma Qsum_perm xs ys : xs ≡ₚ ys -> (Qsum xs == Qsum ys)%Q.
Proof.
  induction 1 as [|x xs ys _ IH|x y xs|xs ys zs _ IH1 _ IH2]; simpl.
  - reflexivity.
  - by rewrite IH.
  - ring.
  - by rewrite IH1.
Qed.

Lemma np_mean_perm xs ys : xs ≡ₚ ys -> mean_equiv (np_mean xs) (np_mean ys).
Proof.
  intros Hperm. pose proof (Permutation_length Hperm) as Hlen.
  pose proof (Qsum_perm _ _ Hperm) as Hsum.
  destruct xs as [|x xs], ys as [|y ys]; try discriminate Hlen.
  - constructor.
  - unfold np_mean. constructor. by rewrite Hsum, Hlen.
Qed.

(** *** Comprehensions over a permuted list *)

Lemma result_equiv_perm_trans {B} (x y z : result (list B)) :
  result_equiv Permutation x y -> result_equiv Permutation y z ->
  result_equiv Permutation x z.
Proof.
  destruct x, y, z; simpl; try done.
  - apply perm_trans.
  - congruence.
Qed.

(** A comprehension whose element expression can only raise [e0] gives, on a
    permuted input, a permuted list or the same exception. *)
Lemma list_comp_perm {A B} (h : A -> result B) (e0 : exn) l l' :
  (forall x e, h x = Raise e -> e = e0) ->
  l ≡ₚ l' -> result_equiv Permutation (list_comp h l) (list_comp h l').
Proof.
  intros He.
  induction 1 as [|x l l' _ IH|x y l|l l' l'' _ IH1 _ IH2]; simpl.
  - constructor.
  - destruct (h x) as [u|e]; simpl; [|done].
    destruct (list_comp h l), (list_comp h l'); simpl in *; try done.
    by constructor.
  - destruct (h x) as [u|e] eqn:Hx, (h y) as [v|e'] eqn:Hy; simpl.
    + destruct (list_comp h l); simpl; [apply perm_swap|done].
    + destruct (list_comp h l); simpl; done.
    + done.
    + rewrite (He _ _ Hx), (He _ _ Hy). done.
  - by apply result_equiv_perm_trans with (list_comp h l').
Qed.

(** *** What the driver stored *)

Lemma range_S (n : nat) :
  range (Z.of_nat (S n)) = range (Z.of_nat n) ++ [Z.of_nat n].
Proof.
  unfold range. rewrite !Nat2Z.id, seq_S, map_app. done.
Qed.

Lemma store_all_snoc trs tr :
  store_all (trs ++ [tr]) = store (store_all trs) (Z.of_nat (length trs)) tr.
Proof.
  unfold store_all. rewrite length_app. simpl length.
  replace (length trs + 1)%nat with (S (length trs)) by lia.
  rewrite range_S.
  rewrite zip_with_app by (rewrite range_length; lia).
  by rewrite foldl_app.
Qed.

Lemma store_all_trace trs :
  forall (i : nat) tr, trs !! i = Some tr ->
    trace_at (store_all trs) (Z.of_nat i) tr.
Proof.
  induction trs as [|tr0 trs IH] using rev_ind; intros i tr Hi.
  - by rewrite lookup_nil in Hi.
  - rewrite store_all_snoc. unfold trace_at. simpl.
    destruct (decide (i = length trs)) as [->|Hne].
    + rewrite list_lookup_middle in Hi by done. injection Hi as <-.
      rewrite !lookup_insert_eq. done.
    + assert (Hlt : (i < length trs)%nat).
      { apply lookup_lt_Some in Hi. rewrite length_app in Hi. simpl in Hi. lia. }
      rewrite lookup_app_l in Hi by done.
      rewrite !lookup_insert_ne by lia. by apply IH.
Qed.

Lemma list_comp_app {A B} (f : A -> result B) l1 l2 :
  list_comp f (l1 ++ l2)
  = xs ← list_comp f l1; ys ← list_comp f l2; Ok (xs ++ ys).
Proof.
  induction l1 as [|x l1 IH]; simpl.
  - by destruct (list_comp f l2).
  - destruct (f x) as [y|e]; simpl; [|done]. rewrite IH.
    destruct (list_comp f l1); simpl; [|done].
    by destruct (list_comp f l2).
Qed.

(** A comprehension over the keys [0 .. R-1] of the stored dictionaries is a
    comprehension over the list of traces. *)
Lemma list_comp_stored {B} (f : Z -> result B) (h : TSState -> result B) trs :
  (forall (i : nat) tr, trs !! i = Some tr -> f (Z.of_nat i) = h tr) ->
  list_comp f (range (Z.of_nat (length trs))) = list_comp h trs.
Proof.
  induction trs as [|tr0 trs IH] using rev_ind; intros Hf; [done|].
  rewrite length_app. simpl length.
  replace (length trs + 1)%nat with (S (length trs)) by lia.
  rewrite range_S, !list_comp_app, IH.
  - simpl. rewrite (Hf (length trs) tr0); [done|].
    by apply list_lookup_middle.
  - intros i tr Hi. apply Hf. rewrite lookup_app_l; [done|].
    by apply lookup_lt_Some in Hi.
Qed.

Section Stored.
Variable trs : list TSState.

Lemma reward_stored t :
  list_comp (fun r => l ← getitem (all_reward (store_all trs)) r;
                      list_getitem l t)
            (range (Z.of_nat (length trs)))
  = list_comp (fun tr => list_getitem (ts_reward tr) t) trs.
Proof.
  apply list_comp_stored. intros i tr Hi.
  destruct (store_all_trace trs i tr Hi) as (Hr & _).
  by rewrite (proj2 (getitem_Ok _ _ _) Hr).
Qed.

Lemma regret_stored t :
  list_comp (fun r => l ← getitem (all_regret (store_all trs)) r;
                      list_getitem l t)
            (range (Z.of_nat (length trs)))
  = list_comp (fun tr => list_getitem (ts_regret tr) t) trs.
Proof.
  apply list_comp_stored. intros i tr Hi.
  destruct (store_all_trace trs i tr Hi) as (_ & Hr & _).
  by rewrite (proj2 (getitem_Ok _ _ _) Hr).
Qed.

Lemma ctr_prior_stored t ad :
  list_comp (fun r => tr ← getitem (all_ctr_prior (store_all trs)) r;
                      row ← getitem tr t;
                      getitem row ad)
            (range (Z.of_nat (length trs)))
  = list_comp (fun tr => row ← getitem (ts_ctr_prior tr) t; getitem row ad)
              trs.
Proof.
  apply list_comp_stored. intros i tr Hi.
  destruct (store_all_trace trs i tr Hi) as (_ & _ & Hr & _).
  by rewrite (proj2 (getitem_Ok _ _ _) Hr).
Qed.

Lemma a_stored ad :
  list_comp (fun r => m ← getitem (all_a (store_all trs)) r;
                      v ← getitem m ad; Ok (inject_Z v))
            (range (Z.of_nat (length trs)))
  = list_comp (fun tr => v ← getitem (ts_a tr) ad; Ok (inject_Z v)) trs.
Proof.
  apply list_comp_stored. intros i tr Hi.
  destruct (store_all_trace trs i tr Hi) as (_ & _ & _ & Hr & _).
  by rewrite (proj2 (getitem_Ok _ _ _) Hr).
Qed.

Lemma b_stored ad :
  list_comp (fun r => m ← getitem (all_b (store_all trs)) r;
                      v ← getitem m ad; Ok (inject_Z v))
            (range (Z.of_nat (length trs)))
  = list_comp (fun tr => v ← getitem (ts_b tr) ad; Ok (inject_Z v)) trs.
Proof.
  apply list_comp_stored. intros i tr Hi.
  destruct (store_all_trace trs i tr Hi) as (_ & _ & _ & _ & Hr).
  by rewrite (proj2 (getitem_Ok _ _ _) Hr).
Qed.

End Stored.

(** *** The averaging cell on permuted traces *)

Lemma list_getitem_raises {A} (l : list A) i e :
  list_getitem l i = Raise e -> e = IndexError.
Proof.
  unfold list_getitem.
  destruct (_ <? 0); [congruence|]. destruct (l !! _); congruence.
Qed.

Lemma getitem_raises {K} `{Countable K} {V} (m : gmap K V) k e :
  getitem m k = Raise e -> e = KeyError.
Proof. unfold getitem. destruct (m !! k); congruence. Qed.

Section Permuted.
Variable d : AuctionData.
Variable T : Z.
Variables trs trs' : list TSState.
Hypothesis Hperm : trs ≡ₚ trs'.

Lemma reward_perm t :
  result_equiv Permutation
    (list_comp (fun tr => list_getitem (ts_reward tr) t) trs)
    (list_comp (fun tr => list_getitem (ts_reward tr) t) trs').
Proof.
  apply list_comp_perm with IndexError; [|done].
  intros tr e. apply list_getitem_raises.
Qed.

Lemma regret_perm t :
  result_equiv Permutation
    (list_comp (fun tr => list_getitem (ts_regret tr) t) trs)
    (list_comp (fun tr => list_getitem (ts_regret tr) t) trs').
Proof.
  apply list_comp_perm with IndexError; [|done].
  intros tr e. apply list_getitem_raises.
Qed.

Lemma ctr_prior_perm t ad :
  result_equiv Permutation
    (list_comp (fun tr => row ← getitem (ts_ctr_prior tr) t; getitem row ad) trs)
    (list_comp (fun tr => row ← getitem (ts_ctr_prior tr) t; getitem row ad) trs').
Proof.
  apply list_comp_perm with KeyError; [|done].
  intros tr e. destruct (getitem (ts_ctr_prior tr) t) as [row|e'] eqn:Hrow; simpl.
  - apply getitem_raises.
  - intros [= <-]. by apply getitem_raises in Hrow.
Qed.

Lemma count_perm (m : TSState -> gmap string Z) ad :
  result_equiv Permutation
    (list_comp (fun tr => v ← getitem (m tr) ad; Ok (inject_Z v)) trs)
    (list_comp (fun tr => v ← getitem (m tr) ad; Ok (inject_Z v)) trs').
Proof.
  apply list_comp_perm with KeyError; [|done].
  intros tr e. destruct (getitem (m tr) ad) as [v|e'] eqn:Hv; simpl.
  - discriminate.
  - intros [= <-]. by apply getitem_raises in Hv.
Qed.

Lemma avg_ctr_prior_step_perm t acc acc' ad :
  dict_equiv (Forall2 mean_equiv) acc acc' ->
  result_equiv (dict_equiv (Forall2 mean_equiv))
    (avg_ctr_prior_step (Z.of_nat (length trs)) (store_all trs) t acc ad)
    (avg_ctr_prior_step (Z.of_nat (length trs')) (store_all trs') t acc' ad).
Proof.
  intros Hacc. unfold avg_ctr_prior_step. rewrite !ctr_prior_stored.
  apply result_equiv_bind with Permutation; [apply ctr_prior_perm|].
  intros xs xs' Hxs.
  apply result_equiv_bind with (Forall2 mean_equiv);
    [by apply result_equiv_getitem|].
  intros l l' Hl. simpl. apply dict_equiv_insert; [done|].
  apply Forall2_app; [done|]. constructor; [by apply np_mean_perm|constructor].
Qed.

Lemma averaging_round_perm av av' t :
  averages_equiv av av' ->
  result_equiv averages_equiv
    (averaging_round d (Z.of_nat (length trs)) (store_all trs) av t)
    (averaging_round d (Z.of_nat (length trs')) (store_all trs') av' t).
Proof.
  intros (Hrew & Hreg & Hcp & Ha & Hb). unfold averaging_round.
  rewrite !reward_stored, !regret_stored.
  apply result_equiv_bind with Permutation; [apply reward_perm|].
  intros xs xs' Hxs.
  apply result_equiv_bind with Permutation; [apply regret_perm|].
  intros ys ys' Hys.
  apply result_equiv_bind with (dict_equiv (Forall2 mean_equiv)).
  - apply result_equiv_for_each; [|done].
    intros acc acc' ad Hacc. by apply avg_ctr_prior_step_perm.
  - intros cp cp' Hcp'. simpl. unfold averages_equiv. simpl.
    split; [|split; [|done]].
    + apply Forall2_app; [done|].
      constructor; [by apply np_mean_perm|constructor].
    + apply Forall2_app; [done|].
      constructor; [by apply np_mean_perm|constructor].
Qed.

Lemma avg_ab_step_perm av av' ad :
  averages_equiv av av' ->
  result_equiv averages_equiv
    (avg_ab_step (Z.of_nat (length trs)) (store_all trs) av ad)
    (avg_ab_step (Z.of_nat (length trs')) (store_all trs') av' ad).
Proof.
  intros (Hrew & Hreg & Hcp & Ha & Hb). unfold avg_ab_step.
  rewrite !a_stored, !b_stored.
  apply result_equiv_bind with Permutation; [apply (count_perm ts_a)|].
  intros xs xs' Hxs.
  apply result_equiv_bind with Permutation; [apply (count_perm ts_b)|].
  intros ys ys' Hys. simpl. unfold averages_equiv. simpl.
  split; [done|]. split; [done|]. split; [done|].
  split; apply dict_equiv_insert; auto; by apply np_mean_perm.
Qed.

Lemma averaging_perm :
  result_equiv averages_equiv
    (averaging d T (Z.of_nat (length trs)) (store_all trs))
    (averaging d T (Z.of_nat (length trs')) (store_all trs')).
Proof.
  unfold averaging.
  destruct (dict_comp (fun _ : string => Ok []) (ads d)) as [cp0|e]; simpl;
    [|done].
  apply result_equiv_bind with averages_equiv.
  - apply result_equiv_for_each.
    + intros av av' t. apply averaging_round_perm.
    + unfold averages_equiv. simpl.
      split; [constructor|]. split; [constructor|].
      split; [|split; apply dict_equiv_refl; intros [x|]; by constructor].
      apply dict_equiv_refl. intros l. induction l as [|[x|] l IH];
        constructor; auto; by constructor.
  - intros av av' Hav. apply result_equiv_for_each; [|done].
    intros av1 av1' ad. apply avg_ab_step_perm.
Qed.

End Permuted.

(** The dictionaries filled by the driver are the traces of the successive
    calls of [TS], stored in the order of the calls. *)
Lemma simulation_store_all {rng} `{NpRandom rng} d ev_true best T (n : nat) :
  forall (g : rng) all g',
  for_each_M (simulation_step d ev_true best T) (range (Z.of_nat n)) no_traces g
    = Ok (all, g') ->
  exists trs, length trs = n /\ all = store_all trs.
Proof.
  induction n as [|n IH]; intros g all g' Hrun.
  - injection Hrun as <- <-. by exists [].
  - rewrite range_S, for_each_M_app in Hrun.
    apply M_bind_Ok in Hrun. destruct Hrun as (all1 & g1 & Hrun1 & Hstep).
    destruct (IH _ _ _ Hrun1) as (trs & Hlen & ->).
    simpl in Hstep. apply M_bind_Ok in Hstep.
    destruct Hstep as (all2 & g2 & Hstep & [= <- <-]).
    unfold simulation_step in Hstep. apply M_bind_Ok in Hstep.
    destruct Hstep as (tr & g3 & _ & [= <- <-]).
    exists (trs ++ [tr]). split.
    + rewrite length_app. simpl. lia.
    + by rewrite store_all_snoc, Hlen.
Qed.

Lemma range_to_nat R : range (Z.of_nat (Z.to_nat R)) = range R.
Proof. unfold range. by rewrite Nat2Z.id. Qed.

Lemma averaging_to_nat d T R all :
  averaging d T (Z.of_nat (Z.to_nat R)) all = averaging d T R all.
Proof.
  unfold averaging, averaging_round, avg_ab_step, avg_ctr_prior_step.
  by rewrite range_to_nat.
Qed.

(** C8: the dictionaries that the driver fills are the traces of the
    replications stored in the order they were run, and the aggregated result
    (mean reward and mean regret of every round, mean posterior sample of
    every advertiser in every round, mean final [a] and [b] of every
    advertiser) is the same, number for number, whatever the order in which
    the traces were stored; in exact arithmetic nothing is left of the order
    of summation.  An exception of the averaging cell does not depend on that
    order either. *)
Theorem averaging_order_insensitive :
  (forall rng (G : NpRandom rng) d ev_true best T R (g : rng) all g',
     simulation d ev_true best T R g = Ok (all, g') ->
     exists trs,
       length trs = Z.to_nat R /\ all = store_all trs
       /\ averaging d T R all
          = averaging d T (Z.of_nat (length trs)) (store_all trs))
  /\ (forall d T (trs trs' : list TSState),
        trs ≡ₚ trs' ->
        result_equiv averages_equiv
          (averaging d T (Z.of_nat (length trs)) (store_all trs))
          (averaging d T (Z.of_nat (length trs')) (store_all trs'))).
Proof.
  split.
  - intros rng G d ev_true best T R g all g' Hrun. unfold simulation in Hrun.
    rewrite <- range_to_nat in Hrun.
    destruct (simulation_store_all _ _ _ _ _ _ _ _ Hrun) as (trs & Hlen & ->).
    exists trs. split; [done|]. split; [done|].
    by rewrite Hlen, averaging_to_nat.
  - intros d T trs trs' Hperm. by apply averaging_perm.
Qed.

Lemma averaging_order_insensitive_witness :
  result_equiv averages_equiv
    (averaging two_arms 1 2 (store_all [first_trace; second_trace]))
    (averaging two_arms 1 2 (store_all [second_trace; first_trace])).
Proof.
  apply (proj2 averaging_order_insensitive two_arms 1
           [first_trace; second_trace] [second_trace; first_trace]).
  apply perm_swap.
Defined.

(** On the two traces of the example the averaging cell completes, and the
    mean reward of round 0 is 0.35 in both orders. *)
Example averaging_two_traces :
  exists av av',
    averaging two_arms 1 2 (store_all [first_trace; second_trace]) = Ok av
    /\ averaging two_arms 1 2 (store_all [second_trace; first_trace]) = Ok av'
    /\ Forall2 mean_equiv (avg_reward av) [Some (35 # 100)%Q]
    /\ Forall2 mean_equiv (avg_reward av') [Some (35 # 100)%Q].
Proof.
  eexists _, _. split; [vm_compute; reflexivity|].
  split; [vm_compute; reflexivity|].
  split; repeat constructor.
Qed.

(** * Further properties *)

(** ** The dictionaries of a replication *)

Lemma dict_comp_keys {K} `{Countable K} {V} (f : K -> result V) keys
    (m : gmap K V) k :
  dict_comp f keys = Ok m -> (is_Some (m !! k) <-> k ∈ keys).
Proof.
  intros Hrun. destruct (dict_loop_lookup f keys ∅ m Hrun k) as [Hin Hout].
  split.
  - intros Hk. destruct (decide (k ∈ keys)) as [|Hn]; [done|].
    rewrite (Hout Hn), lookup_empty in Hk. by destruct Hk.
  - intros Hk. destruct (Hin Hk) as (v & _ & Hv). eauto.
Qed.

Lemma dict_comp_raises {K} `{Countable K} {V} (f : K -> result V) keys e0 :
  (forall k e, f k = Raise e -> e = e0) ->
  forall e, dict_comp f keys = Raise e ->
    e = e0 /\ exists k, k ∈ keys /\ f k = Raise e0.
Proof.
  intros Hf. unfold dict_comp. generalize (∅ : gmap K V).
  induction keys as [|k keys IH]; intros acc e Hrun; simpl in Hrun; [done|].
  destruct (f k) as [v|e'] eqn:Hk; simpl in Hrun.
  - destruct (IH _ _ Hrun) as (-> & k' & Hk' & Hfk').
    split; [done|]. exists k'. split; [by right|done].
  - injection Hrun as <-. assert (e' = e0) as -> by eauto.
    split; [done|]. exists k. split; [by left|done].
Qed.

Lemma initialization_keys d a b :
  initialization d = Ok (a, b) -> keys_are_ads d a /\ keys_are_ads d b.
Proof.
  unfold initialization. intros Hrun.
  apply bind_Ok in Hrun. destruct Hrun as (a' & Ha & Hrun).
  apply bind_Ok in Hrun. destruct Hrun as (b' & Hb & [= <- <-]).
  split; intros ad; by eapply dict_comp_keys.
Qed.

Lemma keys_are_ads_insert {V} d (m : gmap string V) ad v :
  is_Some (m !! ad) -> keys_are_ads d m -> keys_are_ads d (<[ad := v]> m).
Proof.
  intros Had Hkeys ad'. destruct (decide (ad = ad')) as [<-|Hne].
  - rewrite lookup_insert_eq. split; [intros _; by apply Hkeys|eauto].
  - rewrite lookup_insert_ne by done. apply Hkeys.
Qed.

Lemma update_keys d a b ad click a' b' :
  update a b (Some ad) click = Ok (a', b') ->
  keys_are_ads d a -> keys_are_ads d b ->
  keys_are_ads d a' /\ keys_are_ads d b'.
Proof.
  intros Hup Ha Hb. apply update_Ok in Hup.
  destruct Hup as [(_ & -> & v & Hv & ->)|(_ & -> & v & Hv & ->)]; split;
    try done; apply keys_are_ads_insert; eauto.
Qed.

Lemma empty_rows_lookup T t :
  (0 <= t < T -> empty_rows T !! t = Some ∅)
  /\ (~ 0 <= t < T -> empty_rows T !! t = None).
Proof.
  unfold empty_rows. rewrite <- !range_elem.
  induction (range T) as [|x l [IHin IHout]]; simpl.
  - split; [intros Hin; by apply elem_of_nil in Hin|].
    intros _. apply lookup_empty.
  - destruct (decide (x = t)) as [->|Hne].
    + rewrite lookup_insert_eq. split; [done|].
      intros Hout. exfalso. apply Hout. by left.
    + rewrite lookup_insert_ne by done. split.
      * intros [->|Hin]%elem_of_cons; [done|auto].
      * intros Hout. apply IHout. intros Hin. apply Hout. by right.
Qed.

Section Trace.
Context {rng : Type} `{NpRandom rng}.
Variable d : AuctionData.
Variable ev_true : gmap string Q.
Variable best : option string.
Variable T : Z.

(** A completed prefix of rounds is a state followed by one round. *)
Lemma TS_upto_S_Ok (n : nat) (g : rng) st g' :
  (n < Z.to_nat T)%nat ->
  TS_upto d ev_true best T (S n) g = Ok (st, g') ->
  exists st1 g1,
    TS_upto d ev_true best T n g = Ok (st1, g1)
    /\ TS_round d ev_true best st1 (Z.of_nat n) g1 = Ok (st, g').
Proof.
  intros Hn Hrun. rewrite TS_upto_S in Hrun by done.
  by apply M_bind_Ok in Hrun.
Qed.

Lemma TS_upto_0 (g : rng) st g' :
  TS_upto d ev_true best T 0 g = Ok (st, g') ->
  g' = g /\ exists a b, initialization d = Ok (a, b)
    /\ st = {| ts_reward := []; ts_regret := []; ts_ctr_prior := empty_rows T;
               ts_a := a; ts_b := b |}.
Proof.
  unfold TS_upto. rewrite take_0. simpl. intros Hrun.
  apply M_bind_Ok in Hrun. destruct Hrun as (st0 & g0 & Hinit & [= <- <-]).
  apply lift_Ok in Hinit. destruct Hinit as [Hinit ->]. split; [done|].
  unfold TS_init in Hinit. apply bind_Ok in Hinit.
  destruct Hinit as ([a b] & Hinit & [= <-]). eauto.
Qed.

Lemma TS_upto_shape (n : nat) :
  (n <= Z.to_nat T)%nat ->
  forall (g : rng) st g',
  TS_upto d ev_true best T n g = Ok (st, g') ->
  rows_upto d T n (ts_ctr_prior st)
  /\ keys_are_ads d (ts_a st) /\ keys_are_ads d (ts_b st).
Proof.
  induction n as [|n IH]; intros Hn g st g' Hrun.
  - apply TS_upto_0 in Hrun. destruct Hrun as (_ & a & b & Hinit & ->). simpl.
    split; [|by apply initialization_keys].
    intros t. destruct (empty_rows_lookup T t) as [Hin Hout]. split.
    + intros Ht. exists ∅. split; [by apply Hin|]. split; [lia|done].
    + done.
  - apply TS_upto_S_Ok in Hrun; [|lia].
    destruct Hrun as (st1 & g1 & Hrun & Hround).
    assert (Hle : (n <= Z.to_nat T)%nat) by lia.
    destruct (IH Hle _ _ _ Hrun) as (Hrows & Ha & Hb).
    apply TS_round_Ok in Hround.
    destruct Hround as (cp & g2 & arg & val & p & click & bd & evb & eva
                        & a & b & Hsample & _ & _ & _ & _ & _ & _ & Hup & ->).
    simpl. split; [|by eapply update_keys].
    destruct (sample_posteriors_rows _ _ _ _ _ _ _ _ Hsample) as [Hother Hrow].
    intros t. destruct (Hrows t) as [Hin Hout]. split.
    + intros Ht. destruct (Hin Ht) as (row & Hl & Hfull & Hempty).
      destruct (decide (t = Z.of_nat n)) as [->|Hne].
      * destruct (Hrow row Hl) as (row' & Hl' & Hsome & Hnone).
        exists row'. split; [done|]. split; [|lia].
        intros _ ad. split.
        -- intros Hs. destruct (decide (ad ∈ ads d)) as [|Hn']; [done|].
           assert (Hge : Z.of_nat n <= Z.of_nat n) by lia.
           rewrite (Hnone _ Hn'), (Hempty Hge), lookup_empty in Hs.
           by destruct Hs.
        -- apply Hsome.
      * exists row. rewrite (Hother t Hne). split; [done|].
        split; [intros; apply Hfull; lia|intros; apply Hempty; lia].
    + intros Ht. rewrite Hother by lia. by apply Hout.
Qed.

Lemma TS_trace_ok (g : rng) st g' :
  TS d ev_true best T g = Ok (st, g') -> trace_ok d T st.
Proof.
  rewrite TS_upto_all. intros Hrun.
  assert (Hle : (Z.to_nat T <= Z.to_nat T)%nat) by lia.
  destruct (TS_upto_lengths d ev_true best T _ _ _ _ Hle Hrun) as [Hr Hg].
  destruct (TS_upto_shape _ Hle _ _ _ Hrun) as (Hrows & Ha & Hb).
  unfold trace_ok. auto.
Qed.

End Trace.

(** ** The averaging cell on complete traces *)

Lemma list_comp_column {A} (h : A -> result Q) (f : A -> option Q) l :
  (forall x, x ∈ l -> exists y, h x = Ok y /\ f x = Some y) ->
  exists xs, list_comp h l = Ok xs /\ Forall2 (fun x y => f x = Some y) l xs.
Proof.
  induction l as [|x l IH]; intros Hl; simpl.
  - exists []. split; [done|constructor].
  - destruct (Hl x) as (y & Hy & Hfy); [by left|].
    destruct IH as (xs & Hxs & Hcol); [intros x' Hx'; apply Hl; by right|].
    exists (y :: xs). rewrite Hy. simpl. rewrite Hxs. simpl.
    split; [done|by constructor].
Qed.

Lemma list_getitem_lookup {A} (l : list A) (t : nat) x :
  l !! t = Some x -> list_getitem l (Z.of_nat t) = Ok x.
Proof.
  intros Hx. unfold list_getitem.
  destruct (Z.ltb_spec (Z.of_nat t) 0) as [|_]; [lia|].
  destruct (Z.ltb_spec (Z.of_nat t) 0) as [|_]; [lia|].
  by rewrite Nat2Z.id, Hx.
Qed.

Section Complete.
Variable d : AuctionData.
Variable T : Z.
Variable trs : list TSState.
Hypothesis Hok : Forall (trace_ok d T) trs.

Lemma trace_ok_elem tr : tr ∈ trs -> trace_ok d T tr.
Proof. intros Htr. by eapply Forall_forall in Hok. Qed.

Lemma reward_column (t : nat) :
  (t < Z.to_nat T)%nat ->
  exists xs,
    list_comp (fun tr => list_getitem (ts_reward tr) (Z.of_nat t)) trs = Ok xs
    /\ Forall2 (fun tr x => reward_at t tr = Some x) trs xs.
Proof.
  intros Ht. apply list_comp_column. intros tr Htr.
  destruct (trace_ok_elem tr Htr) as (Hlen & _).
  destruct (lookup_lt_is_Some_2 (ts_reward tr) t) as [x Hx]; [lia|].
  exists x. split; [by apply list_getitem_lookup|done].
Qed.

Lemma regret_column (t : nat) :
  (t < Z.to_nat T)%nat ->
  exists xs,
    list_comp (fun tr => list_getitem (ts_regret tr) (Z.of_nat t)) trs = Ok xs
    /\ Forall2 (fun tr x => regret_at t tr = Some x) trs xs.
Proof.
  intros Ht. apply list_comp_column. intros tr Htr.
  destruct (trace_ok_elem tr Htr) as (_ & Hlen & _).
  destruct (lookup_lt_is_Some_2 (ts_regret tr) t) as [x Hx]; [lia|].
  exists x. split; [by apply list_getitem_lookup|done].
Qed.

Lemma sample_column (t : nat) ad :
  (t < Z.to_nat T)%nat -> ad ∈ ads d ->
  exists xs,
    list_comp (fun tr => row ← getitem (ts_ctr_prior tr) (Z.of_nat t);
                         getitem row ad) trs = Ok xs
    /\ Forall2 (fun tr x => sample_at t ad tr = Some x) trs xs.
Proof.
  intros Ht Had. apply list_comp_column. intros tr Htr.
  destruct (trace_ok_elem tr Htr) as (_ & _ & Hrows & _).
  destruct (Hrows (Z.of_nat t)) as [Hin _].
  destruct Hin as (row & Hrow & Hfull & _); [lia|].
  destruct (proj2 (Hfull ltac:(lia) ad) Had) as [x Hx].
  exists x. unfold sample_at, getitem. rewrite Hrow. simpl. by rewrite Hx.
Qed.

Lemma a_column ad :
  ad ∈ ads d ->
  exists xs,
    list_comp (fun tr => v ← getitem (ts_a tr) ad; Ok (inject_Z v)) trs = Ok xs
    /\ Forall2 (fun tr x => a_at ad tr = Some x) trs xs.
Proof.
  intros Had. apply list_comp_column. intros tr Htr.
  destruct (trace_ok_elem tr Htr) as (_ & _ & _ & Ha & _).
  destruct (proj2 (Ha ad) Had) as [v Hv].
  exists (inject_Z v). unfold a_at, getitem. by rewrite Hv.
Qed.

Lemma b_column ad :
  ad ∈ ads d ->
  exists xs,
    list_comp (fun tr => v ← getitem (ts_b tr) ad; Ok (inject_Z v)) trs = Ok xs
    /\ Forall2 (fun tr x => b_at ad tr = Some x) trs xs.
Proof.
  intros Had. apply list_comp_column. intros tr Htr.
  destruct (trace_ok_elem tr Htr) as (_ & _ & _ & _ & Hb).
  destruct (proj2 (Hb ad) Had) as [v Hv].
  exists (inject_Z v). unfold b_at, getitem. by rewrite Hv.
Qed.

End Complete.

Section AveragingLoops.
Variable d : AuctionData.
Variable T : Z.
Variable trs : list TSState.
Hypothesis Hok : Forall (trace_ok d T) trs.

(** The inner loop of a round, over advertisers listed once. *)
Lemma avg_ctr_prior_loop (n : nat) l :
  (n < Z.to_nat T)%nat -> NoDup l -> (forall ad, ad ∈ l -> ad ∈ ads d) ->
  forall acc, (forall ad, ad ∈ l -> is_Some (acc !! ad)) ->
  exists acc',
    for_each (avg_ctr_prior_step (Z.of_nat (length trs)) (store_all trs)
                (Z.of_nat n)) l acc = Ok acc'
    /\ (forall ad, ad ∈ l ->
          exists old m, acc !! ad = Some old /\ acc' !! ad = Some (old ++ [m])
                        /\ mean_of (sample_at n ad) trs m)
    /\ (forall ad, ad ∉ l -> acc' !! ad = acc !! ad).
Proof.
  intros Hn. induction l as [|x l IH]; intros Hnd Hsub acc Hacc; simpl.
  - exists acc. split; [done|]. split; [|done].
    intros ad Had. by apply elem_of_nil in Had.
  - apply NoDup_cons in Hnd as [Hx Hnd].
    destruct (sample_column d T trs Hok n x Hn) as (xs & Hxs & Hcol);
      [apply Hsub; by left|].
    destruct (Hacc x) as [old Hold]; [by left|].
    assert (Hstep : avg_ctr_prior_step (Z.of_nat (length trs)) (store_all trs)
                      (Z.of_nat n) acc x
                    = Ok (<[x := old ++ [np_mean xs]]> acc)).
    { unfold avg_ctr_prior_step. rewrite ctr_prior_stored, Hxs. simpl.
      by rewrite (proj2 (getitem_Ok _ _ _) Hold). }
    rewrite Hstep. simpl.
    destruct (IH Hnd (fun ad Had => Hsub ad (list_elem_of_further _ _ _ Had))
                (<[x := old ++ [np_mean xs]]> acc))
      as (acc' & Hrun & Hin & Hout).
    { intros ad Had. rewrite lookup_insert_ne by (intros ->; done).
      apply Hacc. by right. }
    exists acc'. split; [done|]. split.
    + intros ad [->|Had]%elem_of_cons.
      * exists old, (np_mean xs). split; [done|].
        rewrite (Hout x Hx), lookup_insert_eq. split; [done|].
        by exists xs.
      * destruct (Hin ad Had) as (old' & m & Ho & Ha & Hm).
        rewrite lookup_insert_ne in Ho by (intros ->; done).
        exists old', m. auto.
    + intros ad Had. rewrite Hout by (intros Hl; apply Had; by right).
      apply lookup_insert_ne. intros ->. apply Had. by left.
Qed.

Lemma lookup_snoc_Some {A} (l : list A) x (t : nat) y :
  (l ++ [x]) !! t = Some y ->
  l !! t = Some y \/ (t = length l /\ y = x).
Proof.
  intros Ht. apply lookup_app_Some in Ht as [Ht|[Hle Ht]]; [by left|].
  right. destruct (t - length l)%nat as [|k] eqn:Hk; simpl in Ht; [|done].
  injection Ht as <-. split; [lia|done].
Qed.

(** One round of the averaging loop. *)
Lemma averaging_round_complete (n : nat) av :
  (n < Z.to_nat T)%nat -> NoDup (ads d) ->
  rounds_averaged d n trs av ->
  exists av',
    averaging_round d (Z.of_nat (length trs)) (store_all trs) av (Z.of_nat n)
    = Ok av'
    /\ rounds_averaged d (S n) trs av'
    /\ avg_a av' = avg_a av /\ avg_b av' = avg_b av.
Proof.
  intros Hn Hnd (Hlr & Hlg & Hr & Hg & Hkeys & Hcp).
  destruct (reward_column d T trs Hok n Hn) as (xs & Hxs & Hxcol).
  destruct (regret_column d T trs Hok n Hn) as (ys & Hys & Hycol).
  destruct (avg_ctr_prior_loop n (ads d) Hn Hnd (fun _ H => H)
              (avg_ctr_prior av)) as (cp & Hloop & Hin & Hout).
  { intros ad Had. by apply Hkeys. }
  eexists. split.
  { unfold averaging_round. rewrite reward_stored, regret_stored, Hxs. simpl.
    rewrite Hys. simpl. rewrite Hloop. simpl. reflexivity. }
  split; [|done]. unfold rounds_averaged. simpl.
  rewrite !length_app. simpl.
  split; [lia|]. split; [lia|]. split; [|split; [|split]].
  - intros t m [Ht|[-> ->]]%lookup_snoc_Some; [by apply Hr|].
    rewrite Hlr. by exists xs.
  - intros t m [Ht|[-> ->]]%lookup_snoc_Some; [by apply Hg|].
    rewrite Hlg. by exists ys.
  - intros ad. split.
    + intros Hs. destruct (decide (ad ∈ ads d)) as [|Hn']; [done|].
      rewrite (Hout _ Hn') in Hs. by apply Hkeys.
    + intros Had. destruct (Hin ad Had) as (old & m & _ & -> & _). eauto.
  - intros ad l Hl.
    assert (Had : ad ∈ ads d).
    { destruct (decide (ad ∈ ads d)) as [|Hn']; [done|].
      rewrite (Hout _ Hn') in Hl. apply Hkeys. eauto. }
    destruct (Hin ad Had) as (old & m & Hold & Hnew & Hm).
    assert (l = old ++ [m]) as -> by congruence.
    destruct (Hcp ad old Hold) as [Hlen Hmeans].
    rewrite length_app. simpl. split; [lia|].
    intros t m' [Ht|[-> ->]]%lookup_snoc_Some; [by eapply Hmeans|].
    by rewrite Hlen.
Qed.

(** The averaging loop over the rounds. *)
Lemma averaging_rounds_complete (n : nat) av0 :
  (n <= Z.to_nat T)%nat -> NoDup (ads d) ->
  rounds_averaged d 0 trs av0 ->
  exists av,
    for_each (averaging_round d (Z.of_nat (length trs)) (store_all trs))
      (range (Z.of_nat n)) av0 = Ok av
    /\ rounds_averaged d n trs av
    /\ avg_a av = avg_a av0 /\ avg_b av = avg_b av0.
Proof.
  intros Hn Hnd H0. induction n as [|n IH].
  - exists av0. split; [done|]. split; [exact H0|]. by split.
  - destruct IH as (av & Hrun & Hav & Ha & Hb); [lia|].
    destruct (averaging_round_complete n av) as (av' & Hstep & Hav' & Ha' & Hb');
      [lia|done|done|].
    exists av'. rewrite range_S, for_each_app, Hrun. simpl. rewrite Hstep.
    simpl. split; [done|]. split; [exact Hav'|]. split; congruence.
Qed.

(** The last loop, over the advertisers. *)
Lemma avg_ab_loop l :
  (forall ad, ad ∈ l -> ad ∈ ads d) ->
  forall av,
  exists av',
    for_each (avg_ab_step (Z.of_nat (length trs)) (store_all trs)) l av = Ok av'
    /\ avg_reward av' = avg_reward av /\ avg_regret av' = avg_regret av
    /\ avg_ctr_prior av' = avg_ctr_prior av
    /\ (forall ad, ad ∈ l ->
          exists ma mb, avg_a av' !! ad = Some ma /\ mean_of (a_at ad) trs ma
                        /\ avg_b av' !! ad = Some mb /\ mean_of (b_at ad) trs mb)
    /\ (forall ad, ad ∉ l ->
          avg_a av' !! ad = avg_a av !! ad /\ avg_b av' !! ad = avg_b av !! ad).
Proof.
  induction l as [|x l IH]; intros Hsub av; simpl.
  - exists av. repeat split; auto. intros ad Had. by apply elem_of_nil in Had.
  - destruct (a_column d T trs Hok x) as (xs & Hxs & Hxcol); [apply Hsub; by left|].
    destruct (b_column d T trs Hok x) as (ys & Hys & Hycol); [apply Hsub; by left|].
    set (av1 := {| avg_reward := avg_reward av; avg_regret := avg_regret av;
                   avg_ctr_prior := avg_ctr_prior av;
                   avg_a := <[x := np_mean xs]> (avg_a av);
                   avg_b := <[x := np_mean ys]> (avg_b av) |}).
    assert (Hstep : avg_ab_step (Z.of_nat (length trs)) (store_all trs) av x
                    = Ok av1).
    { unfold avg_ab_step. rewrite a_stored, b_stored, Hxs. simpl.
      by rewrite Hys. }
    rewrite Hstep. simpl.
    destruct (IH (fun ad Had => Hsub ad (list_elem_of_further _ _ _ Had)) av1)
      as (av' & Hrun & Hr & Hg & Hc & Hin & Hout).
    exists av'. split; [done|]. split; [done|]. split; [done|].
    split; [done|]. split.
    + intros ad Had. destruct (decide (ad ∈ l)) as [Hl|Hl]; [by apply Hin|].
      apply elem_of_cons in Had as [->|?]; [|done].
      destruct (Hout x Hl) as [-> ->]. simpl. rewrite !lookup_insert_eq.
      exists (np_mean xs), (np_mean ys).
      split; [done|]. split; [by exists xs|]. split; [done|by exists ys].
    + intros ad Had.
      destruct (Hout ad) as [-> ->]; [intros Hl; apply Had; by right|].
      simpl. rewrite !lookup_insert_ne by (intros ->; apply Had; by left).
      done.
Qed.

(** On complete traces the averaging cell runs to its end and returns the
    means. *)
Lemma averaging_complete :
  NoDup (ads d) ->
  exists av,
    averaging d T (Z.of_nat (length trs)) (store_all trs) = Ok av
    /\ rounds_averaged d (Z.to_nat T) trs av
    /\ finals_averaged d trs av.
Proof.
  intros Hnd. unfold averaging.
  destruct (dict_comp_total (fun _ : string => Ok ([] : list (option Q)))
              (ads d)) as [cp0 Hcp0]; [eauto|].
  rewrite Hcp0. simpl.
  destruct (averaging_rounds_complete (Z.to_nat T)
              {| avg_reward := []; avg_regret := []; avg_ctr_prior := cp0;
                 avg_a := ∅; avg_b := ∅ |})
    as (av & Hrun & Hav & Ha & Hb); [lia|done| |].
  { unfold rounds_averaged. simpl. split; [done|]. split; [done|].
    split; [intros t m Ht; by rewrite lookup_nil in Ht|].
    split; [intros t m Ht; by rewrite lookup_nil in Ht|].
    split; [intros ad; by eapply dict_comp_keys|].
    intros ad l Hl.
    assert (Had : ad ∈ ads d) by (eapply dict_comp_keys; eauto).
    destruct (dict_comp_lookup _ _ _ _ Hcp0 Had) as (v & [= <-] & Hv).
    assert (l = []) as -> by congruence.
    split; [done|]. intros t m Ht. by rewrite lookup_nil in Ht. }
  rewrite range_to_nat in Hrun. rewrite Hrun. simpl.
  destruct (avg_ab_loop (ads d) (fun _ H => H) av)
    as (av' & Hloop & Hr & Hg & Hc & Hin & Hout).
  exists av'. split; [done|]. split.
  - destruct Hav as (H1 & H2 & H3 & H4 & H5 & H6).
    unfold rounds_averaged. rewrite Hr, Hg, Hc. auto 10.
  - simpl in Ha, Hb. unfold finals_averaged.
    assert (Hkeys : forall ad,
              (is_Some (avg_a av' !! ad) <-> ad ∈ ads d)
              /\ (is_Some (avg_b av' !! ad) <-> ad ∈ ads d)).
    { intros ad. destruct (decide (ad ∈ ads d)) as [Had|Had].
      - destruct (Hin ad Had) as (ma & mb & -> & _ & -> & _).
        split; split; eauto.
      - destruct (Hout ad Had) as [-> ->]. rewrite Ha, Hb, lookup_empty.
        split; split; try done; intros [? ?]; done. }
    split; [intros ad; apply Hkeys|]. split; [intros ad; apply Hkeys|].
    split.
    + intros ad m Hm.
      assert (Had : ad ∈ ads d) by (apply (proj1 (Hkeys ad)); eauto).
      destruct (Hin ad Had) as (ma & mb & Hma & Hmean & _).
      by assert (m = ma) as -> by congruence.
    + intros ad m Hm.
      assert (Had : ad ∈ ads d) by (apply (proj2 (Hkeys ad)); eauto).
      destruct (Hin ad Had) as (ma & mb & _ & _ & Hmb & Hmean).
      by assert (m = mb) as -> by congruence.
Qed.

End AveragingLoops.

(** ** From the driver to the averages *)

Lemma keys_upto_insert {V} (n : nat) (m : gmap Z V) v :
  keys_upto (Z.of_nat n) m -> keys_upto (Z.of_nat (S n)) (<[Z.of_nat n := v]> m).
Proof.
  intros Hm r. destruct (decide (r = Z.of_nat n)) as [->|Hne].
  - rewrite lookup_insert_eq. split; [lia|eauto].
  - rewrite lookup_insert_ne by done. rewrite (Hm r). lia.
Qed.

Lemma store_all_keys trs :
  keys_upto (Z.of_nat (length trs)) (all_reward (store_all trs))
  /\ keys_upto (Z.of_nat (length trs)) (all_regret (store_all trs))
  /\ keys_upto (Z.of_nat (length trs)) (all_ctr_prior (store_all trs))
  /\ keys_upto (Z.of_nat (length trs)) (all_a (store_all trs))
  /\ keys_upto (Z.of_nat (length trs)) (all_b (store_all trs)).
Proof.
  induction trs as [|tr trs (H1 & H2 & H3 & H4 & H5)] using rev_ind.
  - assert (He : forall V, keys_upto 0 (∅ : gmap Z V)).
    { intros V r. rewrite lookup_empty. split; [intros [? ?]; done|lia]. }
    simpl. split; [apply He|]. split; [apply He|]. split; [apply He|].
    split; apply He.
  - rewrite store_all_snoc, length_app. simpl length.
    replace (length trs + 1)%nat with (S (length trs)) by lia. simpl.
    split; [by apply keys_upto_insert|]. split; [by apply keys_upto_insert|].
    split; [by apply keys_upto_insert|]. split; by apply keys_upto_insert.
Qed.

(** The driver stores, in run order, the traces of the calls of [TS]. *)
Lemma simulation_calls {rng} `{NpRandom rng} d ev_true best T (n : nat) :
  forall (g : rng) all g',
  for_each_M (simulation_step d ev_true best T) (range (Z.of_nat n)) no_traces g
    = Ok (all, g') ->
  exists trs, length trs = n /\ all = store_all trs
    /\ Forall (fun tr => exists g1 g2 : rng,
                 TS d ev_true best T g1 = Ok (tr, g2)) trs.
Proof.
  induction n as [|n IH]; intros g all g' Hrun.
  - injection Hrun as <- <-. exists []. by repeat split.
  - rewrite range_S, for_each_M_app in Hrun.
    apply M_bind_Ok in Hrun. destruct Hrun as (all1 & g1 & Hrun1 & Hstep).
    destruct (IH _ _ _ Hrun1) as (trs & Hlen & -> & Hcalls).
    simpl in Hstep. apply M_bind_Ok in Hstep.
    destruct Hstep as (all2 & g2 & Hstep & [= <- <-]).
    unfold simulation_step in Hstep. apply M_bind_Ok in Hstep.
    destruct Hstep as (tr & g3 & Hts & [= <- <-]).
    exists (trs ++ [tr]). split; [rewrite length_app; simpl; lia|].
    split; [by rewrite store_all_snoc, Hlen|].
    apply Forall_app. split; [done|]. apply Forall_singleton. eauto.
Qed.

Lemma simulation_complete {rng} `{NpRandom rng} d ev_true best T R
    (g : rng) all g' :
  simulation d ev_true best T R g = Ok (all, g') ->
  exists trs, length trs = Z.to_nat R /\ all = store_all trs
    /\ Forall (trace_ok d T) trs
    /\ Forall (fun tr => exists g1 g2 : rng,
                 TS d ev_true best T g1 = Ok (tr, g2)) trs.
Proof.
  unfold simulation. rewrite <- range_to_nat. intros Hrun.
  destruct (simulation_calls _ _ _ _ _ _ _ _ Hrun) as (trs & Hlen & -> & Hcalls).
  exists trs. repeat split; try done.
  eapply Forall_impl; [exact Hcalls|].
  intros tr (g1 & g2 & Hts). by eapply TS_trace_ok.
Qed.

(** X1: after any number [n] of completed rounds of a replication,
    [ctr_prior] has one row for each round of the horizon and no other key,
    the rows of the rounds already run hold one sample for exactly the
    advertisers of the registry, the rows of the rounds to come are still
    empty, and the keys of [a] and of [b] are exactly the advertisers: a round
    never adds or removes a key. *)
Theorem TS_dictionaries_shape {rng} `{NpRandom rng} (d : AuctionData)
    (ev_true : gmap string Q) (best : option string) (T : Z) (n : nat)
    (g : rng) (st : TSState) (g' : rng)
    (Hn : (n <= Z.to_nat T)%nat)
    (Hrun : TS_upto d ev_true best T n g = Ok (st, g')) :
  rows_upto d T n (ts_ctr_prior st)
  /\ keys_are_ads d (ts_a st) /\ keys_are_ads d (ts_b st).
Proof. by eapply TS_upto_shape. Qed.

Lemma TS_dictionaries_shape_witness :
  exists st g',
    TS_upto reference reference_ev_true reference_best 2 1 reference_script
    = Ok (st, g')
    /\ rows_upto reference 2 1 (ts_ctr_prior st)
    /\ keys_are_ads reference (ts_a st) /\ keys_are_ads reference (ts_b st).
Proof.
  eexists _, _. split; [vm_compute; reflexivity|].
  eapply (TS_dictionaries_shape reference reference_ev_true reference_best 2 1
            reference_script).
  - vm_compute. lia.
  - vm_compute. reflexivity.
Defined.

(** X2: when the driver completes, each of its five dictionaries has exactly
    the keys [0 .. R-1], and the trace stored under each key is complete:
    [T] rewards, [T] regrets, one full row of posterior samples per round and
    the final [a] and [b] of every advertiser. *)
Theorem simulation_stores_complete_traces {rng} `{NpRandom rng}
    (d : AuctionData) (ev_true : gmap string Q) (best : option string)
    (T R : Z) (g : rng) (all : AllTraces) (g' : rng)
    (Hrun : simulation d ev_true best T R g = Ok (all, g')) :
  (keys_upto R (all_reward all) /\ keys_upto R (all_regret all)
   /\ keys_upto R (all_ctr_prior all) /\ keys_upto R (all_a all)
   /\ keys_upto R (all_b all))
  /\ forall r, 0 <= r < R ->
       exists tr, trace_at all r tr /\ trace_ok d T tr.
Proof.
  destruct (simulation_complete _ _ _ _ _ _ _ _ Hrun)
    as (trs & Hlen & -> & Hok & _).
  destruct (store_all_keys trs) as (H1 & H2 & H3 & H4 & H5).
  assert (Hkeys : forall V (m : gmap Z V),
            keys_upto (Z.of_nat (length trs)) m -> keys_upto R m).
  { intros V m Hm r. rewrite (Hm r). lia. }
  split.
  { split; [by apply Hkeys|]. split; [by apply Hkeys|].
    split; [by apply Hkeys|]. split; by apply Hkeys. }
  intros r Hr.
  destruct (lookup_lt_is_Some_2 trs (Z.to_nat r)) as [tr Htr]; [lia|].
  exists tr. split.
  - replace r with (Z.of_nat (Z.to_nat r)) by lia. by apply store_all_trace.
  - eapply Forall_forall in Hok; [exact Hok|].
    apply list_elem_of_lookup. eauto.
Qed.

Lemma simulation_stores_complete_traces_witness :
  exists all g',
    simulation reference reference_ev_true reference_best 1 2 reference_script
    = Ok (all, g')
    /\ (keys_upto 2 (all_reward all) /\ keys_upto 2 (all_regret all)
        /\ keys_upto 2 (all_ctr_prior all) /\ keys_upto 2 (all_a all)
        /\ keys_upto 2 (all_b all))
    /\ forall r, 0 <= r < 2 ->
         exists tr, trace_at all r tr /\ trace_ok reference 1 tr.
Proof.
  eexists _, _. split; [vm_compute; reflexivity|].
  eapply (simulation_stores_complete_traces reference reference_ev_true
            reference_best 1 2 reference_script).
  vm_compute. reflexivity.
Defined.

Lemma Qsum_nonneg xs : Forall (Qle 0) xs -> (0 <= Qsum xs)%Q.
Proof.
  induction 1 as [|x xs Hx _ IH]; simpl; [apply Qle_refl|].
  replace 0%Q with (0 + 0)%Q by done. by apply Qplus_le_compat.
Qed.

Lemma np_mean_nonneg xs : Forall (Qle 0) xs -> mean_nonneg (np_mean xs).
Proof.
  intros Hxs. destruct xs as [|x xs]; [done|]. unfold np_mean, mean_nonneg.
  apply Qmult_le_0_compat; [by apply Qsum_nonneg|].
  apply Qinv_le_0_compat. unfold Qle. simpl. lia.
Qed.

Lemma np_mean_None xs : np_mean xs = None <-> xs = [].
Proof. by destruct xs. Qed.

Lemma mean_of_nil f m : mean_of f [] m -> m = None.
Proof. intros (xs & Hcol & ->). by apply Forall2_nil_inv_l in Hcol as ->. Qed.

Lemma mean_of_singleton f tr m :
  mean_of f [tr] m -> exists x, f tr = Some x /\ mean_equiv m (Some x).
Proof.
  intros (xs & Hcol & ->).
  apply Forall2_cons_inv_l in Hcol as (x & xs' & Hx & Hnil & ->).
  apply Forall2_nil_inv_l in Hnil as ->. exists x. split; [done|].
  constructor. simpl. field.
Qed.

Lemma reference_NoDup : NoDup (ads reference).
Proof.
  simpl. repeat (apply NoDup_cons; split; [vm_compute; intros Hin;
    repeat (apply elem_of_cons in Hin as [Hin|Hin]; [discriminate|]);
    by apply elem_of_nil in Hin|]).
  apply NoDup_nil. done.
Qed.

(** X3: on complete traces of [T] rounds, listed once per advertiser, the
    averaging cell raises nothing and returns [T] mean rewards, [T] mean
    regrets and, for exactly the advertisers of the registry, [T] mean
    posterior samples and the mean final [a] and [b]; every entry is
    [np.mean] of the corresponding values of the traces, taken in the order
    of the replications. *)
Theorem averaging_means (d : AuctionData) (T : Z) (trs : list TSState)
    (Hok : Forall (trace_ok d T) trs) (Hnd : NoDup (ads d)) :
  exists av,
    averaging d T (Z.of_nat (length trs)) (store_all trs) = Ok av
    /\ rounds_averaged d (Z.to_nat T) trs av
    /\ finals_averaged d trs av.
Proof. by apply averaging_complete. Qed.

Lemma averaging_means_witness :
  exists tr g',
    TS reference reference_ev_true reference_best 2 reference_script
    = Ok (tr, g')
    /\ exists av,
         averaging reference 2 (Z.of_nat (length [tr])) (store_all [tr]) = Ok av
         /\ rounds_averaged reference (Z.to_nat 2) [tr] av
         /\ finals_averaged reference [tr] av.
Proof.
  eexists _, _. split; [vm_compute; reflexivity|].
  apply averaging_means.
  - apply Forall_singleton.
    eapply (TS_trace_ok reference reference_ev_true reference_best 2
              reference_script).
    vm_compute. reflexivity.
  - exact reference_NoDup.
Defined.

(** X4: with every advertiser listed once, as soon as the replications of the
    driver complete the whole notebook completes: the averaging cell cannot
    raise on what the driver stored, it leaves the generator alone, and it
    returns the means over the [R] stored traces. *)
Theorem notebook_completes {rng} `{NpRandom rng} (d : AuctionData)
    (ev_true : gmap string Q) (best : option string) (T R : Z)
    (g : rng) (all : AllTraces) (g' : rng)
    (Hnd : NoDup (ads d))
    (Hev : ev_true_cell d = Ok ev_true)
    (Hbest : best_cell d ev_true = Ok best)
    (Hrun : simulation d ev_true best T R g = Ok (all, g')) :
  exists trs av,
    length trs = Z.to_nat R /\ all = store_all trs
    /\ notebook d T R g = Ok (av, g')
    /\ rounds_averaged d (Z.to_nat T) trs av
    /\ finals_averaged d trs av.
Proof.
  destruct (simulation_complete _ _ _ _ _ _ _ _ Hrun)
    as (trs & Hlen & -> & Hok & _).
  destruct (averaging_complete d T trs Hok Hnd) as (av & Hav & Hr & Hf).
  exists trs, av. split; [done|]. split; [done|]. split; [|by split].
  unfold notebook, mbind, M_bind, lift. rewrite Hev, Hbest, Hrun.
  by rewrite <- averaging_to_nat, <- Hlen, Hav.
Qed.

Lemma notebook_completes_witness :
  exists all g' trs av,
    simulation reference reference_ev_true reference_best 1 2 reference_script
    = Ok (all, g')
    /\ length trs = Z.to_nat 2 /\ all = store_all trs
    /\ notebook reference 1 2 reference_script = Ok (av, g')
    /\ rounds_averaged reference (Z.to_nat 1) trs av
    /\ finals_averaged reference trs av.
Proof.
  destruct (simulation reference reference_ev_true reference_best 1 2
              reference_script) as [[all g']|e] eqn:Hrun;
    [|vm_compute in Hrun; discriminate].
  destruct (notebook_completes reference reference_ev_true reference_best 1 2
              reference_script all g' reference_NoDup)
    as (trs & av & Hlen & Hall & Hnb & Hr & Hf);
    [vm_compute; reflexivity|vm_compute; reflexivity|exact Hrun|].
  exists all, g', trs, av. auto 10.
Defined.

(** X5: with [ev_true] and [best] as the notebook computes them and every
    advertiser listed once, every mean regret that the notebook returns is a
    number greater than or equal to 0 when at least one replication ran, and
    it is [nan] exactly when [R <= 0]. *)
Theorem mean_regret_nonnegative {rng} `{NpRandom rng} (d : AuctionData)
    (ev_true : gmap string Q) (best : option string) (T R : Z)
    (g : rng) (av : Averages) (g' : rng)
    (Hnd : NoDup (ads d))
    (Hev : ev_true_cell d = Ok ev_true)
    (Hbest : best_cell d ev_true = Ok best)
    (Hrun : notebook d T R g = Ok (av, g')) :
  length (avg_regret av) = Z.to_nat T
  /\ forall t m, avg_regret av !! t = Some m ->
       mean_nonneg m /\ (m = None <-> R <= 0).
Proof.
  unfold notebook in Hrun.
  apply M_bind_Ok in Hrun. destruct Hrun as (ev' & g1 & Hev' & Hrun).
  apply lift_Ok in Hev'. destruct Hev' as [Hev' ->].
  assert (ev' = ev_true) as -> by congruence.
  apply M_bind_Ok in Hrun. destruct Hrun as (best' & g1 & Hbest' & Hrun).
  apply lift_Ok in Hbest'. destruct Hbest' as [Hbest' ->].
  assert (best' = best) as -> by congruence.
  apply M_bind_Ok in Hrun. destruct Hrun as (all & g1 & Hsim & Hrun).
  apply lift_Ok in Hrun. destruct Hrun as [Hav ->].
  destruct (simulation_complete _ _ _ _ _ _ _ _ Hsim)
    as (trs & Hlen & -> & Hok & Hcalls).
  destruct (averaging_complete d T trs Hok Hnd) as (av' & Hav' & Hr & _).
  rewrite <- averaging_to_nat, <- Hlen, Hav' in Hav. injection Hav as <-.
  destruct Hr as (_ & Hlg & _ & Hg & _). split; [done|].
  intros t m Hm. destruct (Hg t m Hm) as (xs & Hcol & ->). split.
  - apply np_mean_nonneg. apply Forall_forall. intros x Hx.
    apply list_elem_of_lookup in Hx as [i Hi].
    destruct (Forall2_lookup_r _ _ _ _ _ Hcol Hi) as (tr & Htr & Hreg).
    assert (Hin : tr ∈ trs) by (apply list_elem_of_lookup; eauto).
    eapply Forall_forall in Hcalls; [|exact Hin].
    destruct Hcalls as (g2 & g3 & Hts). rewrite TS_upto_all in Hts.
    pose proof (TS_upto_regrets _ _ _ _ _ _ _ _ Hev Hbest Hts) as Hregs.
    eapply Forall_forall in Hregs; [apply Hregs|].
    apply list_elem_of_lookup. eauto.
  - rewrite np_mean_None. apply Forall2_length in Hcol. split.
    + intros ->. simpl in Hcol. lia.
    + intros HR. destruct xs; [done|]. simpl in Hcol. lia.
Qed.

Lemma mean_regret_nonnegative_witness :
  exists av g',
    notebook reference 1 2 reference_script = Ok (av, g')
    /\ length (avg_regret av) = Z.to_nat 1
    /\ forall t m, avg_regret av !! t = Some m ->
         mean_nonneg m /\ (m = None <-> 2 <= 0).
Proof.
  eexists _, _. split; [vm_compute; reflexivity|].
  eapply (mean_regret_nonnegative reference reference_ev_true reference_best
            1 2 reference_script _ _ reference_NoDup);
    vm_compute; reflexivity.
Defined.

(** X6: without any replication stored ([R <= 0]) the averaging cell raises
    nothing: with every advertiser listed once it returns [nan] for each of
    the [T] mean rewards and mean regrets and, for every advertiser, [nan] for
    each of its [T] mean posterior samples and for its mean [a] and [b]. *)
Theorem averaging_no_replication (d : AuctionData) (T R : Z)
    (Hnd : NoDup (ads d)) (HR : R <= 0) :
  exists av,
    averaging d T R no_traces = Ok av
    /\ avg_reward av = replicate (Z.to_nat T) None
    /\ avg_regret av = replicate (Z.to_nat T) None
    /\ forall ad, ad ∈ ads d ->
         avg_ctr_prior av !! ad = Some (replicate (Z.to_nat T) None)
         /\ avg_a av !! ad = Some None /\ avg_b av !! ad = Some None.
Proof.
  destruct (averaging_complete d T [] (Forall_nil_2 _) Hnd)
    as (av & Hav & Hr & Hf).
  exists av. split.
  { rewrite <- averaging_to_nat. by replace (Z.to_nat R) with 0%nat by lia. }
  destruct Hr as (Hlr & Hlg & Hrm & Hgm & Hkeys & Hcp).
  destruct Hf as (Hka & Hkb & Ha & Hb).
  assert (Hnan : forall (f : nat -> TSState -> option Q) l n,
            length l = n ->
            (forall t m, l !! t = Some m -> mean_of (f t) [] m) ->
            l = replicate n None).
  { intros f l n Hl Hm. symmetry. apply replicate_as_Forall. split; [done|].
    apply Forall_forall. intros m Hin.
    apply list_elem_of_lookup in Hin as [t Ht].
    symmetry. by eapply mean_of_nil, Hm. }
  split; [by eapply Hnan|]. split; [by eapply Hnan|].
  intros ad Had.
  destruct (proj2 (Hkeys ad) Had) as [l Hl].
  destruct (proj2 (Hka ad) Had) as [ma Hma].
  destruct (proj2 (Hkb ad) Had) as [mb Hmb].
  destruct (Hcp ad l Hl) as [Hlen Hmeans].
  rewrite Hl, Hma, Hmb.
  rewrite (Hnan (fun t => sample_at t ad) l _ Hlen Hmeans).
  by rewrite (mean_of_nil _ _ (Ha ad ma Hma)), (mean_of_nil _ _ (Hb ad mb Hmb)).
Qed.

Lemma averaging_no_replication_witness :
  exists av,
    averaging reference 3 0 no_traces = Ok av
    /\ avg_reward av = replicate (Z.to_nat 3) None
    /\ avg_regret av = replicate (Z.to_nat 3) None
    /\ forall ad, ad ∈ ads reference ->
         avg_ctr_prior av !! ad = Some (replicate (Z.to_nat 3) None)
         /\ avg_a av !! ad = Some None /\ avg_b av !! ad = Some None.
Proof.
  apply (averaging_no_replication reference 3 0 reference_NoDup). lia.
Defined.



(** ** Counts of a replication *)

Lemma total_insert (m : gmap string Z) ad v v' :
  m !! ad = Some v -> total (<[ad := v']> m) = total m - v + v'.
Proof.
  intros Hv. unfold total.
  rewrite <- (insert_delete_eq m ad v').
  rewrite map_fold_insert_L; [|intros; lia|apply lookup_delete_eq].
  rewrite (map_fold_delete_L _ _ ad v m); [lia|intros; lia|done].
Qed.

Lemma update_totals a b ad click a' b' :
  update a b (Some ad) click = Ok (a', b') ->
  (click = 1 -> total a' = total a + 1 /\ total b' = total b)
  /\ (click <> 1 -> total a' = total a /\ total b' = total b + 1).
Proof.
  intros Hup. apply update_Ok in Hup.
  destruct Hup as [(-> & -> & v & Hv & ->)|(Hne & -> & v & Hv & ->)].
  - split; [|done]. intros _. rewrite (total_insert _ _ _ _ Hv). lia.
  - split; [done|]. intros _. rewrite (total_insert _ _ _ _ Hv). lia.
Qed.

Section Counts.
Context {rng : Type} `{NpRandom rng}.
Variable d : AuctionData.
Variable ev_true : gmap string Q.
Variable best : option string.
Variable T : Z.

Lemma TS_upto_counts (n : nat) :
  (n <= Z.to_nat T)%nat ->
  forall (g : rng) st g',
  TS_upto d ev_true best T n g = Ok (st, g') ->
  exists a0 b0,
    initialization d = Ok (a0, b0)
    /\ total (ts_a st) + total (ts_b st) = total a0 + total b0 + Z.of_nat n
    /\ total a0 <= total (ts_a st) /\ total b0 <= total (ts_b st)
    /\ forall ad x,
         (a0 !! ad = Some x -> exists x', ts_a st !! ad = Some x' /\ x <= x')
         /\ (b0 !! ad = Some x -> exists x', ts_b st !! ad = Some x' /\ x <= x').
Proof.
  induction n as [|n IH]; intros Hn g st g' Hrun.
  - apply TS_upto_0 in Hrun. destruct Hrun as (_ & a & b & Hinit & ->).
    exists a, b. simpl. split; [done|]. split; [lia|]. split; [lia|].
    split; [lia|]. intros ad x. split; intros Hx; exists x; split; done || lia.
  - apply TS_upto_S_Ok in Hrun; [|lia].
    destruct Hrun as (st1 & g1 & Hrun & Hround).
    assert (Hle : (n <= Z.to_nat T)%nat) by lia.
    destruct (IH Hle _ _ _ Hrun) as (a0 & b0 & Hinit & Hsum & Hta & Htb & Hmono).
    apply TS_round_Ok in Hround.
    destruct Hround as (cp & g2 & arg & val & p & click & bd & evb & eva
                        & a & b & _ & _ & _ & _ & _ & _ & _ & Hup & ->).
    exists a0, b0. simpl. split; [done|].
    destruct (update_totals _ _ _ _ _ _ Hup) as [Hone Hother].
    assert (Htot : (total a = total (ts_a st1) + 1 /\ total b = total (ts_b st1))
                   \/ (total a = total (ts_a st1)
                       /\ total b = total (ts_b st1) + 1)).
    { destruct (decide (click = 1)) as [Hc|Hc]; [left|right]; auto. }
    split; [lia|]. split; [lia|]. split; [lia|].
    intros ad x. destruct (Hmono ad x) as [Ha Hb]. split; intros Hx.
    + destruct (Ha Hx) as (x1 & Hx1 & Hle1).
      destruct (proj1 (update_monotone _ _ _ _ _ _ ad x1 Hup) Hx1)
        as (x2 & Hx2 & Hle2).
      exists x2. split; [done|lia].
    + destruct (Hb Hx) as (x1 & Hx1 & Hle1).
      destruct (proj2 (update_monotone _ _ _ _ _ _ ad x1 Hup) Hx1)
        as (x2 & Hx2 & Hle2).
      exists x2. split; [done|lia].
Qed.

End Counts.

(** X8: after [n] completed rounds of a replication the counts [a] and [b]
    have grown, together, by exactly [n] over their initial values, one count
    of one advertiser per round; no count is ever below its initial value. *)
Theorem TS_counts_grow_by_one_per_round {rng} `{NpRandom rng}
    (d : AuctionData) (ev_true : gmap string Q) (best : option string)
    (T : Z) (n : nat) (g : rng) (st : TSState) (g' : rng)
    (Hn : (n <= Z.to_nat T)%nat)
    (Hrun : TS_upto d ev_true best T n g = Ok (st, g')) :
  exists a0 b0,
    initialization d = Ok (a0, b0)
    /\ total (ts_a st) + total (ts_b st) = total a0 + total b0 + Z.of_nat n
    /\ total a0 <= total (ts_a st) /\ total b0 <= total (ts_b st)
    /\ forall ad x,
         (a0 !! ad = Some x -> exists x', ts_a st !! ad = Some x' /\ x <= x')
         /\ (b0 !! ad = Some x -> exists x', ts_b st !! ad = Some x' /\ x <= x').
Proof. by eapply TS_upto_counts. Qed.

Lemma TS_counts_grow_by_one_per_round_witness :
  exists st g' a0 b0,
    TS_upto reference reference_ev_true reference_best 2 2 reference_script
    = Ok (st, g')
    /\ initialization reference = Ok (a0, b0)
    /\ total (ts_a st) + total (ts_b st) = total a0 + total b0 + Z.of_nat 2.
Proof.
  destruct (TS_upto reference reference_ev_true reference_best 2 2
              reference_script) as [[st g']|e] eqn:Hrun;
    [|vm_compute in Hrun; discriminate].
  destruct (TS_counts_grow_by_one_per_round reference reference_ev_true
              reference_best 2 2 reference_script st g')
    as (a0 & b0 & Hinit & Hsum & _); [vm_compute; lia|exact Hrun|].
  exists st, g', a0, b0. auto.
Defined.

(** ** A count that is not positive *)

Lemma script_beta_checked : @beta_checked (list Q) script_random.
Proof.
  split.
  - intros a b g Hab. simpl. unfold script_beta.
    destruct (Z.leb_spec a 0), (Z.leb_spec b 0); simpl; try done. lia.
  - intros a b g Ha Hb. simpl. unfold script_beta.
    destruct (Z.leb_spec a 0), (Z.leb_spec b 0); simpl; try lia.
    destruct g; eauto.
Qed.

Lemma script_bernoulli_draws : @bernoulli_draws (list Q) script_random.
Proof.
  intros p g click g'. simpl. unfold script_binomial1.
  destruct (_ || _); [done|].
  destruct g as [|u g]; [intros [= <- _]; by left|].
  intros [= <- _]. destruct (Qgtb p u); [by right|by left].
Qed.

Section Rejected.
Context {rng : Type} `{NpRandom rng}.
Hypothesis Hchecked : beta_checked.

Lemma sample_loop_rejects t (a b : gmap string Z) l :
  (forall ad, ad ∈ l -> is_Some (a !! ad) /\ is_Some (b !! ad)) ->
  (exists ad al be, ad ∈ l /\ a !! ad = Some al /\ b !! ad = Some be
                    /\ (al <= 0 \/ be <= 0)) ->
  forall ctr_prior (g : rng),
  is_Some (ctr_prior !! t) ->
  for_each_M (sample_step t a b) l ctr_prior g = Raise ValueError.
Proof.
  destruct Hchecked as [Hreject Haccept].
  induction l as [|x l IH]; intros Hkeys (ad & al & be & Had & Hal & Hbe & Hbad)
    cp g [row Hrow].
  { by apply elem_of_nil in Had. }
  destruct (Hkeys x) as [[ax Hax] [bx Hbx]]; [by left|].
  simpl. unfold mbind at 1, M_bind. unfold sample_step, mbind, M_bind, lift.
  rewrite (proj2 (getitem_Ok _ _ _) Hax), (proj2 (getitem_Ok _ _ _) Hbx).
  destruct (decide (ax <= 0 \/ bx <= 0)) as [Hx|Hx].
  - by rewrite (Hreject ax bx g Hx).
  - destruct (Haccept ax bx g) as (s & g1 & Hs); [lia|lia|].
    rewrite Hs, (proj2 (getitem_Ok _ _ _) Hrow). simpl.
    apply IH.
    + intros ad' Had'. apply Hkeys. by right.
    + exists ad, al, be. repeat split; auto.
      apply elem_of_cons in Had as [->|Had]; [|done].
      exfalso. apply Hx. assert (ax = al) by congruence.
      assert (bx = be) by congruence. lia.
    + rewrite lookup_insert_eq. eauto.
Qed.

Lemma TS_rejects d ev_true best T (g : rng) :
  1 <= T ->
  (forall ad, ad ∈ ads d ->
     is_Some (clicks d !! ad) /\ is_Some (views d !! ad)) ->
  (exists ad c v, ad ∈ ads d /\ clicks d !! ad = Some c
                  /\ views d !! ad = Some v /\ (c <= 0 \/ v <= c)) ->
  TS d ev_true best T g = Raise ValueError.
Proof.
  intros HT Hkeys (ad & c & v & Had & Hc & Hv & Hbad).
  destruct (initialization_total d Hkeys) as (a0 & b0 & Hinit).
  unfold TS, TS_init. rewrite Hinit.
  assert (Hrange : range T = 0 :: map Z.of_nat (seq 1 (Z.to_nat T - 1))).
  { unfold range. destruct (Z.to_nat T) as [|k] eqn:Hk; [lia|].
    simpl. by rewrite Nat.sub_0_r. }
  rewrite Hrange. unfold mbind at 1, M_bind. simpl.
  unfold mbind at 1, M_bind. unfold TS_round at 1. unfold mbind at 1, M_bind.
  unfold sample_posteriors. simpl.
  rewrite (sample_loop_rejects 0 a0 b0 (ads d)); [done| | |].
  - intros ad' Had'.
    destruct (initialization_lookup _ _ _ _ Hinit Had')
      as (c' & v' & _ & _ & -> & ->). eauto.
  - destruct (initialization_lookup _ _ _ _ Hinit Had)
      as (c' & v' & Hc' & Hv' & Ha & Hb).
    assert (c' = c) as -> by congruence. assert (v' = v) as -> by congruence.
    exists ad, c, (v - c). repeat split; auto. lia.
  - destruct (empty_rows_lookup T 0) as [Hin _]. rewrite Hin by lia. eauto.
Qed.

End Rejected.

(** X9: under NumPy's check of the Beta parameters, when an advertiser has no
    historical click, or no historical view without a click, every run of at
    least one round raises [ValueError] in its first round: the code seeds
    the counts without any guard. *)
Theorem TS_raises_on_nonpositive_count {rng} `{NpRandom rng}
    (d : AuctionData) (ev_true : gmap string Q) (best : option string)
    (T : Z) (g : rng)
    (Hchecked : beta_checked)
    (HT : 1 <= T)
    (Hkeys : forall ad, ad ∈ ads d ->
               is_Some (clicks d !! ad) /\ is_Some (views d !! ad))
    (Hbad : exists ad c v, ad ∈ ads d /\ clicks d !! ad = Some c
                           /\ views d !! ad = Some v /\ (c <= 0 \/ v <= c)) :
  TS d ev_true best T g = Raise ValueError
  /\ forall R, 1 <= R ->
       simulation d ev_true best T R g = Raise ValueError.
Proof.
  split; [by apply TS_rejects|].
  intros R HR. unfold simulation.
  assert (Hrange : range R = 0 :: map Z.of_nat (seq 1 (Z.to_nat R - 1))).
  { unfold range. destruct (Z.to_nat R) as [|k] eqn:Hk; [lia|].
    simpl. by rewrite Nat.sub_0_r. }
  rewrite Hrange. simpl. unfold mbind at 1, M_bind.
  unfold simulation_step at 1. unfold mbind at 1, M_bind.
  by rewrite TS_rejects.
Qed.

Lemma TS_raises_on_nonpositive_count_witness :
  TS zero_clicks ∅ None 1 reference_script = Raise ValueError
  /\ forall R, 1 <= R ->
       simulation zero_clicks ∅ None 1 R reference_script = Raise ValueError.
Proof.
  apply (TS_raises_on_nonpositive_count zero_clicks ∅ None 1 reference_script
           script_beta_checked).
  - lia.
  - intros ad Had. simpl in Had.
    apply elem_of_cons in Had as [->|Had]; [|by apply elem_of_nil in Had].
    split; eexists; vm_compute; reflexivity.
  - exists "A", 0, 10. split; [simpl; by left|].
    split; [vm_compute; reflexivity|]. split; [vm_compute; reflexivity|lia].
Defined.

(** ** Rewards and clicks *)

Lemma nonzero_rewards_snoc rewards r :
  nonzero_rewards (rewards ++ [r])
  = nonzero_rewards rewards + (if Qeq_bool r 0 then 0 else 1).
Proof.
  unfold nonzero_rewards. rewrite List.filter_app, length_app. simpl.
  destruct (Qeq_bool r 0); simpl; lia.
Qed.

Section Rewards.
Context {rng : Type} `{NpRandom rng}.
Variable d : AuctionData.
Variable ev_true : gmap string Q.
Variable best : option string.
Variable T : Z.
Hypothesis Hbern : bernoulli_draws.
Hypothesis Hbids : forall ad bd, bid d !! ad = Some bd -> ~ (bd == 0)%Q.

Lemma TS_upto_rewards (n : nat) :
  (n <= Z.to_nat T)%nat ->
  forall (g : rng) st g',
  TS_upto d ev_true best T n g = Ok (st, g') ->
  exists a0 b0,
    initialization d = Ok (a0, b0)
    /\ total (ts_a st) = total a0 + nonzero_rewards (ts_reward st)
    /\ total (ts_b st)
       = total b0 + (Z.of_nat n - nonzero_rewards (ts_reward st))
    /\ Forall (fun r => (r == 0)%Q
                 \/ exists ad bd, ad ∈ ads d /\ bid d !! ad = Some bd
                                  /\ (r == bd)%Q) (ts_reward st).
Proof.
  induction n as [|n IH]; intros Hn g st g' Hrun.
  - apply TS_upto_0 in Hrun. destruct Hrun as (_ & a & b & Hinit & ->).
    exists a, b. simpl. split; [done|].
    unfold nonzero_rewards. simpl. split; [lia|]. split; [lia|constructor].
  - apply TS_upto_S_Ok in Hrun; [|lia].
    destruct Hrun as (st1 & g1 & Hrun & Hround).
    assert (Hle : (n <= Z.to_nat T)%nat) by lia.
    destruct (IH Hle _ _ _ Hrun) as (a0 & b0 & Hinit & Ha & Hb & Hrew).
    apply TS_round_Ok in Hround.
    destruct Hround as (cp & g2 & arg & val & p & click & bd & evb & eva
                        & a & b & _ & Hsel & _ & Hclick & Hbd & _ & _ & Hup & ->).
    exists a0, b0. simpl. split; [done|].
    destruct (update_totals _ _ _ _ _ _ Hup) as [Hone Hother].
    destruct (scan_Some_elem _ _ _ _ Hsel) as [Harg _].
    rewrite nonzero_rewards_snoc.
    destruct (Hbern _ _ _ _ Hclick) as [->| ->].
    + destruct Hother as [-> ->]; [done|].
      assert (Hz : (bd * inject_Z 0 == 0)%Q) by ring.
      rewrite (proj2 (Qeq_bool_iff _ _) Hz).
      split; [lia|]. split; [lia|].
      apply Forall_app. split; [done|]. apply Forall_singleton. by left.
    + destruct Hone as [-> ->]; [done|].
      assert (Hb1 : (bd * inject_Z 1 == bd)%Q) by ring.
      assert (Hnz : Qeq_bool (bd * inject_Z 1) 0 = false).
      { apply not_true_is_false. intros Hz%Qeq_bool_iff.
        apply (Hbids arg bd Hbd). by rewrite <- Hb1. }
      rewrite Hnz. split; [lia|]. split; [lia|].
      apply Forall_app. split; [done|]. apply Forall_singleton.
      right. eauto.
Qed.

End Rewards.

(** X10: when the Bernoulli draws are 0 or 1 and no bid is zero, every reward
    recorded by a replication is 0 or the bid of an advertiser of the
    registry, the counts [a] have grown in total by the number of non-zero
    rewards (the clicks), and the counts [b] by the number of the other
    rounds. *)
Theorem TS_clicks_are_counted {rng} `{NpRandom rng}
    (d : AuctionData) (ev_true : gmap string Q) (best : option string)
    (T : Z) (n : nat) (g : rng) (st : TSState) (g' : rng)
    (Hbern : bernoulli_draws)
    (Hbids : forall ad bd, bid d !! ad = Some bd -> ~ (bd == 0)%Q)
    (Hn : (n <= Z.to_nat T)%nat)
    (Hrun : TS_upto d ev_true best T n g = Ok (st, g')) :
  exists a0 b0,
    initialization d = Ok (a0, b0)
    /\ total (ts_a st) = total a0 + nonzero_rewards (ts_reward st)
    /\ total (ts_b st)
       = total b0 + (Z.of_nat n - nonzero_rewards (ts_reward st))
    /\ Forall (fun r => (r == 0)%Q
                 \/ exists ad bd, ad ∈ ads d /\ bid d !! ad = Some bd
                                  /\ (r == bd)%Q) (ts_reward st).
Proof. by eapply TS_upto_rewards. Qed.

Lemma reference_bids_nonzero ad bd :
  bid reference !! ad = Some bd -> ~ (bd == 0)%Q.
Proof.
  intros Hbd Hz. simpl in Hbd.
  destruct (decide (ad = "crypto_magic")) as [->|H1];
    [vm_compute in Hbd; injection Hbd as <-; discriminate Hz|].
  destruct (decide (ad = "green_energy")) as [->|H2];
    [vm_compute in Hbd; injection Hbd as <-; discriminate Hz|].
  destruct (decide (ad = "infini_waves")) as [->|H3];
    [vm_compute in Hbd; injection Hbd as <-; discriminate Hz|].
  by rewrite !lookup_insert_ne, lookup_singleton_ne in Hbd by done.
Qed.

Lemma TS_clicks_are_counted_witness :
  exists st g' a0 b0,
    TS_upto reference reference_ev_true reference_best 2 2 reference_script
    = Ok (st, g')
    /\ initialization reference = Ok (a0, b0)
    /\ total (ts_a st) = total a0 + nonzero_rewards (ts_reward st)
    /\ total (ts_b st)
       = total b0 + (Z.of_nat 2 - nonzero_rewards (ts_reward st)).
Proof.
  destruct (TS_upto reference reference_ev_true reference_best 2 2
              reference_script) as [[st g']|e] eqn:Hrun;
    [|vm_compute in Hrun; discriminate].
  destruct (TS_clicks_are_counted reference reference_ev_true reference_best
              2 2 reference_script st g' script_bernoulli_draws
              reference_bids_nonzero)
    as (a0 & b0 & Hinit & Ha & Hb & _); [vm_compute; lia|exact Hrun|].
  exists st, g', a0, b0. auto.
Defined.

(** ** The data cells *)

(** X11: the cell of the true expected values raises [KeyError], and nothing
    else, exactly when an advertiser of the registry is missing from [bid] or
    from [ctr_true]; otherwise [ev_true] has exactly the advertisers of the
    registry as keys, each with its bid times its true click-through rate. *)
Theorem ev_true_cell_keys (d : AuctionData) :
  ((forall ad, ad ∈ ads d ->
      is_Some (bid d !! ad) /\ is_Some (ctr_true d !! ad))
   <-> exists ev_true, ev_true_cell d = Ok ev_true)
  /\ (forall e, ev_true_cell d = Raise e -> e = KeyError)
  /\ (forall ev_true, ev_true_cell d = Ok ev_true ->
        keys_are_ads d ev_true
        /\ forall ad, ad ∈ ads d ->
             exists bd p, bid d !! ad = Some bd /\ ctr_true d !! ad = Some p
                          /\ ev_true !! ad = Some (bd * p)%Q).
Proof.
  assert (Hval : forall ev_true, ev_true_cell d = Ok ev_true ->
            forall ad, ad ∈ ads d ->
              exists bd p, bid d !! ad = Some bd /\ ctr_true d !! ad = Some p
                           /\ ev_true !! ad = Some (bd * p)%Q).
  { intros ev Hev ad Had.
    destruct (dict_comp_lookup _ _ _ _ Hev Had) as (v & Hf & Hv).
    apply bind_Ok in Hf. destruct Hf as (bd & Hbd & Hf).
    apply bind_Ok in Hf. destruct Hf as (p & Hp & [= <-]).
    apply getitem_Ok in Hbd, Hp. eauto. }
  split; [split|split].
  - intros Hkeys. apply dict_comp_total. intros ad Had.
    destruct (Hkeys ad Had) as [[bd Hbd] [p Hp]].
    exists (bd * p)%Q. unfold getitem. rewrite Hbd. simpl. by rewrite Hp.
  - intros [ev Hev] ad Had.
    destruct (Hval ev Hev ad Had) as (bd & p & Hbd & Hp & _). eauto.
  - intros e He. eapply (dict_comp_raises _ _ KeyError); [|exact He].
    intros ad e'. cbv beta.
    destruct (getitem (bid d) ad) as [bd|e1] eqn:Hbd; simpl.
    + destruct (getitem (ctr_true d) ad) as [p|e2] eqn:Hp; simpl;
        [discriminate|].
      intros [= <-]. by apply getitem_raises in Hp.
    + intros [= <-]. by apply getitem_raises in Hbd.
  - intros ev Hev. split; [|by apply Hval].
    intros ad. by eapply dict_comp_keys.
Qed.

Lemma ev_true_cell_keys_witness :
  exists ev_true,
    ev_true_cell reference = Ok ev_true
    /\ keys_are_ads reference ev_true
    /\ forall ad, ad ∈ ads reference ->
         exists bd p, bid reference !! ad = Some bd
                      /\ ctr_true reference !! ad = Some p
                      /\ ev_true !! ad = Some (bd * p)%Q.
Proof.
  exists reference_ev_true. split; [vm_compute; reflexivity|].
  apply (proj2 (proj2 (ev_true_cell_keys reference))).
  vm_compute. reflexivity.
Defined.

(** X12: on the expected values that the previous cell computed, the cell
    that determines [best] cannot raise; [best] is [None] exactly when no
    true expected value is strictly positive, and otherwise it is the
    earliest advertiser of the registry whose true expected value is the
    largest. *)
Theorem best_cell_oracle (d : AuctionData) (ev_true : gmap string Q)
    (Hev : ev_true_cell d = Ok ev_true) :
  exists best,
    best_cell d ev_true = Ok best
    /\ match best with
       | None =>
           forall ad v, ad ∈ ads d -> ev_true !! ad = Some v -> (v <= 0)%Q
       | Some b =>
           exists (i : nat) vb,
             ads d !! i = Some b /\ ev_true !! b = Some vb /\ (0 < vb)%Q
             /\ (forall ad v, ad ∈ ads d -> ev_true !! ad = Some v ->
                   (v <= vb)%Q)
             /\ (forall (j : nat) ad v, (j < i)%nat -> ads d !! j = Some ad ->
                   ev_true !! ad = Some v -> (v < vb)%Q)
       end.
Proof.
  destruct (scan_total (getitem ev_true) (ads d)) as [[arg val] Hscan].
  { intros ad Had. destruct (dict_comp_lookup _ _ _ _ Hev Had) as (v & _ & Hv).
    exists v. by apply getitem_Ok. }
  exists arg. unfold best_cell. rewrite Hscan. simpl. split; [done|].
  destruct (scan_spec _ _ _ _ Hscan) as [Hmax Harg]. destruct arg as [b|].
  - destruct Harg as (i & Hi & Hv & Hpos & Hbefore). apply getitem_Ok in Hv.
    exists i, val. repeat split; auto.
    + intros ad v Had Hv'. apply (Hmax ad); [done|by apply getitem_Ok].
    + intros j ad v Hj Hl Hv'. apply (Hbefore j ad); auto. by apply getitem_Ok.
  - subst val. intros ad v Had Hv. apply (Hmax ad); [done|by apply getitem_Ok].
Qed.

Lemma best_cell_oracle_witness :
  exists best,
    best_cell reference reference_ev_true = Ok best
    /\ match best with
       | None =>
           forall ad v, ad ∈ ads reference ->
             reference_ev_true !! ad = Some v -> (v <= 0)%Q
       | Some b =>
           exists (i : nat) vb,
             ads reference !! i = Some b /\ reference_ev_true !! b = Some vb
             /\ (0 < vb)%Q
             /\ (forall ad v, ad ∈ ads reference ->
                   reference_ev_true !! ad = Some v -> (v <= vb)%Q)
             /\ (forall (j : nat) ad v, (j < i)%nat ->
                   ads reference !! j = Some ad ->
                   reference_ev_true !! ad = Some v -> (v < vb)%Q)
       end.
Proof.
  apply (best_cell_oracle reference reference_ev_true).
  vm_compute. reflexivity.
Defined.

(** X13: [initialization] raises [KeyError], and nothing else, exactly when
    an advertiser of the registry is missing from [clicks] or from [views];
    otherwise [a] and [b] have exactly the advertisers of the registry as
    keys, and for every advertiser [a + b] is its number of views. *)
Theorem initialization_keys_and_views (d : AuctionData) :
  ((forall ad, ad ∈ ads d ->
      is_Some (clicks d !! ad) /\ is_Some (views d !! ad))
   <-> exists a b, initialization d = Ok (a, b))
  /\ (forall e, initialization d = Raise e -> e = KeyError)
  /\ (forall a b, initialization d = Ok (a, b) ->
        keys_are_ads d a /\ keys_are_ads d b
        /\ forall ad, ad ∈ ads d ->
             exists x y v, a !! ad = Some x /\ b !! ad = Some y
                           /\ views d !! ad = Some v /\ x + y = v).
Proof.
  split; [split|split].
  - apply initialization_total.
  - intros (a & b & Hinit) ad Had.
    destruct (initialization_lookup _ _ _ _ Hinit Had)
      as (c & v & Hc & Hv & _). eauto.
  - unfold initialization. intros e He.
    destruct (dict_comp (getitem (clicks d)) (ads d)) as [a|e1] eqn:Ha;
      simpl in He.
    + destruct (dict_comp _ (ads d)) as [b|e2] eqn:Hb in He; simpl in He;
        [done|]. injection He as <-.
      eapply (dict_comp_raises _ _ KeyError); [|exact Hb].
      intros ad e'. cbv beta.
      destruct (getitem (views d) ad) as [v|e3] eqn:Hv; simpl.
      * destruct (getitem (clicks d) ad) as [c|e4] eqn:Hc; simpl;
          [discriminate|].
        intros [= <-]. by apply getitem_raises in Hc.
      * intros [= <-]. by apply getitem_raises in Hv.
    + injection He as <-.
      eapply (dict_comp_raises _ _ KeyError); [|exact Ha].
      intros ad e'. apply getitem_raises.
  - intros a b Hinit. destruct (initialization_keys _ _ _ Hinit) as [Ha Hb].
    split; [done|]. split; [done|]. intros ad Had.
    destruct (initialization_lookup _ _ _ _ Hinit Had)
      as (c & v & Hc & Hv & Hac & Hbv).
    exists c, (v - c), v. repeat split; auto. lia.
Qed.

Lemma initialization_keys_and_views_witness :
  exists a b,
    initialization reference = Ok (a, b)
    /\ keys_are_ads reference a /\ keys_are_ads reference b
    /\ forall ad, ad ∈ ads reference ->
         exists x y v, a !! ad = Some x /\ b !! ad = Some y
                       /\ views reference !! ad = Some v /\ x + y = v.
Proof.
  eexists _, _. split; [vm_compute; reflexivity|].
  apply (proj2 (proj2 (initialization_keys_and_views reference))).
  vm_compute. reflexivity.
Defined.

(** ** Historical click-through rates *)

Lemma hist_rate_Ok d ad x :
  hist_rate d ad = HistOk x
  <-> exists c v, clicks d !! ad = Some c /\ views d !! ad = Some v
                  /\ v <> 0 /\ x = (inject_Z c / inject_Z v)%Q.
Proof.
  unfold hist_rate. destruct (clicks d !! ad) as [c|], (views d !! ad) as [v|];
    try (split; [discriminate|intros (? & ? & ? & ? & _); discriminate]).
  destruct (Z.eqb_spec v 0) as [->|Hv]; split.
  - discriminate.
  - intros (c' & v' & _ & [= <-] & Hne & _). done.
  - intros [= <-]. exists c, v. auto.
  - intros (c' & v' & [= <-] & [= <-] & _ & ->). done.
Qed.

Lemma ctr_hist_loop_Ok d l :
  forall acc h,
  ctr_hist_loop d l acc = HistOk h ->
  forall ad, (ad ∈ l -> exists x, hist_rate d ad = HistOk x /\ h !! ad = Some x)
          /\ (ad ∉ l -> h !! ad = acc !! ad).
Proof.
  induction l as [|x l IH]; intros acc h Hrun ad; simpl in Hrun.
  - injection Hrun as <-. split; [|done]. intros Had. by apply elem_of_nil in Had.
  - destruct (hist_rate d x) as [y| |] eqn:Hx; try discriminate.
    destruct (IH _ _ Hrun ad) as [Hin Hout].
    destruct (decide (ad ∈ l)) as [Hl|Hl].
    + split; [auto|]. intros Hn. exfalso. apply Hn. by right.
    + split.
      * intros [->|?]%elem_of_cons; [|done].
        exists y. split; [done|]. rewrite (Hout Hl). apply lookup_insert_eq.
      * intros Hn. rewrite (Hout Hl). apply lookup_insert_ne.
        intros ->. apply Hn. by left.
Qed.

Lemma ctr_hist_loop_total d l :
  (forall ad, ad ∈ l -> exists x, hist_rate d ad = HistOk x) ->
  forall acc, exists h, ctr_hist_loop d l acc = HistOk h.
Proof.
  induction l as [|x l IH]; intros Hl acc; simpl; [eauto|].
  destruct (Hl x) as [y Hy]; [by left|]. rewrite Hy.
  apply IH. intros ad Had. apply Hl. by right.
Qed.

Lemma ctr_hist_loop_zero d l :
  (forall ad, ad ∈ l -> is_Some (clicks d !! ad) /\ is_Some (views d !! ad)) ->
  (exists ad, ad ∈ l /\ views d !! ad = Some 0) ->
  forall acc, ctr_hist_loop d l acc = ZeroDivisionError.
Proof.
  induction l as [|x l IH]; intros Hkeys (ad & Had & Hzero) acc.
  { by apply elem_of_nil in Had. }
  simpl. destruct (Hkeys x) as [[c Hc] [v Hv]]; [by left|].
  unfold hist_rate at 1. rewrite Hc, Hv.
  destruct (Z.eqb_spec v 0) as [->|Hne]; [done|].
  apply IH; [intros ad' Had'; apply Hkeys; by right|].
  exists ad. split; [|done].
  apply elem_of_cons in Had as [->|Had]; [congruence|done].
Qed.



(** X15: the mean [a / (a + b)] of the initial prior of every advertiser is
    its historical click-through rate [clicks / views]; and when its clicks
    are between 0 and its views, that rate is between 0 and 1. *)
Theorem prior_mean_is_historical_rate (d : AuctionData)
    (a b : gmap string Z) (ctr_hist : gmap string Q) (ad : string)
    (Hinit : initialization d = Ok (a, b))
    (Hhist : ctr_hist_cell d = HistOk ctr_hist)
    (Had : ad ∈ ads d) :
  exists x y r,
    a !! ad = Some x /\ b !! ad = Some y /\ ctr_hist !! ad = Some r
    /\ (inject_Z x / (inject_Z x + inject_Z y) == r)%Q
    /\ (0 <= x -> 0 <= y -> (0 <= r)%Q /\ (r <= 1)%Q).
Proof.
  destruct (initialization_lookup _ _ _ _ Hinit Had)
    as (c & v & Hc & Hv & Ha & Hb).
  destruct (proj1 (ctr_hist_loop_Ok _ _ _ _ Hhist ad) Had) as (r & Hr & Hl).
  apply hist_rate_Ok in Hr. destruct Hr as (c' & v' & Hc' & Hv' & Hne & ->).
  assert (c' = c) as -> by congruence. assert (v' = v) as -> by congruence.
  exists c, (v - c), (inject_Z c / inject_Z v)%Q.
  split; [done|]. split; [done|]. split; [done|]. split.
  - rewrite <- inject_Z_plus. by replace (c + (v - c)) with v by lia.
  - intros H0c H0y. assert (Hpos : (0 < inject_Z v)%Q).
    { change 0%Q with (inject_Z 0). rewrite <- Zlt_Qlt. lia. }
    split.
    + apply Qle_shift_div_l; [done|]. rewrite Qmult_0_l.
      change 0%Q with (inject_Z 0). rewrite <- Zle_Qle. lia.
    + apply Qle_shift_div_r; [done|]. rewrite Qmult_1_l.
      rewrite <- Zle_Qle. lia.
Qed.

Lemma prior_mean_is_historical_rate_witness :
  exists a b ctr_hist x y r,
    initialization reference = Ok (a, b)
    /\ ctr_hist_cell reference = HistOk ctr_hist
    /\ a !! "infini_waves" = Some x /\ b !! "infini_waves" = Some y
    /\ ctr_hist !! "infini_waves" = Some r
    /\ (inject_Z x / (inject_Z x + inject_Z y) == r)%Q.
Proof.
  destruct (initialization reference) as [[a b]|e] eqn:Hinit;
    [|vm_compute in Hinit; discriminate].
  destruct (ctr_hist_cell reference) as [h| |] eqn:Hhist;
    [|vm_compute in Hhist; discriminate..].
  destruct (prior_mean_is_historical_rate reference a b h "infini_waves"
              Hinit Hhist) as (x & y & r & Hx & Hy & Hr & Heq & _).
  { simpl. right. right. by left. }
  exists a, b, h, x, y, r. auto 10.
Defined.

(** ** A run on well-formed tables *)

Lemma steady_beta_checked : @beta_checked unit steady_random.
Proof.
  split.
  - intros a b g Hab. simpl. unfold steady_beta.
    destruct (Z.leb_spec a 0), (Z.leb_spec b 0); simpl; try done. lia.
  - intros a b g Ha Hb. simpl. unfold steady_beta.
    destruct (Z.leb_spec a 0), (Z.leb_spec b 0); simpl; try lia. eauto.
Qed.

Lemma steady_beta_positive : @beta_positive unit steady_random.
Proof.
  intros a b g x g'. simpl. unfold steady_beta.
  destruct (_ || _); [done|]. by intros [= <- _].
Qed.

Lemma steady_binomial_total : @binomial_total unit steady_random.
Proof.
  intros p g H0 H1. simpl. unfold steady_binomial1.
  rewrite (proj2 (Qgtb_false 0 p) H0), (proj2 (Qgtb_false p 1) H1). simpl.
  eauto.
Qed.

Section Progress.
Context {rng : Type} `{NpRandom rng}.
Hypothesis Hchecked : beta_checked.
Hypothesis Hpositive : beta_positive.
Hypothesis Htotal : binomial_total.
Variable d : AuctionData.
Variable ev_true : gmap string Q.
Variable b0 : string.
Hypothesis Hwf : well_formed d.
Hypothesis Hne : ads d <> [].
Hypothesis Hev : ev_true_cell d = Ok ev_true.
Hypothesis Hbest : is_Some (ev_true !! b0).

Lemma sample_loop_progress t (a b : gmap string Z) l :
  (forall ad, ad ∈ l ->
     exists al be, a !! ad = Some al /\ b !! ad = Some be /\ 0 < al /\ 0 < be) ->
  forall ctr_prior (g : rng) row,
  ctr_prior !! t = Some row -> row_positive row ->
  exists ctr_prior' g' row',
    for_each_M (sample_step t a b) l ctr_prior g = Ok (ctr_prior', g')
    /\ ctr_prior' !! t = Some row' /\ row_positive row'.
Proof.
  destruct Hchecked as [_ Haccept].
  induction l as [|x l IH]; intros Hl cp g row Hrow Hpos; simpl.
  - exists cp, g, row. by repeat split.
  - destruct (Hl x) as (al & be & Hal & Hbe & H0a & H0b); [by left|].
    destruct (Haccept al be g H0a H0b) as (s & g1 & Hs).
    unfold mbind at 1, M_bind. unfold sample_step, mbind, M_bind, lift.
    rewrite (proj2 (getitem_Ok _ _ _) Hal), (proj2 (getitem_Ok _ _ _) Hbe).
    rewrite Hs, (proj2 (getitem_Ok _ _ _) Hrow). simpl.
    apply (IH (fun ad Had => Hl ad (list_elem_of_further _ _ _ Had))
              _ g1 (<[x := s]> row)); [apply lookup_insert_eq|].
    intros ad y. destruct (decide (x = ad)) as [->|Hxad].
    + rewrite lookup_insert_eq. intros [= <-]. by eapply Hpositive.
    + rewrite lookup_insert_ne by done. apply Hpos.
Qed.

Lemma TS_round_progress st t (g : rng) row :
  positive d (ts_a st) (ts_b st) ->
  ts_ctr_prior st !! t = Some row -> row_positive row ->
  exists st' g',
    TS_round d ev_true (Some b0) st t g = Ok (st', g')
    /\ positive d (ts_a st') (ts_b st')
    /\ (forall t', t' <> t -> ts_ctr_prior st' !! t' = ts_ctr_prior st !! t')
    /\ exists row', ts_ctr_prior st' !! t = Some row' /\ row_positive row'.
Proof.
  intros Hpos Hrow Hrp.
  destruct (sample_loop_progress t (ts_a st) (ts_b st) (ads d) Hpos
              (ts_ctr_prior st) g row Hrow Hrp)
    as (cp & g1 & row' & Hsample & Hrow' & Hrp').
  destruct (sample_posteriors_rows _ _ _ _ _ _ _ _ Hsample) as [Hother Hfill].
  destruct (Hfill row Hrow) as (row2 & Hrow2 & Hin & _).
  assert (row2 = row') as -> by congruence.
  assert (Hsampled : sampled d cp t).
  { exists row'. split; [done|]. intros ad Had.
    destruct (Hwf ad Had) as (bd & p & c & v & Hbd & _). eauto. }
  destruct (select_action_total _ _ _ Hsampled) as [[arg val] Hsel].
  destruct (scan_spec _ _ _ _ Hsel) as [Hmax Harg].
  destruct arg as [arg|].
  - destruct (scan_Some_elem _ _ _ _ Hsel) as [Harg' _].
    destruct (Hwf arg Harg') as (bd & p & c & v & Hbd & Hp & _ & _ & _ & Hp0 & Hp1 & _).
    destruct (Htotal p g1 Hp0 Hp1) as (click & g2 & Hclick).
    destruct Hbest as [evb Hevb].
    destruct (dict_comp_lookup _ _ _ _ Hev Harg') as (eva & _ & Heva).
    destruct (Hpos arg Harg') as (al & be & Hal & Hbe & _).
    assert (Hup : exists a b, update (ts_a st) (ts_b st) (Some arg) click
                              = Ok (a, b)).
    { destruct (decide (click = 1)) as [Hc|Hc].
      - eexists _, _. apply update_Ok. left. eauto 10.
      - eexists _, _. apply update_Ok. right. eauto 10. }
    destruct Hup as (a & b & Hup).
    assert (Hround : TS_round d ev_true (Some b0) st t g
              = Ok ({| ts_reward := ts_reward st ++ [(bd * inject_Z click)%Q];
                       ts_regret := ts_regret st ++ [(evb - eva)%Q];
                       ts_ctr_prior := cp; ts_a := a; ts_b := b |}, g2)).
    { apply TS_round_Ok.
      exists cp, g1, arg, val, p, click, bd, evb, eva, a, b.
      simpl. rewrite (proj2 (getitem_Ok _ _ _) Hevb). auto 12. }
    eexists _, _. split; [exact Hround|].
    split; [by eapply TS_round_positive|]. simpl. split; [done|]. eauto.
  - exfalso. subst val.
    assert (Hex : exists ad, ad ∈ ads d).
    { destruct (ads d) as [|ad l]; [done|]. exists ad. by left. }
    destruct Hex as [ad Had].
    destruct (estimated_value_total _ _ _ _ Hsampled Had)
      as (bd & row2 & s & Hbd & Hr2 & Hs & Hval).
    assert (row2 = row') as -> by congruence.
    destruct (Hwf ad Had) as (bd' & p & c & v & Hbd' & _ & _ & _ & H0bd & _).
    assert (bd' = bd) as -> by congruence.
    pose proof (Hrp' _ _ Hs) as H0s.
    specialize (Hmax ad _ Had Hval).
    assert (Hprod : (0 < bd * s)%Q) by (by apply Qmult_lt_0_compat).
    apply (Qlt_irrefl 0). by apply Qlt_le_trans with (bd * s)%Q.
Qed.

Lemma TS_loop_progress ts :
  forall st (g : rng),
  positive d (ts_a st) (ts_b st) ->
  (forall t, t ∈ ts ->
     exists row, ts_ctr_prior st !! t = Some row /\ row_positive row) ->
  exists st' g',
    for_each_M (TS_round d ev_true (Some b0)) ts st g = Ok (st', g').
Proof.
  induction ts as [|t ts IH]; intros st g Hpos Hrows; simpl; [eauto|].
  destruct (Hrows t) as (row & Hrow & Hrp); [by left|].
  destruct (TS_round_progress st t g row Hpos Hrow Hrp)
    as (st1 & g1 & Hround & Hpos1 & Hother & row1 & Hrow1 & Hrp1).
  unfold mbind, M_bind. rewrite Hround.
  apply IH; [done|]. intros t' Ht'.
  destruct (decide (t' = t)) as [->|Hne']; [eauto|].
  rewrite (Hother t' Hne'). apply Hrows. by right.
Qed.

Lemma TS_progress T (g : rng) :
  exists st g', TS d ev_true (Some b0) T g = Ok (st, g').
Proof.
  destruct (initialization_total d) as (a & b & Hinit).
  { intros ad Had. destruct (Hwf ad Had) as (bd & p & c & v & _ & _ & Hc & Hv & _).
    eauto. }
  unfold TS, TS_init. rewrite Hinit. unfold mbind at 1, M_bind. simpl.
  apply TS_loop_progress; simpl.
  - intros ad Had.
    destruct (initialization_lookup _ _ _ _ Hinit Had)
      as (c & v & Hc & Hv & Ha & Hb).
    destruct (Hwf ad Had) as (bd & p & c' & v' & _ & _ & Hc' & Hv' & _ & _ & _ & Hcv).
    assert (c' = c) as -> by congruence. assert (v' = v) as -> by congruence.
    exists c, (v - c). repeat split; auto; lia.
  - intros t Ht. apply range_elem in Ht.
    destruct (empty_rows_lookup T t) as [Hin _].
    exists ∅. split; [by apply Hin|]. intros ad x Hx.
    by rewrite lookup_empty in Hx.
Qed.

Lemma simulation_progress T l :
  forall all (g : rng),
  exists all' g',
    for_each_M (simulation_step d ev_true (Some b0) T) l all g = Ok (all', g').
Proof.
  induction l as [|r l IH]; intros all g; simpl; [eauto|].
  destruct (TS_progress T g) as (st & g1 & Hts).
  unfold mbind at 1, M_bind. unfold simulation_step at 1.
  unfold mbind at 1, M_bind. rewrite Hts. simpl. apply IH.
Qed.

End Progress.

Lemma best_cell_Some d ev_true :
  ev_true_cell d = Ok ev_true ->
  (exists ad v, ad ∈ ads d /\ ev_true !! ad = Some v /\ (0 < v)%Q) ->
  exists b, best_cell d ev_true = Ok (Some b) /\ is_Some (ev_true !! b).
Proof.
  intros Hev (ad & v & Had & Hv & Hpos).
  destruct (scan_total (getitem ev_true) (ads d)) as [[arg val] Hscan].
  { intros ad' Had'.
    destruct (dict_comp_lookup _ _ _ _ Hev Had') as (v' & _ & Hv').
    exists v'. by apply getitem_Ok. }
  destruct (scan_spec _ _ _ _ Hscan) as [Hmax Harg].
  destruct arg as [b|].
  - exists b. unfold best_cell. rewrite Hscan. split; [done|].
    destruct Harg as (i & _ & Hb & _). apply getitem_Ok in Hb. eauto.
  - exfalso. subst val.
    specialize (Hmax ad v Had (proj2 (getitem_Ok _ _ _) Hv)).
    apply (Qlt_irrefl 0). by apply Qlt_le_trans with v.
Qed.


Lemma reference_well_formed : well_formed reference.
Proof.
  intros ad Had. simpl in Had.
  apply elem_of_cons in Had as [->|Had];
    [|apply elem_of_cons in Had as [->|Had];
       [|apply elem_of_cons in Had as [->|Had];
          [|by apply elem_of_nil in Had]]];
    eexists _, _, _, _;
    (split; [vm_compute; reflexivity|]); (split; [vm_compute; reflexivity|]);
    (split; [vm_compute; reflexivity|]); (split; [vm_compute; reflexivity|]);
    (split; [reflexivity|]); (split; [discriminate|]);
    (split; [discriminate|]); lia.
Qed.


(** ** The sentiment notebook *)

Lemma append_close_inj (w w' : string) : w +:+ ")" = w' +:+ ")" -> w = w'.
Proof.
  revert w'. induction w as [|c w IH]; intros [|c' w'] Heq; simpl in Heq.
  - done.
  - injection Heq as _ Heq. by destruct w'.
  - injection Heq as _ Heq. by destruct w.
  - injection Heq as -> Heq. f_equal. by apply IH.
Qed.

Lemma feature_name_inj w w' :
  Sentiment.feature_name w = Sentiment.feature_name w' -> w = w'.
Proof.
  unfold Sentiment.feature_name. intros Heq.
  apply (inj (String.app "contains(")) in Heq. by apply append_close_inj.
Qed.

Lemma features_loop_lookup (document : list string) l :
  forall acc : gmap string bool,
  let features :=
    foldl (fun features word =>
             <[Sentiment.feature_name word := bool_decide (word ∈ document)]>
               features) acc l in
  (forall word, word ∈ l ->
     features !! Sentiment.feature_name word
     = Some (bool_decide (word ∈ document)))
  /\ (forall k, (forall word, word ∈ l -> k <> Sentiment.feature_name word) ->
        features !! k = acc !! k).
Proof.
  induction l as [|w l IH]; intros acc; simpl.
  - split; [|done]. intros word Hw. by apply elem_of_nil in Hw.
  - destruct (IH (<[Sentiment.feature_name w := bool_decide (w ∈ document)]> acc))
      as [Hin Hout].
    split.
    + intros word Hw. destruct (decide (word ∈ l)) as [Hl|Hl]; [by apply Hin|].
      apply elem_of_cons in Hw as [->|?]; [|done].
      rewrite Hout; [apply lookup_insert_eq|].
      intros word' Hw' Heq. apply feature_name_inj in Heq as ->. done.
    + intros k Hk. rewrite Hout by (intros word Hw; apply Hk; by right).
      apply lookup_insert_ne. intros Heq. by apply (Hk w); [left|].
Qed.

Lemma features_loop_size (document : list string) l :
  NoDup l ->
  forall acc : gmap string bool,
  (forall word, word ∈ l -> acc !! Sentiment.feature_name word = None) ->
  size (foldl (fun features word =>
                 <[Sentiment.feature_name word := bool_decide (word ∈ document)]>
                   features) acc l)
  = (size acc + length l)%nat.
Proof.
  induction 1 as [|w l Hw Hnd IH]; intros acc Hfresh; simpl; [lia|].
  rewrite IH.
  - rewrite map_size_insert_None; [lia|]. apply Hfresh. by left.
  - intros word Hword. rewrite lookup_insert_ne; [apply Hfresh; by right|].
    intros Heq. apply feature_name_inj in Heq as ->. done.
Qed.

(** X17: the features of a document have one key [contains(word)] for each
    word of [word_features] and no other key; the value is whether the word
    occurs in the document, so two documents with the same words, in any
    order and with any repetitions, have the same features; and distinct
    words give distinct keys, so a list of [k] different words gives [k]
    features. *)
Theorem document_features_spec (word_features : list string) :
  (forall document word, word ∈ word_features ->
     Sentiment.document_features word_features document
       !! Sentiment.feature_name word
     = Some (bool_decide (word ∈ document)))
  /\ (forall document k,
        is_Some (Sentiment.document_features word_features document !! k)
        <-> exists word, word ∈ word_features
                         /\ k = Sentiment.feature_name word)
  /\ (forall document document',
        (forall word, word ∈ document <-> word ∈ document') ->
        Sentiment.document_features word_features document
        = Sentiment.document_features word_features document')
  /\ (NoDup word_features ->
      forall document,
        size (Sentiment.document_features word_features document)
        = length word_features).
Proof.
  split; [|split; [|split]].
  - intros document word Hw.
    by apply (features_loop_lookup document word_features ∅).
  - intros document k.
    destruct (features_loop_lookup document word_features ∅) as [Hin Hout].
    split.
    + intros Hs.
      destruct (decide (Exists (fun word => k = Sentiment.feature_name word)
                          word_features)) as [Hex|Hex].
      * apply Exists_exists in Hex. exact Hex.
      * exfalso. unfold Sentiment.document_features in Hs.
        rewrite Hout, lookup_empty in Hs; [by destruct Hs|].
        intros word Hw Heq. apply Hex. apply Exists_exists. eauto.
    + intros (word & Hw & ->). unfold Sentiment.document_features.
      rewrite (Hin word Hw). eauto.
  - intros document document' Hsame. unfold Sentiment.document_features.
    generalize (∅ : gmap string bool).
    induction word_features as [|w l IH]; intros acc; simpl; [done|].
    rewrite (bool_decide_ext _ _ (Hsame w)). apply IH.
  - intros Hnd document. unfold Sentiment.document_features.
    rewrite features_loop_size; [by rewrite map_size_empty|done|].
    intros word _. apply lookup_empty.
Qed.

Lemma document_features_spec_witness :
  Sentiment.document_features ["good"; "bad"] ["a"; "good"; "film"]
  = Sentiment.document_features ["good"; "bad"] ["film"; "good"; "good"; "a"]
  /\ size (Sentiment.document_features ["good"; "bad"] ["a"; "good"; "film"])
     = length ["good"; "bad"].
Proof.
  split.
  - apply (proj1 (proj2 (proj2 (document_features_spec ["good"; "bad"])))).
    intros word. rewrite !elem_of_cons, !elem_of_nil. tauto.
  - apply (proj2 (proj2 (proj2 (document_features_spec ["good"; "bad"])))).
    apply NoDup_cons. split; [|apply NoDup_singleton].
    intros Hin. apply elem_of_cons in Hin as [Hin|Hin]; [discriminate|].
    by apply elem_of_nil in Hin.
Defined.

(** X18: the two counters of the reviews add up to the number of documents;
    [p] is the number of documents of category ['pos'], and [n] counts every
    other document, whatever its category. *)
Theorem count_reviews_total {D} (documents : list (D * string)) :
  fst (Sentiment.count_reviews documents)
  + snd (Sentiment.count_reviews documents)
  = Z.of_nat (length documents)
  /\ fst (Sentiment.count_reviews documents)
     = Z.of_nat (length (List.filter
                           (fun dc => bool_decide (snd dc = "pos")) documents))
  /\ snd (Sentiment.count_reviews documents)
     = Z.of_nat (length (List.filter
                           (fun dc => negb (bool_decide (snd dc = "pos")))
                           documents)).
Proof.
  unfold Sentiment.count_reviews.
  assert (Hgen : forall (l : list (D * string)) p n,
            let pn := foldl (fun pn dc => if decide (snd dc = "pos")
                                          then (fst pn + 1, snd pn)
                                          else (fst pn, snd pn + 1)) (p, n) l in
            fst pn = p + Z.of_nat (length (List.filter
                           (fun dc => bool_decide (snd dc = "pos")) l))
            /\ snd pn = n + Z.of_nat (length (List.filter
                           (fun dc => negb (bool_decide (snd dc = "pos"))) l))
            /\ fst pn + snd pn = p + n + Z.of_nat (length l)).
  { induction l as [|dc l IH]; intros p n; simpl; [lia|].
    destruct (decide (snd dc = "pos")) as [Hc|Hc].
    - rewrite (bool_decide_eq_true_2 _ Hc). simpl.
      destruct (IH (p + 1) n) as (-> & -> & ->). simpl. lia.
    - rewrite (bool_decide_eq_false_2 _ Hc). simpl.
      destruct (IH p (n + 1)) as (-> & -> & ->). simpl. lia. }
  destruct (Hgen documents 0 0) as (Hp & Hn & Hsum). simpl in *.
  rewrite Hp, Hn. split; [|split]; lia.
Qed.

(** X19: the split loses and repeats nothing: for every bound [x] the test
    set followed by the training set is the list of the feature sets; for a
    bound that is not negative the test set is the FIRST [x] feature sets (all
    of them when there are fewer) and the training set is the rest; and the
    feature sets carry the categories of the documents in the same order. *)
Theorem split_sets_partition {A} (x : Z) (fs : list A) :
  snd (Sentiment.split_sets x fs) ++ fst (Sentiment.split_sets x fs) = fs
  /\ (0 <= x ->
      snd (Sentiment.split_sets x fs) = take (Z.to_nat x) fs
      /\ fst (Sentiment.split_sets x fs) = drop (Z.to_nat x) fs
      /\ length (snd (Sentiment.split_sets x fs))
         = Nat.min (Z.to_nat x) (length fs))
  /\ (forall word_features documents,
        map snd (Sentiment.featuresets word_features documents)
        = map snd documents).
Proof.
  unfold Sentiment.split_sets, Sentiment.slice_from, Sentiment.slice_to. simpl.
  split; [apply take_drop|]. split.
  - intros Hx. unfold Sentiment.slice_bound.
    destruct (Z.ltb_spec x 0) as [|_]; [lia|].
    destruct (decide (x <= Z.of_nat (length fs))) as [Hle|Hgt].
    + rewrite Z.min_l by done. split; [done|]. split; [done|].
      rewrite length_take. lia.
    + rewrite Z.min_r by lia. rewrite Nat2Z.id.
      rewrite !take_ge, !drop_ge by lia. split; [done|]. split; [done|]. lia.
  - intros word_features documents. unfold Sentiment.featuresets.
    rewrite map_map. by apply map_ext.
Qed.

Lemma split_sets_partition_witness :
  snd (Sentiment.split_sets 2 [1; 2; 3]) = take (Z.to_nat 2) [1; 2; 3]
  /\ fst (Sentiment.split_sets 2 [1; 2; 3]) = drop (Z.to_nat 2) [1; 2; 3]
  /\ length (snd (Sentiment.split_sets 2 [1; 2; 3]))
     = Nat.min (Z.to_nat 2) (length [1; 2; 3]).
Proof.
  apply (proj1 (proj2 (split_sets_partition 2 [1; 2; 3]))). lia.
Defined.
